(** * Timeline events sync worker: ingestion and reconciliation engine

    A shallow embedding of the worker's Facebook-to-D1 path
    ([syncFromFacebookToD1], [upsertFacebookPost], [parseStructuredMessage],
    [splitMessage], [normalizeSourceUrl], [fetchFacebookFeed],
    [cleanDuplicates]) together with the properties its specification
    states about them.

    Conventions of the embedding:
    - a JavaScript string is the list of its UTF-16 code units ([list N]);
    - an optional or nullable string is an [option]; JavaScript truthiness
      of a string is "present and non-empty";
    - the D1 tables are lists of rows in rowid order, the R2 bucket is a
      finite map from storage keys to objects; a statement against D1
      always succeeds, and deleting an event deletes its photos
      ([ON DELETE CASCADE]).  A [SELECT] without [ORDER BY] is read in
      rowid order, which the database does not promise: properties that
      go through such a query are stated where every order gives the
      same result.  A photo row is only ever inserted for an event that
      is in the events table, as the table's foreign key demands;
    - row ids and positions are naturals ([N]), the worker's counters are
      integers ([Z]), and a number taken from the request is a
      [jsnumber];
    - everything the worker cannot decide by itself (photo downloads, the
      feed API, the clock, [crypto.randomUUID], whether a bucket write
      goes through) is read from an [Oracle] indexed by a logical time
      that advances with every such call;
    - an exception is a [Threw] outcome carrying the error message. *)

From Stdlib Require Import ZArith NArith List Ascii Bool Lia.
From stdpp Require Import base option list strings gmap.

Import ListNotations.
Local Open Scope N_scope.
Set Warnings "-register-all".

(* ===================================================================== *)
(** ** JavaScript strings *)
(* ===================================================================== *)

Module JS.

Abbreviation jsstring := (list N).

(** A string literal with ASCII content, as code units. *)
Definition js (s : String.string) : jsstring :=
  map N_of_ascii (String.list_ascii_of_string s).
Arguments js s%_string.

Definition LF : N := 10.
Definition CR : N := 13.
(** U+2026 HORIZONTAL ELLIPSIS, one UTF-16 code unit. *)
Definition ELLIPSIS : N := 8230.

Fixpoint jseqb (a b : jsstring) : bool :=
  match a, b with
  | [], [] => true
  | x :: a', y :: b' => N.eqb x y && jseqb a' b'
  | _, _ => false
  end.

(** [!s] on a string is false exactly when it is non-empty. *)
Definition truthy (s : jsstring) : bool :=
  match s with [] => false | _ :: _ => true end.

Definition otruthy (o : option jsstring) : bool :=
  match o with Some s => truthy s | None => false end.

(** [a || b] where both sides are strings or null/undefined. *)
Definition jsor (a b : option jsstring) : option jsstring :=
  if otruthy a then a else b.

(** [a || "literal"]: the result is always a string. *)
Definition jsor_str (a : option jsstring) (b : jsstring) : jsstring :=
  match a with
  | Some s => if truthy s then s else b
  | None => b
  end.

(** [s || null]. *)
Definition or_null (s : jsstring) : option jsstring :=
  if truthy s then Some s else None.

(** ECMAScript WhiteSpace and LineTerminator code points: the set
    stripped by [String.prototype.trim] and matched by the regular
    expression class [\s]. *)
Definition isLineTerminator (c : N) : bool :=
  (c =? 10) || (c =? 13) || (c =? 8232) || (c =? 8233).

Definition isWhiteSpace (c : N) : bool :=
  (c =? 9) || (c =? 11) || (c =? 12) || (c =? 32) || (c =? 160)
  || (c =? 5760) || ((8192 <=? c) && (c <=? 8202)) || (c =? 8239)
  || (c =? 8287) || (c =? 12288) || (c =? 65279)
  || isLineTerminator c.

Fixpoint trimStart (s : jsstring) : jsstring :=
  match s with
  | c :: s' => if isWhiteSpace c then trimStart s' else s
  | [] => []
  end.

Definition trimEnd (s : jsstring) : jsstring := rev (trimStart (rev s)).

Definition trim (s : jsstring) : jsstring := trimEnd (trimStart s).

(** [s.split(/\r?\n/)]: a separator is a line feed, together with the
    carriage return right before it when there is one. *)
Fixpoint split_lines (s : jsstring) : list jsstring :=
  match s with
  | [] => [[]]
  | c :: s' =>
      if c =? LF then [] :: split_lines s'
      else
        let keep :=
          match split_lines s' with
          | l :: ls => (c :: l) :: ls
          | [] => [[c]]
          end in
        if c =? CR then
          match s' with
          | d :: s'' => if d =? LF then [] :: split_lines s'' else keep
          | [] => keep
          end
        else keep
  end.

(** [parts.join(" ")]. *)
Fixpoint join_space (parts : list jsstring) : jsstring :=
  match parts with
  | [] => []
  | [p] => p
  | p :: ps => p ++ 32 :: join_space ps
  end.

(** [s.slice(0, e)] for an integer [e]: a negative end counts from the
    end of the string. *)
Definition slice0 (s : jsstring) (e : Z) : jsstring :=
  if (e <? 0)%Z then firstn (Z.to_nat (Z.of_nat (length s) + e)) s
  else firstn (Z.to_nat e) s.

Fixpoint startsWith (p s : jsstring) : bool :=
  match p, s with
  | [], _ => true
  | x :: p', y :: s' => N.eqb x y && startsWith p' s'
  | _ :: _, [] => false
  end.

(** [s.includes(sub)]. *)
Fixpoint includes (s sub : jsstring) : bool :=
  startsWith sub s ||
  match s with
  | [] => false
  | _ :: s' => includes s' sub
  end.

(** Decimal rendering of a non-negative integer, as [String(n)] or a
    template literal does it. *)
Fixpoint dec_digits (fuel : nat) (n : N) (acc : jsstring) : jsstring :=
  match fuel with
  | O => acc
  | S f =>
      let acc' := (48 + n mod 10) :: acc in
      if n <? 10 then acc' else dec_digits f (n / 10) acc'
  end.

Definition dec (n : N) : jsstring := dec_digits (S (N.to_nat (N.log2 n))) n [].

End JS.

Export JS.

(* ===================================================================== *)
(** ** JavaScript numbers *)
(* ===================================================================== *)

(** A number as the worker receives it in a request parameter
    ([Number(text)]): not-a-number, an infinity, or a finite value.
    Every finite double is a fraction of two integers, and the worker
    only tests such a number, compares it and passes it on, all of which
    is exact; [-0] behaves as [0] in each of these and is not told
    apart. *)
Inductive jsnumber : Type :=
| NaN
| Infinity (negative : bool)
| Finite (num : Z) (den : positive).

(** An integer as a number. *)
Definition of_Z (z : Z) : jsnumber := Finite z 1.

(** [!!x]: neither zero nor not-a-number. *)
Definition num_truthy (x : jsnumber) : bool :=
  match x with
  | NaN => false
  | Infinity _ => true
  | Finite n _ => negb (n =? 0)%Z
  end.

(** [x < y] *)
Definition num_lt (x y : jsnumber) : bool :=
  match x, y with
  | NaN, _ | _, NaN => false
  | Infinity nx, Infinity ny => nx && negb ny
  | Infinity nx, Finite _ _ => nx
  | Finite _ _, Infinity ny => negb ny
  | Finite a b, Finite c d => (a * Z.pos d <? c * Z.pos b)%Z
  end.

(** [x <= y] *)
Definition num_le (x y : jsnumber) : bool :=
  match x, y with
  | NaN, _ | _, NaN => false
  | Infinity nx, Infinity ny => nx || negb ny
  | Infinity nx, Finite _ _ => nx
  | Finite _ _, Infinity ny => negb ny
  | Finite a b, Finite c d => (a * Z.pos d <=? c * Z.pos b)%Z
  end.

(** [Math.min(x, y)] *)
Definition num_min (x y : jsnumber) : jsnumber :=
  match x, y with
  | NaN, _ | _, NaN => NaN
  | _, _ => if num_lt y x then y else x
  end.

(* ===================================================================== *)
(** ** The regular expressions of the message structurer *)
(* ===================================================================== *)

(** The four patterns are sequences of literals, classes and greedy
    class repetitions with one capture group.  Matching is JavaScript's:
    leftmost start, greedy repetition, backtracking into a repetition
    when what follows fails. *)
Module Regex.

Inductive atom : Type :=
| ALit (c : N)            (* a literal character *)
| ASet (p : N -> bool)    (* one character of a class *)
| AStar (p : N -> bool)   (* class*, greedy *)
| APlus (p : N -> bool).  (* class+, greedy *)

Inductive item : Type :=
| Plain (a : atom)
| Group (body : list atom).   (* capture group 1 *)

Definition pattern := list item.

(** Canonicalize of the [/i] flag (non-unicode mode) on the Basic Latin
    letters.  A character outside ASCII never canonicalizes to an ASCII
    one, so comparing with an ASCII literal needs no more than this. *)
Definition canonicalize (c : N) : N :=
  if (97 <=? c) && (c <=? 122) then c - 32 else c.

Section Matcher.
Context {R : Type}.
Variable ignoreCase : bool.

Definition char_matches (c x : N) : bool :=
  if ignoreCase then canonicalize c =? canonicalize x else c =? x.

Fixpoint star (p : N -> bool) (s : jsstring)
         (k : jsstring -> option R) : option R :=
  match s with
  | c :: s' =>
      if p c then
        match star p s' k with
        | Some r => Some r
        | None => k s
        end
      else k s
  | [] => k []
  end.

Definition match_atom (a : atom) (s : jsstring)
           (k : jsstring -> option R) : option R :=
  match a with
  | ALit c =>
      match s with
      | x :: s' => if char_matches c x then k s' else None
      | [] => None
      end
  | ASet p =>
      match s with
      | x :: s' => if p x then k s' else None
      | [] => None
      end
  | AStar p => star p s k
  | APlus p =>
      match s with
      | x :: s' => if p x then star p s' k else None
      | [] => None
      end
  end.

Fixpoint match_atoms (body : list atom) (s : jsstring)
         (k : jsstring -> option R) : option R :=
  match body with
  | [] => k s
  | a :: body' => match_atom a s (fun s' => match_atoms body' s' k)
  end.
End Matcher.

(** Match [p] at the start of [s]; the result is capture group 1. *)
Fixpoint match_here (ic : bool) (p : pattern) (s : jsstring)
         (cap : option jsstring) : option (option jsstring) :=
  match p with
  | [] => Some cap
  | Plain a :: p' =>
      match_atom ic a s (fun s' => match_here ic p' s' cap)
  | Group body :: p' =>
      match_atoms ic body s
        (fun s' => match_here ic p' s'
                     (Some (firstn (length s - length s') s)))
  end.

(** [s.match(re)] for a non-global [re]: [None] is JavaScript's null;
    [Some c] is a match whose group 1 is [c]. *)
Fixpoint exec (ic : bool) (p : pattern) (s : jsstring)
  : option (option jsstring) :=
  match match_here ic p s None with
  | Some c => Some c
  | None =>
      match s with
      | [] => None
      | _ :: s' => exec ic p s'
      end
  end.

(** [m?.[1]]. *)
Definition group1 (m : option (option jsstring)) : option jsstring :=
  match m with Some c => c | None => None end.

Definition lits (s : String.string) : pattern :=
  map (fun c => Plain (ALit c)) (js s).
Arguments lits s%_string.

Definition ws : N -> bool := isWhiteSpace.
Definition dot (c : N) : bool := negb (isLineTerminator c).
Definition any (_ : N) : bool := true.
(** The class [[:\-]]. *)
Definition colon_or_dash (c : N) : bool := (c =? 58) || (c =? 45).

(** [\s*[:\-]\s*] *)
Definition label_sep : pattern :=
  [Plain (AStar ws); Plain (ASet colon_or_dash); Plain (AStar ws)].

(** [/life\s*event\s*name\s*[:\-]\s*(.+)/i] *)
Definition nameRe : pattern :=
  lits "life" ++ [Plain (AStar ws)] ++ lits "event" ++ [Plain (AStar ws)]
  ++ lits "name" ++ label_sep ++ [Group [APlus dot]].

(** [/date\s*[:\-]\s*(.+)/i] *)
Definition dateRe : pattern := lits "date" ++ label_sep ++ [Group [APlus dot]].

(** [/type\s*[:\-]\s*(.+)/i] *)
Definition typeRe : pattern := lits "type" ++ label_sep ++ [Group [APlus dot]].

(** [/post\s*[:\-]\s*([\s\S]+)/i] *)
Definition postRe : pattern := lits "post" ++ label_sep ++ [Group [APlus any]].

(** [/\/$/]: used by [buildPublicPhotoUrl] to drop one trailing slash. *)
Definition strip_trailing_slash (s : jsstring) : jsstring :=
  match rev s with
  | c :: r => if c =? 47 then rev r else s
  | [] => s
  end.

End Regex.

(* ===================================================================== *)
(** ** Feed data: posts and their attachment tree *)
(* ===================================================================== *)

(** [FacebookAttachment].  [att_src] is [node.media?.image?.src] and
    [att_sub] is [node.subattachments?.data]. *)
Inductive FacebookAttachment : Type :=
  mkAttachment {
      att_src : option jsstring;
      att_sub : option (list FacebookAttachment);
      att_description : option jsstring;
      att_title : option jsstring;
      att_type : option jsstring;
      att_media_type : option jsstring
    }.

(** [FacebookPost], with the fields the worker reads.  [post_attachments]
    is [post.attachments?.data], [post_from_name] is [post.from?.name] and
    [post_place_name] is [post.place?.name]. *)
Record FacebookPost : Type :=
  mkPost {
      post_id : option jsstring;
      post_message : option jsstring;
      post_story : option jsstring;
      post_created_time : option jsstring;
      post_backdated_time : option jsstring;
      post_from_name : option jsstring;
      post_status_type : option jsstring;
      post_place_name : option jsstring;
      post_attachments : option (list FacebookAttachment);
      post_full_picture : option jsstring
    }.

Record AuthorProfile : Type :=
  mkProfile {
      profile_name : option jsstring;
      profile_photo : option jsstring;
      profile_location : option jsstring
    }.

Record ParsedMessage : Type :=
  mkParsed {
      title : option jsstring;
      description : option jsstring;
      eventDate : option jsstring;
      eventType : option jsstring
    }.

(** [x === "literal"] for an optional string [x]. *)
Definition str_is (x : option jsstring) (lit : jsstring) : bool :=
  match x with Some s => jseqb s lit | None => false end.

Definition is_life_event (a : FacebookAttachment) : bool :=
  str_is (att_type a) (js "life_event")
  || str_is (att_media_type a) (js "life_event").

(* ===================================================================== *)
(** ** Message structurer *)
(* ===================================================================== *)

Definition truncate (value : jsstring) (max : nat) : jsstring :=
  if (length value <=? max)%nat then value
  else slice0 value (Z.of_nat max - 1) ++ [ELLIPSIS].

Record Headline : Type :=
  mkHeadline { line1 : jsstring; line2 : option jsstring }.

Definition splitMessage (message : jsstring) : Headline :=
  if negb (truthy message) then
    {| line1 := js "Memory"; line2 := None |}
  else
    let parts := split_lines (trim message) in
    let first := hd_error parts in
    let rest := tl parts in
    let l1 := jsor_str (trim <$> first) (js "Memory") in
    let l2 := or_null (trim (join_space rest)) in
    {| line1 := truncate l1 120;
       line2 := (fun l => truncate l 180) <$> l2 |}.

(** The inner [walk] of [extractPhotoUrls]: the node's own image source
    first, then its subattachments, depth first. *)
Fixpoint walk_node (node : FacebookAttachment) : list jsstring :=
  let own :=
    match att_src node with
    | Some src => if truthy src then [src] else []
    | None => []
    end in
  let nested :=
    match att_sub node with
    | Some children =>
        (fix walk (nodes : list FacebookAttachment) : list jsstring :=
           match nodes with
           | [] => []
           | n :: nodes' => walk_node n ++ walk nodes'
           end) children
    | None => []
    end in
  own ++ nested.

Definition walk (nodes : list FacebookAttachment) : list jsstring :=
  flat_map walk_node nodes.

Definition extractPhotoUrls (attachments : option (list FacebookAttachment))
  : list jsstring :=
  match attachments with
  | None => []
  | Some data => walk data
  end.

(** [extractAttachmentText] on one node: its description or title, else
    the first text found below it. *)
Fixpoint attachment_text (att : FacebookAttachment) : option jsstring :=
  let text := jsor (att_description att) (att_title att) in
  if otruthy text then text
  else
    match att_sub att with
    | Some children =>
        (fix first_text (nodes : list FacebookAttachment) : option jsstring :=
           match nodes with
           | [] => None
           | n :: nodes' =>
               let t := attachment_text n in
               if otruthy t then t else first_text nodes'
           end) children
    | None => None
    end.

Fixpoint first_attachment_text (data : list FacebookAttachment)
  : option jsstring :=
  match data with
  | [] => None
  | att :: data' =>
      let t := attachment_text att in
      if otruthy t then t else first_attachment_text data'
  end.

Definition extractAttachmentText
           (attachments : option (list FacebookAttachment)) : option jsstring :=
  match attachments with
  | None => None
  | Some data => first_attachment_text data
  end.

Definition getPrimaryAttachment
           (attachments : option (list FacebookAttachment))
  : option FacebookAttachment :=
  match attachments with
  | None => None
  | Some data =>
      match List.find is_life_event data with
      | Some life => Some life
      | None => hd_error data
      end
  end.

Definition parseStructuredMessage
           (message fallbackDate : jsstring)
           (attachments : option (list FacebookAttachment))
           (mainAttachment : option FacebookAttachment)
           (placeName : option jsstring) : ParsedMessage :=
  let attachmentText := extractAttachmentText attachments in
  let normalized := message in
  let nameMatch := Regex.exec true Regex.nameRe normalized in
  let dateMatch := Regex.exec true Regex.dateRe normalized in
  let typeMatch := Regex.exec true Regex.typeRe normalized in
  let postMatch := Regex.exec true Regex.postRe normalized in
  let title :=
    jsor (trim <$> Regex.group1 nameMatch)
         (jsor (trim <$> (mainAttachment ≫= att_title)) None) in
  let eventDate :=
    or_null (trim (jsor_str (jsor (trim <$> Regex.group1 dateMatch)
                                  (Some fallbackDate)) [])) in
  let eventType :=
    jsor (trim <$> Regex.group1 typeMatch)
         (jsor (mainAttachment ≫= att_type) None) in
  let description :=
    if otruthy (Regex.group1 postMatch) then trim <$> Regex.group1 postMatch
    else if truthy normalized then Some (trim normalized)
    else if otruthy attachmentText then attachmentText
    else None in
  let description :=
    match placeName, description with
    | Some place, Some d =>
        if truthy place && truthy d && negb (includes d place)
        then Some (d ++ [LF; LF] ++ js "Location: " ++ place)
        else description
    | _, _ => description
    end in
  {| title := title; description := description;
     eventDate := eventDate; eventType := eventType |}.

(** [hasLifeEventAttachment]: a top-level attachment marks a life event,
    or the post created an event, or a direct subattachment does. *)
Definition hasLifeEventAttachment (post : FacebookPost) : bool :=
  match post_attachments post with
  | Some data => existsb is_life_event data
  | None => false
  end
  || str_is (post_status_type post) (js "created_event")
  || match post_attachments post with
     | Some data =>
         existsb (fun att =>
                    match att_sub att with
                    | Some subs => existsb is_life_event subs
                    | None => false
                    end) data
     | None => false
     end.

(* ===================================================================== *)
(** ** The platform [URL] class and source-URL normalization *)
(* ===================================================================== *)

(** The runtime's WHATWG [URL] class is not part of the worker; it is an
    interface the worker programs against. *)
Class URLApi : Type :=
  {
    URL : Type;
    (** [new URL(s)]: [None] when the constructor throws. *)
    url_parse : jsstring -> option URL;
    (** [u.search = ""] *)
    url_clear_search : URL -> URL;
    (** [u.hash = ""] *)
    url_clear_hash : URL -> URL;
    (** [u.toString()] *)
    url_href : URL -> jsstring
  }.

(** What the URL Standard promises of that interface: a URL object parses
    back from its own serialization, and emptying the query or the
    fragment of a URL that has none changes nothing. *)
Class URLApiLaws (api : URLApi) : Prop :=
  {
    url_reparse : forall u : URL, url_parse (url_href u) = Some u;
    url_clear_search_idem :
      forall u : URL, url_clear_search (url_clear_search u) = url_clear_search u;
    url_clear_hash_idem :
      forall u : URL, url_clear_hash (url_clear_hash u) = url_clear_hash u;
    url_clear_comm :
      forall u : URL,
        url_clear_search (url_clear_hash u) = url_clear_hash (url_clear_search u)
  }.

Section Normalize.
Context {api : URLApi}.

Definition normalizeSourceUrl (url : jsstring) : jsstring :=
  match url_parse url with
  | Some u => url_href (url_clear_hash (url_clear_search u))
  | None => url
  end.
End Normalize.

(* ===================================================================== *)
(** ** Store, blob store and the outside world *)
(* ===================================================================== *)

(** A row of [events]. *)
Record EventRecord : Type :=
  mkEvent {
      ev_id : N;
      external_id : option jsstring;
      external_source : option jsstring;
      event_date : option jsstring;
      event_type : option jsstring;
      event_name_line_1 : option jsstring;
      event_name_line_2 : option jsstring;
      event_description : option jsstring;
      posted_by_name : option jsstring;
      posted_by_photo : option jsstring;
      date_added : option jsstring;
      active : Z;
      approved : Z;
      origin : jsstring;
      sync : Z;
      ev_created_at : option jsstring;
      ev_updated_at : option jsstring
    }.

(** A row of [event_photos]. *)
Record EventPhotoRecord : Type :=
  mkPhoto {
      ph_id : N;
      event_id : N;
      storage_key : jsstring;
      public_url : option jsstring;
      original_source_url : option jsstring;
      position : N;
      ph_created_at : option jsstring;
      ph_updated_at : option jsstring
    }.

(** An object of the R2 bucket. *)
Record R2Object : Type :=
  mkObject { obj_body : list N; obj_contentType : jsstring }.

(** The response of [fetch(sourceUrl)] for a photo. *)
Record HttpResponse : Type :=
  mkResponse {
      res_status : N;
      res_content_type : option jsstring;
      res_body : list N
    }.

(** [res.ok]: the status is in the range 200-299. *)
Definition status_ok (status : N) : bool := (200 <=? status) && (status <=? 299).

(** The feed request, by the two parameters that vary: [limit] and
    [after]. *)
Record FeedRequest : Type :=
  mkFeedRequest { req_limit : jsnumber; req_after : option jsstring }.

(** The decoded JSON body of a feed page: [json.data] and
    [json.paging?.cursors?.after]. *)
Record FeedJson : Type :=
  mkFeedJson {
      json_data : option (list FacebookPost);
      json_after : option jsstring
    }.

(** The HTTP response of the feed API: status, raw text, and the JSON
    value the text decodes to ([None] when [res.json()] rejects). *)
Record FeedResponse : Type :=
  mkFeedResponse {
      feed_status : N;
      feed_text : jsstring;
      feed_json : option FeedJson
    }.

(** The page-profile JSON read by [fetchAuthorProfile]. *)
Inductive Hometown : Type :=
| HometownString (s : jsstring)
| HometownObject (name : option jsstring)
| HometownMissing.

Record ProfileJson : Type :=
  mkProfileJson {
      pj_name : option jsstring;
      pj_picture_url : option jsstring;
      pj_hometown : Hometown;
      pj_location_name : option jsstring
    }.

Record ProfileResponse : Type :=
  mkProfileResponse {
      prof_status : N;
      prof_text : jsstring;
      prof_json : option ProfileJson
    }.

(** Everything outside the worker's control, as a function of a logical
    time.  A [None] from a fetch is a rejected promise (network error). *)
Record Oracle : Type :=
  mkOracle {
      photo_fetch : nat -> jsstring -> option HttpResponse;
      feed_fetch : nat -> FeedRequest -> option FeedResponse;
      profile_fetch : nat -> option ProfileResponse;
      random_uuid : nat -> jsstring;
      iso_now : nat -> jsstring;       (* new Date().toISOString() *)
      sql_now : nat -> jsstring;       (* SQLite's datetime('now') *)
      r2_put_ok : nat -> bool;         (* does this bucket put succeed *)
      r2_delete_ok : nat -> bool       (* does this bucket delete succeed *)
    }.

(** A follow-up invocation handed to [ctx.waitUntil]. *)
Record ChainedCall : Type :=
  mkChained { chain_cursor : jsstring; chain_token : option jsstring }.

(** The state the worker acts on.  [events_seq] and [photos_seq] are the
    AUTOINCREMENT counters: the largest rowid ever handed out. *)
Record World : Type :=
  mkWorld {
      events : list EventRecord;
      event_photos : list EventPhotoRecord;
      events_seq : N;
      photos_seq : N;
      bucket : gmap jsstring R2Object;
      feed_log : list (FeedRequest * option FeedResponse);
      chained : list ChainedCall;
      now : nat
    }.

Definition tick (w : World) : World :=
  {| events := events w; event_photos := event_photos w;
     events_seq := events_seq w; photos_seq := photos_seq w;
     bucket := bucket w; feed_log := feed_log w;
     chained := chained w; now := S (now w) |}.

Definition with_events (w : World) (es : list EventRecord) (seq : N) : World :=
  {| events := es; event_photos := event_photos w;
     events_seq := seq; photos_seq := photos_seq w;
     bucket := bucket w; feed_log := feed_log w;
     chained := chained w; now := now w |}.

Definition with_photos (w : World) (ps : list EventPhotoRecord) (seq : N) : World :=
  {| events := events w; event_photos := ps;
     events_seq := events_seq w; photos_seq := seq;
     bucket := bucket w; feed_log := feed_log w;
     chained := chained w; now := now w |}.

Definition with_bucket (w : World) (b : gmap jsstring R2Object) : World :=
  {| events := events w; event_photos := event_photos w;
     events_seq := events_seq w; photos_seq := photos_seq w;
     bucket := b; feed_log := feed_log w;
     chained := chained w; now := now w |}.

(** Record one call of the feed API and what came back. *)
Definition log_feed_call (w : World) (r : FeedRequest)
           (res : option FeedResponse) : World :=
  {| events := events w; event_photos := event_photos w;
     events_seq := events_seq w; photos_seq := photos_seq w;
     bucket := bucket w; feed_log := feed_log w ++ [(r, res)];
     chained := chained w; now := now w |}.

Definition schedule (w : World) (c : ChainedCall) : World :=
  {| events := events w; event_photos := event_photos w;
     events_seq := events_seq w; photos_seq := photos_seq w;
     bucket := bucket w; feed_log := feed_log w;
     chained := chained w ++ [c]; now := now w |}.

(** *** Statements against D1 *)
Module D1.

(** [SELECT id FROM events WHERE external_id = ? AND origin = 'facebook']
    with [.first()]: the first matching row, here in rowid order.  The
    query has no [ORDER BY]; with several matching rows the database may
    return another of them first. *)
Definition select_facebook_event (w : World) (ext : jsstring)
  : option EventRecord :=
  List.find (fun e => str_is (external_id e) ext
                      && jseqb (origin e) (js "facebook")) (events w).

(** [UPDATE events SET ... WHERE id = ?] of [upsertFacebookPost]. *)
Definition update_event (w : World) (id : N)
           (date type_ l1 l2 desc name photo : option jsstring)
           (stamp : jsstring) : World :=
  with_events w
    (map (fun e =>
            if ev_id e =? id then
              {| ev_id := ev_id e;
                 external_id := external_id e;
                 external_source := external_source e;
                 event_date := date; event_type := type_;
                 event_name_line_1 := l1; event_name_line_2 := l2;
                 event_description := desc;
                 posted_by_name := name; posted_by_photo := photo;
                 date_added := date_added e;
                 active := active e; approved := approved e;
                 origin := origin e; sync := 1;
                 ev_created_at := ev_created_at e;
                 ev_updated_at := Some stamp |}
            else e) (events w))
    (events_seq w).

(** [INSERT INTO events ...]: the new row and [meta.last_row_id]. *)
Definition insert_event (w : World) (mk : N -> EventRecord) : World * N :=
  let id := events_seq w + 1 in
  (with_events w (events w ++ [mk id]) id, id).

(** [SELECT * FROM event_photos WHERE event_id = ?], here in rowid
    order (the query has no [ORDER BY]). *)
Definition select_photos (w : World) (eid : N) : list EventPhotoRecord :=
  List.filter (fun p => event_id p =? eid) (event_photos w).

(** [UPDATE event_photos SET position = ?, updated_at = ? WHERE id = ?] *)
Definition update_photo_position (w : World) (id pos : N) (stamp : jsstring)
  : World :=
  with_photos w
    (map (fun p =>
            if ph_id p =? id then
              {| ph_id := ph_id p; event_id := event_id p;
                 storage_key := storage_key p; public_url := public_url p;
                 original_source_url := original_source_url p;
                 position := pos;
                 ph_created_at := ph_created_at p;
                 ph_updated_at := Some stamp |}
            else p) (event_photos w))
    (photos_seq w).

(** [INSERT INTO event_photos (event_id, storage_key, public_url,
    original_source_url, position)]; the timestamps take their column
    default.  The table's [FOREIGN KEY (event_id)] refuses a row for an
    event that is not stored; the insert is modelled for a stored event,
    which is what the worker has found or inserted before it stores a
    photo. *)
Definition insert_photo (w : World) (eid : N) (key : jsstring)
           (purl src : jsstring) (pos : N) (stamp : jsstring) : World :=
  let id := photos_seq w + 1 in
  with_photos w
    (event_photos w ++
       [{| ph_id := id; event_id := eid; storage_key := key;
           public_url := Some purl; original_source_url := Some src;
           position := pos;
           ph_created_at := Some stamp; ph_updated_at := Some stamp |}])
    id.

(** [DELETE FROM event_photos WHERE id = ?] *)
Definition delete_photo (w : World) (id : N) : World :=
  with_photos w
    (List.filter (fun p => negb (ph_id p =? id)) (event_photos w))
    (photos_seq w).

Definition mem (id : N) (ids : list N) : bool := existsb (N.eqb id) ids.

(** [DELETE FROM event_photos WHERE id IN (...)] *)
Definition delete_photos_in (w : World) (ids : list N) : World :=
  with_photos w
    (List.filter (fun p => negb (mem (ph_id p) ids)) (event_photos w))
    (photos_seq w).

(** [DELETE FROM events WHERE id IN (...)]; the photos of a deleted event
    go with it ([ON DELETE CASCADE]). *)
Definition delete_events_in (w : World) (ids : list N) : World :=
  let deleted e := mem (ev_id e) ids in
  let gone := map ev_id (List.filter deleted (events w)) in
  with_photos
    (with_events w (List.filter (fun e => negb (deleted e)) (events w))
                 (events_seq w))
    (List.filter (fun p => negb (mem (event_id p) gone)) (event_photos w))
    (photos_seq w).

(** [SELECT storage_key FROM event_photos WHERE event_id IN (...)] *)
Definition select_keys_of_events (w : World) (ids : list N) : list jsstring :=
  map storage_key
      (List.filter (fun p => mem (event_id p) ids) (event_photos w)).

End D1.

(** How a call ends: it returns a value or throws an [Error] with a
    message. *)
Inductive outcome (A : Type) : Type :=
| Threw (message : jsstring)
| Returned (a : A).
Arguments Threw {A} message.
Arguments Returned {A} a.

(** The worker's configuration and surroundings. *)
Record Env : Type :=
  mkEnv { PUBLIC_BASE_URL : option jsstring; outside : Oracle }.

(* ===================================================================== *)
(** ** Reconciliation engine *)
(* ===================================================================== *)

Definition guessExtension (contentType : jsstring) : jsstring :=
  if includes contentType (js "png") then js "png"
  else if includes contentType (js "webp") then js "webp"
  else if includes contentType (js "gif") then js "gif"
  else js "jpg".

Definition buildPublicPhotoUrl (env : Env) (storageKey : jsstring) : jsstring :=
  let base := Regex.strip_trailing_slash <$> PUBLIC_BASE_URL env in
  match base with
  | Some b =>
      if truthy b then b ++ js "/photos/" ++ storageKey
      else js "/photos/" ++ storageKey
  | None => js "/photos/" ++ storageKey
  end.

(** Download one photo, store it under a fresh key and insert its row. *)
Definition persistPhotoFromUrl (env : Env) (w : World)
           (eventId : N) (sourceUrl : jsstring) (pos : N)
  : World * outcome unit :=
  let o := outside env in
  match photo_fetch o (now w) sourceUrl with
  | None => (tick w, Threw (js "fetch failed"))
  | Some res =>
      let w := tick w in
      if negb (status_ok (res_status res)) then
        (w, Threw (js "photo fetch failed " ++ dec (res_status res)))
      else
        let contentType := jsor_str (res_content_type res) (js "image/jpeg") in
        let extension := guessExtension contentType in
        let uuid := random_uuid o (now w) in
        let w := tick w in
        let storageKey :=
          js "events/" ++ dec eventId ++ js "/" ++ uuid ++ js "." ++ extension in
        if r2_put_ok o (now w) then
          let w :=
            tick (with_bucket w
                    (<[storageKey :=
                         {| obj_body := res_body res;
                            obj_contentType := contentType |}]> (bucket w))) in
          let publicUrl := buildPublicPhotoUrl env storageKey in
          let stamp := sql_now o (now w) in
          (D1.insert_photo (tick w) eventId storageKey publicUrl sourceUrl
                           pos stamp,
           Returned tt)
        else (tick w, Threw (js "R2 put failed"))
  end.

Record UpsertResult : Type :=
  mkUpsertResult { processed : bool; inserted : bool; updated : bool }.

(** The state of one photo pass: the world, the running [position] and
    [seenSources]. *)
Record PhotoPass : Type :=
  mkPass {
      pass_world : World;
      pass_position : N;
      seenSources : gset jsstring
    }.

Section Reconcile.
Context {api : URLApi}.
Variable env : Env.

(** [existingBySource]: later rows replace earlier ones under the same
    normalized source URL. *)
Definition index_photo (m : gmap jsstring EventPhotoRecord)
           (p : EventPhotoRecord) : gmap jsstring EventPhotoRecord :=
  match original_source_url p with
  | Some src => if truthy src then <[normalizeSourceUrl src := p]> m else m
  | None => m
  end.

Definition index_by_source (rows : list EventPhotoRecord)
  : gmap jsstring EventPhotoRecord :=
  fold_left index_photo rows ∅.

(** One turn of the loop over [photoUrls]. *)
Definition photo_step (eventId : N)
           (existingBySource : gmap jsstring EventPhotoRecord)
           (st : PhotoPass) (url : jsstring) : PhotoPass :=
  if negb (truthy url) then st
  else
    let normalized := normalizeSourceUrl url in
    let seen := {[normalized]} ∪ seenSources st in
    let w := pass_world st in
    match existingBySource !! normalized with
    | Some existingPhoto =>
        let stamp := iso_now (outside env) (now w) in
        {| pass_world :=
             D1.update_photo_position (tick w) (ph_id existingPhoto)
                                      (pass_position st) stamp;
           pass_position := pass_position st + 1;
           seenSources := seen |}
    | None =>
        (* a failure is logged and the loop goes on *)
        {| pass_world :=
             fst (persistPhotoFromUrl env w eventId url (pass_position st));
           pass_position := pass_position st + 1;
           seenSources := seen |}
    end.

(** Remove a row whose source URL was not seen in this pass. *)
Definition remove_orphan (seen : gset jsstring) (w : World)
           (p : EventPhotoRecord) : World :=
  match original_source_url p with
  | Some src =>
      if truthy src && negb (bool_decide (normalizeSourceUrl src ∈ seen))
      then D1.delete_photo w (ph_id p)
      else w
  | None => w
  end.

Definition remove_orphans (seen : gset jsstring)
           (existingPhotos : list EventPhotoRecord) (w : World) : World :=
  fold_left (remove_orphan seen) existingPhotos w.

(** The photo URLs of a post: the attachment tree, else the top-level
    picture. *)
Definition post_photo_urls (post : FacebookPost) : list jsstring :=
  let photoUrls := extractPhotoUrls (post_attachments post) in
  match photoUrls, post_full_picture post with
  | [], Some pic => if truthy pic then [pic] else []
  | _, _ => photoUrls
  end.

Definition refresh_photos (w : World) (eventId : N) (post : FacebookPost)
  : World :=
  let existingPhotos := D1.select_photos w eventId in
  let existingBySource := index_by_source existingPhotos in
  let st :=
    fold_left (photo_step eventId existingBySource)
              (post_photo_urls post)
              {| pass_world := w; pass_position := 0; seenSources := ∅ |} in
  remove_orphans (seenSources st) existingPhotos (pass_world st).

Definition upsertFacebookPost (w : World) (post : FacebookPost)
           (authorProfile : option AuthorProfile) (isLifeEvent : bool)
  : World * UpsertResult :=
  match post_id post with
  | None => (w, mkUpsertResult false false false)
  | Some [] => (w, mkUpsertResult false false false)
  | Some ((_ :: _) as pid) =>
      let rawMessage := trim (jsor_str (post_message post) []) in
      let mainAttachment := getPrimaryAttachment (post_attachments post) in
      let structured :=
        parseStructuredMessage
          rawMessage
          (jsor_str (jsor (post_backdated_time post) (post_created_time post)) [])
          (post_attachments post) mainAttachment (post_place_name post) in
      let fullText :=
        jsor_str
          (jsor (description structured)
             (jsor (Some rawMessage)
                (jsor (extractAttachmentText (post_attachments post))
                      (Some (trim (jsor_str (post_story post) []))))))
          [] in
      let split := splitMessage fullText in
      let l1 := jsor_str (title structured) (line1 split) in
      let l2 := line2 split in
      let authorName :=
        jsor (post_from_name post)
             (jsor (authorProfile ≫= profile_name) None) in
      let authorPhoto := jsor (authorProfile ≫= profile_photo) None in
      let existing := D1.select_facebook_event w pid in
      let stamp := iso_now (outside env) (now w) in
      let w := tick w in
      let date :=
        jsor_str (jsor (eventDate structured) (post_created_time post)) stamp in
      let type_ :=
        jsor_str (jsor (eventType structured) (post_status_type post))
                 (if isLifeEvent then js "life_event" else js "memory") in
      (* [existing?.id]: a row was found and its id is not 0 *)
      let existing_id :=
        match existing with
        | Some row => if ev_id row =? 0 then None else Some (ev_id row)
        | None => None
        end in
      let '(w, eventId, flags) :=
        match existing_id with
        | Some id =>
            (D1.update_event w id (Some date) (Some type_)
                             (Some l1) l2 (or_null fullText)
                             authorName authorPhoto stamp,
             id, mkUpsertResult true false true)
        | None =>
            let '(w', id) :=
              D1.insert_event w
                (fun id =>
                   mkEvent id (Some pid) (Some (js "facebook_post"))
                           (Some date) (Some type_) (Some l1) l2
                           (or_null fullText) authorName authorPhoto
                           (Some stamp) 1 0 (js "facebook") 1
                           (Some stamp) (Some stamp)) in
            (w', id, mkUpsertResult true true false)
        end in
      (refresh_photos w eventId post, flags)
  end.
End Reconcile.

(* ===================================================================== *)
(** ** Feed client *)
(* ===================================================================== *)

Record FeedOpts : Type :=
  mkFeedOpts { fo_limit : option jsnumber; fo_cursor : option jsstring }.

Record FeedPage : Type :=
  mkFeedPage { posts : list FacebookPost; page_nextCursor : option jsstring }.

(** The request a page fetch sends: the limit is
    [opts?.limit && opts.limit > 0 ? Math.min(opts.limit, 100) : 25]. *)
Definition feed_request (opts : FeedOpts) : FeedRequest :=
  let limit :=
    match fo_limit opts with
    | Some l =>
        if num_truthy l && num_lt (of_Z 0) l then num_min l (of_Z 100)
        else of_Z 25
    | None => of_Z 25
    end in
  {| req_limit := limit; req_after := jsor (fo_cursor opts) None |}.

Definition feed_error_message (res : FeedResponse) : jsstring :=
  js "Facebook API error " ++ dec (feed_status res) ++ js ": " ++ feed_text res.

Definition fetchFacebookFeed (env : Env) (w : World) (opts : FeedOpts)
  : World * outcome FeedPage :=
  let request := feed_request opts in
  let res := feed_fetch (outside env) (now w) request in
  let w := tick (log_feed_call w request res) in
  match res with
  | None => (w, Threw (js "fetch failed"))
  | Some res =>
      if negb (status_ok (feed_status res)) then
        (w, Threw (feed_error_message res))
      else
        match feed_json res with
        | None => (w, Threw (js "invalid JSON"))
        | Some json =>
            (w, Returned {| posts := default [] (json_data json);
                            page_nextCursor := json_after json |})
        end
  end.

Definition fetchAuthorProfile (env : Env) (w : World)
  : World * outcome AuthorProfile :=
  let res := profile_fetch (outside env) (now w) in
  let w := tick w in
  match res with
  | None => (w, Threw (js "fetch failed"))
  | Some res =>
      if negb (status_ok (prof_status res)) then
        (w, Threw (js "Facebook API (page profile) " ++ dec (prof_status res)
                      ++ js ": " ++ prof_text res))
      else
        match prof_json res with
        | None => (w, Threw (js "invalid JSON"))
        | Some json =>
            let hometown :=
              match pj_hometown json with
              | HometownString s => Some s
              | HometownObject name =>
                  jsor name (jsor (pj_location_name json) None)
              | HometownMissing => jsor (pj_location_name json) None
              end in
            (w, Returned {| profile_name := jsor (pj_name json) None;
                            profile_photo := jsor (pj_picture_url json) None;
                            profile_location := hometown |})
        end
  end.

(* ===================================================================== *)
(** ** Batch controller *)
(* ===================================================================== *)

Record SyncOpts : Type :=
  mkSyncOpts {
      so_limit : option jsnumber;
      so_maxTotal : option jsnumber;
      so_cursor : option jsstring;
      so_shouldChain : bool
    }.

Record SyncSummary : Type :=
  mkSummary {
      eventsProcessed : Z;
      sum_inserted : Z;
      sum_updated : Z;
      nextCursor : option jsstring;
      hasMore : bool
    }.

(** The variables of the fetch loop. *)
Record LoopState : Type :=
  mkLoop {
      lp_world : World;
      lp_cursor : option jsstring;
      lp_processed : Z;
      lp_lastCursor : option jsstring;
      lp_inserted : Z;
      lp_updated : Z
    }.

(** The page-iteration ceiling of the fetch loop. *)
Definition PAGE_CEILING : nat := 20.

Section Batch.
Context {api : URLApi}.
Variable env : Env.

(** [opts?.limit || 25] *)
Definition batch_limit (opts : SyncOpts) : jsnumber :=
  match so_limit opts with
  | Some l => if num_truthy l then l else of_Z 25
  | None => of_Z 25
  end.

(** [opts?.maxTotal && opts.maxTotal > 0 ? opts.maxTotal : 10] *)
Definition batch_target (opts : SyncOpts) : jsnumber :=
  match so_maxTotal opts with
  | Some m => if num_truthy m && num_lt (of_Z 0) m then m else of_Z 10
  | None => of_Z 10
  end.

Definition has_text (post : FacebookPost) : bool :=
  otruthy (post_message post) || otruthy (post_story post).

(** The loop over the posts of one page. *)
Fixpoint process_posts (authorProfile : option AuthorProfile)
         (maxTotal : jsnumber)
         (page : list FacebookPost) (st : LoopState) : LoopState :=
  match page with
  | [] => st
  | post :: page' =>
      if negb (has_text post) then
        process_posts authorProfile maxTotal page' st
      else if num_le maxTotal (of_Z (lp_processed st)) then st
      else
        let isLifeEvent :=
          hasLifeEventAttachment post
          || str_is (post_status_type post) (js "life_event") in
        let '(w, result) :=
          upsertFacebookPost env (lp_world st) post authorProfile isLifeEvent in
        let st' :=
          if processed result then
            {| lp_world := w; lp_cursor := lp_cursor st;
               lp_processed := lp_processed st + 1;
               lp_lastCursor := lp_lastCursor st;
               lp_inserted :=
                 if inserted result then lp_inserted st + 1 else lp_inserted st;
               lp_updated :=
                 if updated result then lp_updated st + 1 else lp_updated st |}
          else
            {| lp_world := w; lp_cursor := lp_cursor st;
               lp_processed := lp_processed st;
               lp_lastCursor := lp_lastCursor st;
               lp_inserted := lp_inserted st; lp_updated := lp_updated st |} in
        process_posts authorProfile maxTotal page' st'
  end.

(** The [while] loop.  [remaining] is [20 - iterations]: the loop
    condition [iterations < 20] fails exactly when it is 0. *)
Fixpoint fetch_loop (authorProfile : option AuthorProfile)
         (limit maxTotal : jsnumber) (remaining : nat) (st : LoopState)
  : outcome LoopState * World :=
  match remaining with
  | O => (Returned st, lp_world st)
  | S remaining' =>
      if num_lt (of_Z (lp_processed st)) maxTotal then
        let '(w, page) :=
          fetchFacebookFeed env (lp_world st)
            {| fo_limit := Some limit; fo_cursor := lp_cursor st |} in
        match page with
        | Threw message => (Threw message, w)
        | Returned page =>
            let st :=
              {| lp_world := w; lp_cursor := lp_cursor st;
                 lp_processed := lp_processed st;
                 lp_lastCursor := lp_lastCursor st;
                 lp_inserted := lp_inserted st;
                 lp_updated := lp_updated st |} in
            match posts page with
            | [] => (Returned st, w)
            | _ :: _ =>
                let st := process_posts authorProfile maxTotal (posts page) st in
                let nextCursor := page_nextCursor page in
                let st :=
                  {| lp_world := lp_world st; lp_cursor := lp_cursor st;
                     lp_processed := lp_processed st;
                     lp_lastCursor :=
                       if otruthy nextCursor then nextCursor
                       else lp_lastCursor st;
                     lp_inserted := lp_inserted st;
                     lp_updated := lp_updated st |} in
                if num_le maxTotal (of_Z (lp_processed st))
                   || negb (otruthy nextCursor)
                then (Returned st, lp_world st)
                else
                  fetch_loop authorProfile limit maxTotal remaining'
                    {| lp_world := lp_world st; lp_cursor := nextCursor;
                       lp_processed := lp_processed st;
                       lp_lastCursor := lp_lastCursor st;
                       lp_inserted := lp_inserted st;
                       lp_updated := lp_updated st |}
            end
        end
      else (Returned st, lp_world st)
  end.

(** [requestToken] is the [token] parameter of the request URL, which a
    chained call carries on. *)
Definition syncFromFacebookToD1 (w : World) (requestToken : option jsstring)
           (opts : SyncOpts) : World * outcome SyncSummary :=
  let '(w, profile) := fetchAuthorProfile env w in
  let authorProfile :=
    match profile with
    | Returned p => Some p
    | Threw _ => None
    end in
  let limit := batch_limit opts in
  let maxTotal := batch_target opts in
  let '(fin, w) :=
    fetch_loop authorProfile limit maxTotal PAGE_CEILING
      {| lp_world := w; lp_cursor := so_cursor opts;
         lp_processed := 0; lp_lastCursor := None;
         lp_inserted := 0; lp_updated := 0 |} in
  match fin with
  | Threw message => (w, Threw message)
  | Returned st =>
      let lastCursor := lp_lastCursor st in
      let more :=
        num_le maxTotal (of_Z (lp_processed st)) && otruthy lastCursor in
      let summary :=
        {| eventsProcessed := lp_processed st;
           sum_inserted := lp_inserted st;
           sum_updated := lp_updated st;
           nextCursor := lastCursor;
           hasMore := more |} in
      match lastCursor with
      | Some c =>
          if more && so_shouldChain opts then
            (schedule w {| chain_cursor := c; chain_token := requestToken |},
             Returned summary)
          else (w, Returned summary)
      | None => (w, Returned summary)
      end
  end.
End Batch.

(* ===================================================================== *)
(** ** Duplicate janitor *)
(* ===================================================================== *)

(** A JavaScript [Map] with its insertion order: setting an existing key
    replaces the value in place, a new key goes to the end. *)
Module OrderedMap.
Section OrderedMap.
Context {K V : Type}.
Variable eqb : K -> K -> bool.

Fixpoint get (k : K) (m : list (K * V)) : option V :=
  match m with
  | [] => None
  | (k', v) :: m' => if eqb k k' then Some v else get k m'
  end.

Fixpoint set (k : K) (v : V) (m : list (K * V)) : list (K * V) :=
  match m with
  | [] => [(k, v)]
  | (k', v') :: m' =>
      if eqb k k' then (k', v) :: m' else (k', v') :: set k v m'
  end.
End OrderedMap.
End OrderedMap.

Record Removed : Type :=
  mkRemoved { eventsRemoved : Z; photosRemoved : Z }.

(** [ROW_NUMBER() OVER (PARTITION BY key ORDER BY id)] of row [r] among
    [rows]: one more than the number of rows of its partition with a
    smaller id. *)
Definition row_number {K : Type} (same : K -> K -> bool)
           (key : EventRecord -> K) (rows : list EventRecord)
           (r : EventRecord) : nat :=
  S (length (List.filter
               (fun r' => same (key r') (key r) && (ev_id r' <? ev_id r))
               rows)).

(** [SELECT id FROM ranked WHERE rn > 1] over the rows that pass the
    [WHERE] clause [sel]. *)
Definition ranked_duplicates {K : Type} (same : K -> K -> bool)
           (key : EventRecord -> K) (sel : EventRecord -> bool)
           (table : list EventRecord) : list N :=
  let rows := List.filter sel table in
  map ev_id
      (List.filter (fun r => (1 <? row_number same key rows r)%nat) rows).

Definition is_not_null (x : option jsstring) : bool :=
  match x with Some _ => true | None => false end.

(** SQL equality of two non-null text values. *)
Definition same_text (a b : option jsstring) : bool :=
  match a, b with
  | Some x, Some y => jseqb x y
  | _, _ => false
  end.

Fixpoint insert_by_id (p : EventPhotoRecord) (sorted : list EventPhotoRecord)
  : list EventPhotoRecord :=
  match sorted with
  | [] => [p]
  | q :: sorted' =>
      if ph_id q <=? ph_id p then q :: insert_by_id p sorted'
      else p :: sorted
  end.

(** [arr.sort((a, b) => a.id - b.id)] *)
Definition sort_by_id (arr : list EventPhotoRecord) : list EventPhotoRecord :=
  fold_left (fun acc p => insert_by_id p acc) arr [].

Section Janitor.
Context {api : URLApi}.
Variable env : Env.

(** [await bucket.delete(key).catch(() => {})] *)
Definition r2_delete_quietly (w : World) (key : jsstring) : World :=
  if r2_delete_ok (outside env) (now w)
  then tick (with_bucket w (delete key (bucket w)))
  else tick w.

Definition delete_blob (w : World) (key : jsstring) : World :=
  if truthy key then r2_delete_quietly w key else w.

Definition delete_blobs (w : World) (keys : list jsstring) : World :=
  fold_left delete_blob keys w.

(** One "duplicate events" pass: remove the given events, their photos
    and the photos' blobs. *)
Definition remove_events (w : World) (ids : list N) : World * Z :=
  match ids with
  | [] => (w, 0%Z)
  | _ :: _ =>
      let photoRows := D1.select_keys_of_events w ids in
      let w := delete_blobs w photoRows in
      (D1.delete_events_in w ids, Z.of_nat (length ids))
  end.

(** [grouped]: event id, then normalized source URL, to the photos that
    share both. *)
Definition group_photos (allPhotos : list EventPhotoRecord)
  : list (N * list (jsstring * list EventPhotoRecord)) :=
  fold_left
    (fun grouped p =>
       match original_source_url p with
       | Some src =>
           if truthy src then
             let norm := normalizeSourceUrl src in
             let byEvent :=
               default [] (OrderedMap.get N.eqb (event_id p) grouped) in
             let arr := default [] (OrderedMap.get jseqb norm byEvent) in
             OrderedMap.set N.eqb (event_id p)
               (OrderedMap.set jseqb norm (arr ++ [p]) byEvent) grouped
           else grouped
       | None => grouped
       end)
    allPhotos [].

Definition duplicate_photos (allPhotos : list EventPhotoRecord)
  : list EventPhotoRecord :=
  flat_map
    (fun '(_, byNorm) =>
       flat_map
         (fun '(_, arr) =>
            if (1 <? length arr)%nat then tl (sort_by_id arr) else [])
         byNorm)
    (group_photos allPhotos).

Definition cleanDuplicates (w : World) : World * Removed :=
  (* duplicate events by external_source/external_id *)
  let dupEvents :=
    ranked_duplicates
      (fun a b => same_text (fst a) (fst b) && same_text (snd a) (snd b))
      (fun e => (external_source e, external_id e))
      (fun e => is_not_null (external_source e) && is_not_null (external_id e))
      (events w) in
  let '(w, n1) := remove_events w dupEvents in
  (* duplicate events by external_id alone, Facebook origin only *)
  let dupByExternalId :=
    ranked_duplicates same_text external_id
      (fun e => is_not_null (external_id e)
                && jseqb (origin e) (js "facebook"))
      (events w) in
  let '(w, n2) := remove_events w dupByExternalId in
  (* duplicate photos per event by normalized source URL *)
  let toDelete := duplicate_photos (event_photos w) in
  match toDelete with
  | [] =>
      (w, {| eventsRemoved := n1 + n2; photosRemoved := 0 |})
  | _ :: _ =>
      let ids := map ph_id toDelete in
      let w := delete_blobs w (map storage_key toDelete) in
      (D1.delete_photos_in w ids,
       {| eventsRemoved := n1 + n2;
          photosRemoved := Z.of_nat (length ids) |})
  end.
End Janitor.

(* ===================================================================== *)
(** ** Push to the CMS *)
(* ===================================================================== *)

Definition DASH : N := 45.

(** The class [[a-z0-9]]. *)
Definition slug_alnum (c : N) : bool :=
  ((97 <=? c) && (c <=? 122)) || ((48 <=? c) && (c <=? 57)).

(** [toLowerCase] on one code unit, as far as [slugify] can tell: the
    characters that lowercase into [a-z] are A-Z, U+0130 (to [i] and a
    combining dot) and the Kelvin sign U+212A (to [k]); every other
    character lowercases to one outside [a-z0-9] and is kept as it is. *)
Definition lower_unit (c : N) : jsstring :=
  if (65 <=? c) && (c <=? 90) then [c + 32]
  else if c =? 304 then [105; 775]
  else if c =? 8490 then [107]
  else [c].

Definition toLowerCase (s : jsstring) : jsstring := flat_map lower_unit s.

(** [s.replace(/[^a-z0-9]+/g, "-")]: every maximal run of other
    characters becomes one dash.  [in_run] tells that the run's dash was
    written already. *)
Fixpoint dash_runs (in_run : bool) (s : jsstring) : jsstring :=
  match s with
  | [] => []
  | c :: s' =>
      if slug_alnum c then c :: dash_runs false s'
      else if in_run then dash_runs true s'
      else DASH :: dash_runs true s'
  end.

(** The [^-+] half of [s.replace(/^-+|-+$/g, "")]. *)
Fixpoint strip_leading_dashes (s : jsstring) : jsstring :=
  match s with
  | c :: s' => if c =? DASH then strip_leading_dashes s' else s
  | [] => []
  end.

(** The [-+$] half. *)
Fixpoint strip_trailing_dashes (s : jsstring) : jsstring :=
  match s with
  | [] => []
  | c :: s' =>
      match strip_trailing_dashes s' with
      | [] => if c =? DASH then [] else [c]
      | t => c :: t
      end
  end.

Definition slugify (value : jsstring) : jsstring :=
  let cut :=
    firstn 80
      (strip_trailing_dashes
         (strip_leading_dashes (dash_runs false (toLowerCase value)))) in
  if truthy cut then cut else js "memory".

(** The field data sent to the CMS; [wf_active] and [wf_approved] are
    only present when an item is created. *)
Record WebflowFields : Type :=
  mkFields {
      wf_name : jsstring;
      wf_slug : jsstring;
      wf_date_added : option jsstring;
      wf_event_type : jsstring;
      wf_event_name_main : option jsstring;
      wf_event_name : option jsstring;
      wf_description : option jsstring;
      wf_posted_by_user_name : option jsstring;
      wf_posted_by_user_image : option jsstring;
      wf_permalink : option jsstring;
      wf_photo_1 : option jsstring;
      wf_photo_2 : option jsstring;
      wf_date : option jsstring;
      wf_origin : jsstring;
      wf_event_number : N;
      wf_even_number : bool;
      wf_active : option bool;
      wf_approved : option bool
    }.

Definition mapEventToWebflowFields (event : EventRecord)
           (photos : list EventPhotoRecord) (isUpdate : bool) : WebflowFields :=
  let slugSource :=
    jsor_str (event_name_line_1 event) (js "memory-" ++ dec (ev_id event)) in
  let firstPhoto := nth_error photos 0 in
  let secondPhoto := nth_error photos 1 in
  {| wf_name := jsor_str (event_name_line_1 event) (js "Memory");
     wf_slug := slugify slugSource;
     wf_date_added := jsor (event_date event) (ev_created_at event);
     wf_event_type := jsor_str (event_type event) (js "memory");
     wf_event_name_main := jsor (event_name_line_1 event) None;
     wf_event_name := jsor (event_name_line_2 event) None;
     wf_description := jsor (event_description event) None;
     wf_posted_by_user_name := jsor (posted_by_name event) None;
     wf_posted_by_user_image := jsor (posted_by_photo event) None;
     wf_permalink :=
       if str_is (external_source event) (js "facebook_post")
       then external_id event else None;
     wf_photo_1 := jsor (firstPhoto ≫= public_url) None;
     wf_photo_2 := jsor (secondPhoto ≫= public_url) None;
     wf_date := ev_created_at event;
     wf_origin := origin event;
     wf_event_number := ev_id event;
     wf_even_number := (ev_id event) mod 2 =? 0;
     wf_active := if isUpdate then None else Some true;
     wf_approved := if isUpdate then None else Some true |}.

(** The request to the CMS: [PATCH .../items/<id>] when [wf_item] is
    present, [POST .../items] otherwise. *)
Record WebflowRequest : Type :=
  mkWebflowRequest { wf_item : option jsstring; wf_fieldData : WebflowFields }.

(** The CMS's answer: status, raw text and, when the text decodes as
    JSON, its [id] member. *)
Record WebflowResponse : Type :=
  mkWebflowResponse {
      wfr_status : N;
      wfr_text : jsstring;
      wfr_json_id : option (option jsstring)
    }.

(** The CMS as seen from the worker, by logical time. *)
Definition WebflowApi : Type := nat -> WebflowRequest -> option WebflowResponse.

(** [event.external_source === "webflow_item" && !!event.external_id] *)
Definition is_webflow_update (event : EventRecord) : bool :=
  str_is (external_source event) (js "webflow_item")
  && otruthy (external_id event).

Definition upsertWebflowItem (cms : WebflowApi) (w : World)
           (event : EventRecord) (photos : list EventPhotoRecord)
  : World * outcome (option jsstring) :=
  let isUpdate := is_webflow_update event in
  let fieldData := mapEventToWebflowFields event photos isUpdate in
  if negb (truthy (wf_name fieldData)) || negb (truthy (wf_slug fieldData)) then
    (w, Threw (js "Webflow fieldData missing required name/slug"))
  else
    let request :=
      {| wf_item := if isUpdate then external_id event else None;
         wf_fieldData := fieldData |} in
    let res := cms (now w) request in
    let w := tick w in
    match res with
    | None => (w, Threw (js "fetch failed"))
    | Some res =>
        if negb (status_ok (wfr_status res)) then
          (w, Threw (js "Webflow API " ++ dec (wfr_status res) ++ js ": "
                        ++ wfr_text res))
        else
          match wfr_json_id res with
          | None => (w, Threw (js "invalid JSON"))
          | Some id => (w, Returned (jsor id None))
          end
    end.

Fixpoint insert_by_position (p : EventPhotoRecord)
         (sorted : list EventPhotoRecord) : list EventPhotoRecord :=
  match sorted with
  | [] => [p]
  | q :: sorted' =>
      if position q <=? position p then q :: insert_by_position p sorted'
      else p :: sorted
  end.

(** [SELECT * FROM event_photos WHERE event_id = ? ORDER BY position ASC];
    rows with the same position stay in rowid order. *)
Definition select_photos_by_position (w : World) (eid : N)
  : list EventPhotoRecord :=
  fold_left (fun acc p => insert_by_position p acc) (D1.select_photos w eid) [].

(** [UPDATE events SET external_id = ?, external_source = ?, sync = 0,
    updated_at = ? WHERE id = ?] *)
Definition mark_pushed (w : World) (id : N) (ext : option jsstring)
           (stamp : jsstring) : World :=
  with_events w
    (map (fun e =>
            if ev_id e =? id then
              {| ev_id := ev_id e;
                 external_id := ext;
                 external_source := Some (js "webflow_item");
                 event_date := event_date e; event_type := event_type e;
                 event_name_line_1 := event_name_line_1 e;
                 event_name_line_2 := event_name_line_2 e;
                 event_description := event_description e;
                 posted_by_name := posted_by_name e;
                 posted_by_photo := posted_by_photo e;
                 date_added := date_added e;
                 active := active e; approved := approved e;
                 origin := origin e; sync := 0;
                 ev_created_at := ev_created_at e;
                 ev_updated_at := Some stamp |}
            else e) (events w))
    (events_seq w).

(** [SELECT * FROM events WHERE origin = 'facebook' AND sync = 1] *)
Definition pending_push (e : EventRecord) : bool :=
  jseqb (origin e) (js "facebook") && (sync e =? 1)%Z.

(** One turn of the loop of [syncFromD1ToWebflow]: push the event and, if
    that went through, record the item id and clear the sync flag. *)
Definition push_event (env : Env) (cms : WebflowApi)
           (st : World * Z) (event : EventRecord) : World * Z :=
  let '(w, synced) := st in
  let photos := select_photos_by_position w (ev_id event) in
  match upsertWebflowItem cms w event photos with
  | (w, Returned itemId) =>
      let stamp := iso_now (outside env) (now w) in
      (mark_pushed (tick w) (ev_id event)
                   (jsor itemId (external_id event)) stamp,
       (synced + 1)%Z)
  | (w, Threw _) => (w, synced)
  end.

(** [syncFromD1ToWebflow]: the world after the run and [eventsSynced]. *)
Definition syncFromD1ToWebflow (env : Env) (cms : WebflowApi) (w : World)
  : World * Z :=
  fold_left (push_event env cms) (List.filter pending_push (events w)) (w, 0%Z).

(* ===================================================================== *)
(** ** HTTP endpoints on the store *)
(* ===================================================================== *)

(** A JSON object sent to [POST /api/events], with the fields
    [createEvent] reads, each absent or of its declared type. *)
Record CreateBody : Type :=
  mkCreateBody {
      cb_external_id : option jsstring;
      cb_external_source : option jsstring;
      cb_event_date : option jsstring;
      cb_event_type : option jsstring;
      cb_event_name_line_1 : option jsstring;
      cb_event_name_line_2 : option jsstring;
      cb_event_description : option jsstring;
      cb_posted_by_name : option jsstring;
      cb_posted_by_photo : option jsstring;
      cb_active : option Z;
      cb_approved : option Z;
      cb_origin : option jsstring;
      cb_sync : option Z;
      cb_photos : option (list jsstring)
    }.

(** What [request.json().catch(() => ({}))] resolves to: the JSON value
    [null]; a JSON value without fields (a number, a string, a boolean or
    an array); or an object.  A body that is not JSON is read as the
    empty object. *)
Inductive RequestJson : Type :=
| JsonNull
| JsonPlain
| JsonObject (body : CreateBody).

(** The reply of [createEvent]: 400 with an error, or 200 with the id. *)
Inductive CreateReply : Type :=
| BadRequest (error : jsstring)
| Created (id : N).

(** The loop over [body.photos]: the position advances whether or not
    the photo could be stored. *)
Fixpoint store_photos (env : Env) (w : World) (eventId : N)
         (photos : list jsstring) (pos : N) : World :=
  match photos with
  | [] => w
  | src :: photos' =>
      store_photos env (fst (persistPhotoFromUrl env w eventId src pos))
                   eventId photos' (pos + 1)
  end.

(** [createEvent].  Reading a field of [null] throws a [TypeError]
    before anything is written; a value without fields has no
    [event_name_line_1]. *)
Definition createEvent (env : Env) (w : World) (json : RequestJson)
  : World * outcome CreateReply :=
  match json with
  | JsonNull =>
      (w, Threw (js "Cannot read properties of null (reading 'event_name_line_1')"))
  | JsonPlain => (w, Returned (BadRequest (js "event_name_line_1 is required")))
  | JsonObject body =>
  match jsor (cb_event_name_line_1 body) None with
  | None => (w, Returned (BadRequest (js "event_name_line_1 is required")))
  | Some headline =>
      let stamp := iso_now (outside env) (now w) in
      let w := tick w in
      let origin :=
        if str_is (cb_origin body) (js "facebook")
        then js "facebook" else js "webflow" in
      let '(w, eventId) :=
        D1.insert_event w
          (fun id =>
             mkEvent id
                     (jsor (cb_external_id body) None)
                     (jsor (cb_external_source body) None)
                     (Some (jsor_str (cb_event_date body) stamp))
                     (Some (jsor_str (cb_event_type body) (js "memory")))
                     (Some headline)
                     (jsor (cb_event_name_line_2 body) None)
                     (jsor (cb_event_description body) None)
                     (jsor (cb_posted_by_name body) None)
                     (jsor (cb_posted_by_photo body) None)
                     (Some stamp)
                     (default 1%Z (cb_active body))
                     (default 0%Z (cb_approved body))
                     origin
                     (default 1%Z (cb_sync body))
                     (Some stamp) (Some stamp)) in
      (store_photos env w eventId (default [] (cb_photos body)) 0,
       Returned (Created eventId))
  end
  end.

(** The reply of [servePhoto]. *)
Record PhotoReply : Type :=
  mkPhotoReply {
      pr_status : N;
      pr_content_type : option jsstring;
      pr_cache_control : option jsstring;
      pr_body : list N
    }.

Definition servePhoto (w : World) (storageKey : jsstring) : PhotoReply :=
  match bucket w !! storageKey with
  | None =>
      {| pr_status := 404; pr_content_type := None;
         pr_cache_control := None;
         pr_body := js "Not found" |}
  | Some obj =>
      {| pr_status := 200;
         pr_content_type :=
           Some (jsor_str (Some (obj_contentType obj)) (js "image/jpeg"));
         pr_cache_control := Some (js "public, max-age=31536000, immutable");
         pr_body := obj_body obj |}
  end.

(* ===================================================================== *)
(** ** A small instance of the [URL] interface *)
(* ===================================================================== *)

(** [PlainUrl] reads only plain absolute URLs,
    [https://host/path?query#fragment] over lowercase letters, digits and
    a few marks, with no dot segments; such a URL is its own
    serialization.  Every other string is refused, as [new URL] refuses a
    string that is not a URL. *)
Module PlainUrl.

Definition lower (c : N) : bool := (97 <=? c) && (c <=? 122).
Definition digit (c : N) : bool := (48 <=? c) && (c <=? 57).

(** Letters, digits and [/ . _ -]. *)
Definition path_char (c : N) : bool :=
  lower c || digit c || (c =? 47) || (c =? 46) || (c =? 95) || (c =? 45).

(** Letters, digits and [= & . _ -]. *)
Definition query_char (c : N) : bool :=
  lower c || digit c || (c =? 61) || (c =? 38) || (c =? 46) || (c =? 95)
  || (c =? 45).

Definition host_char (c : N) : bool := lower c || (c =? 46).

Fixpoint span_host (s : jsstring) : jsstring * jsstring :=
  match s with
  | [] => ([], [])
  | c :: s' =>
      if c =? 47 then ([], s)
      else let '(h, p) := span_host s' in (c :: h, p)
  end.

Definition valid_host (h : jsstring) : bool :=
  truthy h && forallb host_char h
  && negb (startsWith [46] h) && negb (startsWith [46] (rev h))
  && negb (includes h [46; 46]).

Definition valid_path (p : jsstring) : bool :=
  startsWith [47] p && forallb path_char p && negb (includes p [47; 46]).

Definition valid_base (b : jsstring) : bool :=
  startsWith (js "https://") b
  && forallb path_char (skipn 8 b)
  && let '(h, p) := span_host (skipn 8 b) in valid_host h && valid_path p.

Record raw : Type :=
  mkRaw { base : jsstring; query : option jsstring; fragment : option jsstring }.

Definition valid (r : raw) : bool :=
  valid_base (base r)
  && forallb query_char (default [] (query r))
  && forallb query_char (default [] (fragment r)).

Definition url : Type := { r : raw | Is_true (valid r) }.

(** Cut a string at the first occurrence of [c]. *)
Fixpoint cut (c : N) (s : jsstring) : jsstring * option jsstring :=
  match s with
  | [] => ([], None)
  | x :: s' =>
      if x =? c then ([], Some s')
      else let '(a, b) := cut c s' in (x :: a, b)
  end.

Definition check (r : raw) : option url :=
  match decide (Is_true (valid r)) with
  | left ok => Some (exist _ r ok)
  | right _ => None
  end.

Definition parse (s : jsstring) : option url :=
  let '(front, frag) := cut 35 s in
  let '(b, q) := cut 63 front in
  check {| base := b; query := q; fragment := frag |}.

Definition href (u : url) : jsstring :=
  let r := proj1_sig u in
  base r
  ++ match query r with Some q => 63 :: q | None => [] end
  ++ match fragment r with Some f => 35 :: f | None => [] end.

Definition clear_search (u : url) : url :=
  let r := proj1_sig u in
  default u (check {| base := base r; query := None; fragment := fragment r |}).

Definition clear_hash (u : url) : url :=
  let r := proj1_sig u in
  default u (check {| base := base r; query := query r; fragment := None |}).

#[export] Instance plain_url : URLApi :=
  {| URL := url;
     url_parse := parse;
     url_clear_search := clear_search;
     url_clear_hash := clear_hash;
     url_href := href |}.

End PlainUrl.

(* ===================================================================== *)
(** ** Conditions and observations used in the statements *)
(* ===================================================================== *)

(** The download of [url] at time [t] answers with a success status. *)
Definition fetched_ok (env : Env) (t : nat) (url : jsstring) : bool :=
  match photo_fetch (outside env) t url with
  | Some res => status_ok (res_status res)
  | None => false
  end.

(** The surroundings do not change while the worker runs: a URL either
    downloads every time or never, and the bucket either takes every
    write or none. *)
Definition steady_io (env : Env) : Prop :=
  (forall t t' url, fetched_ok env t url = fetched_ok env t' url)
  /\ forall t t', r2_put_ok (outside env) t = r2_put_ok (outside env) t'.

(** The photo behind [url] can be downloaded and stored. *)
Definition storable (env : Env) (url : jsstring) : bool :=
  fetched_ok env 0 url && r2_put_ok (outside env) 0.

(** Every photo belongs to an event id that was already handed out (the
    foreign key of [event_photos], with AUTOINCREMENT never reusing an
    id). *)
Definition store_ok (w : World) : Prop :=
  Forall (fun p => event_id p <= events_seq w) (event_photos w).

(** A photo row created for one of [urls] under event [eid]. *)
Definition row_of (eid : N) (urls : list jsstring) (p : EventPhotoRecord)
  : Prop :=
  event_id p = eid
  /\ exists u, original_source_url p = Some u /\ truthy u = true /\ In u urls.





(** The text [Hello\nworld extra text]. *)
Definition hello_world : jsstring := js "Hello" ++ [LF] ++ js "world extra text".

(** The text [Name: Graduation\nDate: 2020-05-01\nPost: Proud moment]. *)
Definition graduation_post : jsstring :=
  js "Name: Graduation" ++ [LF] ++ js "Date: 2020-05-01" ++ [LF]
  ++ js "Post: Proud moment".

(** The same text with the label the title pattern looks for. *)
Definition graduation_life_event : jsstring :=
  js "Life Event Name: Graduation" ++ [LF] ++ js "Date: 2020-05-01" ++ [LF]
  ++ js "Post: Proud moment".


(** What a later sighting leaves of an event row [e]: its identity,
    provenance and visibility flags. *)
Definition keeps_identity (e e' : EventRecord) : Prop :=
  ev_id e' = ev_id e
  /\ external_id e' = external_id e
  /\ external_source e' = external_source e
  /\ origin e' = origin e
  /\ active e' = active e
  /\ approved e' = approved e
  /\ date_added e' = date_added e
  /\ ev_created_at e' = ev_created_at e.

(** Source URL and position of the photos of one event, in rowid order. *)
Definition photo_positions (w : World) (eid : N) : list (option jsstring * N) :=
  map (fun p => (original_source_url p, position p)) (D1.select_photos w eid).

(** Two events claim the same non-null (external_source, external_id). *)
Definition same_pair (a b : EventRecord) : bool :=
  same_text (external_source a) (external_source b)
  && same_text (external_id a) (external_id b).

(** Two Facebook-origin events claim the same non-null external_id. *)
Definition same_facebook_id (a b : EventRecord) : bool :=
  same_text (external_id a) (external_id b)
  && jseqb (origin a) (js "facebook") && jseqb (origin b) (js "facebook").

(** The characters of a slug: [a-z], [0-9] and the dash. *)
Definition slug_char (c : N) : bool := slug_alnum c || (c =? DASH).

(** The CMS accepts every request and answers with an item id. *)
Definition cms_accepts (cms : WebflowApi) : Prop :=
  forall t request,
    exists res item,
      cms t request = Some res
      /\ status_ok (wfr_status res) = true
      /\ wfr_json_id res = Some (Some item)
      /\ truthy item = true.

(* ===================================================================== *)
(** ** Scenarios *)
(* ===================================================================== *)

(** Concrete surroundings for the examples: every download answers 200
    with a small JPEG, the bucket accepts every write, the feed is
    empty. *)
Module Scenario.

Definition jpeg : HttpResponse :=
  {| res_status := 200; res_content_type := Some (js "image/jpeg");
     res_body := [255; 216; 255] |}.

Definition empty_feed : FeedResponse :=
  {| feed_status := 200; feed_text := js "{}";
     feed_json := Some {| json_data := None; json_after := None |} |}.

Definition calm : Oracle :=
  {| photo_fetch := fun _ _ => Some jpeg;
     feed_fetch := fun _ _ => Some empty_feed;
     profile_fetch := fun _ => None;
     random_uuid := fun t => js "uuid-" ++ dec (N.of_nat t);
     iso_now := fun _ => js "2024-01-01T00:00:00.000Z";
     sql_now := fun _ => js "2024-01-01 00:00:00";
     r2_put_ok := fun _ => true;
     r2_delete_ok := fun _ => true |}.

Definition calm_env : Env := {| PUBLIC_BASE_URL := None; outside := calm |}.

(** A feed that answers every request with 503 and a body. *)
Definition unavailable : FeedResponse :=
  {| feed_status := 503; feed_text := js "upstream down"; feed_json := None |}.

Definition down_env : Env :=
  {| PUBLIC_BASE_URL := None;
     outside :=
       {| photo_fetch := fun _ _ => Some jpeg;
          feed_fetch := fun _ _ => Some unavailable;
          profile_fetch := fun _ => None;
          random_uuid := random_uuid calm;
          iso_now := iso_now calm;
          sql_now := sql_now calm;
          r2_put_ok := fun _ => true;
          r2_delete_ok := fun _ => true |} |}.

Definition empty_world : World :=
  {| events := []; event_photos := []; events_seq := 0; photos_seq := 0;
     bucket := ∅; feed_log := []; chained := []; now := 0 |}.

Definition url_a : jsstring := js "https://cdn.test/a.jpg".
Definition url_b : jsstring := js "https://cdn.test/b.jpg".
Definition url_c : jsstring := js "https://cdn.test/c.jpg".

Definition photo (src : jsstring) : FacebookAttachment :=
  {| att_src := Some src; att_sub := None; att_description := None;
     att_title := None; att_type := Some (js "photo");
     att_media_type := None |}.

(** Post [p1] with the given photo attachments, in order. *)
Definition post_with (srcs : list jsstring) : FacebookPost :=
  {| post_id := Some (js "p1");
     post_message := Some (js "A day out");
     post_story := None;
     post_created_time := Some (js "2024-01-01T00:00:00+0000");
     post_backdated_time := None;
     post_from_name := Some (js "Page");
     post_status_type := None;
     post_place_name := None;
     post_attachments := Some (map photo srcs);
     post_full_picture := None |}.

(** A post with text and no identifier. *)
Definition post_without_id : FacebookPost :=
  {| post_id := None;
     post_message := Some (js "A day out");
     post_story := None;
     post_created_time := None;
     post_backdated_time := None;
     post_from_name := None;
     post_status_type := None;
     post_place_name := None;
     post_attachments := Some [photo url_a];
     post_full_picture := None |}.

Definition reconcile (w : World) (post : FacebookPost) : World :=
  fst (upsertFacebookPost (api := PlainUrl.plain_url) calm_env w post None false).

(** The store after post [p1] was reconciled with photos A and B. *)
Definition world_ab : World := reconcile empty_world (post_with [url_a; url_b]).

(** Source URL and position of every photo row, in rowid order. *)
Definition photo_table (w : World) : list (option jsstring * N) :=
  map (fun p => (original_source_url p, position p)) (event_photos w).

(** The storage keys under which a source URL is stored. *)
Definition keys_of (w : World) (src : jsstring) : list jsstring :=
  map storage_key
      (List.filter (fun p => str_is (original_source_url p) src) (event_photos w)).

(** Three events of one upstream object, and an unrelated one. *)
Definition duplicate_event (id : N) : EventRecord :=
  {| ev_id := id;
     external_id := Some (js "p1");
     external_source := Some (js "facebook_post");
     event_date := None; event_type := None;
     event_name_line_1 := Some (js "Memory"); event_name_line_2 := None;
     event_description := None;
     posted_by_name := None; posted_by_photo := None; date_added := None;
     active := 1; approved := 0; origin := js "facebook"; sync := 1;
     ev_created_at := None; ev_updated_at := None |}.

Definition world_with_triplet : World :=
  {| events := [duplicate_event 4; duplicate_event 2; duplicate_event 7];
     event_photos := []; events_seq := 7; photos_seq := 0;
     bucket := ∅; feed_log := []; chained := []; now := 0 |}.

End Scenario.

Import Scenario.

(** A feed of two pages: the first holds post [p1] and names the cursor
    [c1], the second, asked for after [c1], holds post [p2] and names no
    cursor. *)
Module TwoPages.

Definition text_post (id text : jsstring) : FacebookPost :=
  {| post_id := Some id;
     post_message := Some text;
     post_story := None;
     post_created_time := Some (js "2024-01-01T00:00:00+0000");
     post_backdated_time := None;
     post_from_name := Some (js "Page");
     post_status_type := None;
     post_place_name := None;
     post_attachments := None;
     post_full_picture := None |}.

Definition first_page : FeedResponse :=
  {| feed_status := 200; feed_text := js "page 1";
     feed_json :=
       Some {| json_data := Some [text_post (js "p1") (js "First day")];
               json_after := Some (js "c1") |} |}.

Definition second_page : FeedResponse :=
  {| feed_status := 200; feed_text := js "page 2";
     feed_json :=
       Some {| json_data := Some [text_post (js "p2") (js "Second day")];
               json_after := None |} |}.

Definition feed (r : FeedRequest) : FeedResponse :=
  match req_after r with
  | None => first_page
  | Some c => if jseqb c (js "c1") then second_page else empty_feed
  end.

Definition env : Env :=
  {| PUBLIC_BASE_URL := None;
     outside :=
       {| photo_fetch := photo_fetch calm;
          feed_fetch := fun _ r => Some (feed r);
          profile_fetch := profile_fetch calm;
          random_uuid := random_uuid calm;
          iso_now := iso_now calm;
          sql_now := sql_now calm;
          r2_put_ok := r2_put_ok calm;
          r2_delete_ok := r2_delete_ok calm |} |}.




End TwoPages.

(* ===================================================================== *)
(** ** Notions used by the further properties *)
(* ===================================================================== *)

(** No label separator ([:] or [-]) in the string. *)
Definition unlabelled (s : jsstring) : Prop :=
  Forall (fun c => Regex.colon_or_dash c = false) s.



(** The counters of the loop add up and the chain is left alone. *)
Definition loop_balanced (start : World) (st : LoopState) : Prop :=
  lp_processed st = (lp_inserted st + lp_updated st)%Z
  /\ (0 <= lp_inserted st)%Z /\ (0 <= lp_updated st)%Z
  /\ chained (lp_world st) = chained start.







(** The ids one ranked pass deletes, and the rows it leaves. *)
Definition pass_ids {K : Type} (same : K -> K -> bool)
           (key : EventRecord -> K) (sel : EventRecord -> bool)
           (table : list EventRecord) : list N :=
  ranked_duplicates same key sel table.

Definition pass_kept {K : Type} (same : K -> K -> bool)
           (key : EventRecord -> K) (sel : EventRecord -> bool)
           (table : list EventRecord) : list EventRecord :=
  List.filter (fun e => negb (D1.mem (ev_id e) (pass_ids same key sel table)))
              table.

(** A selected row is ranked after the first when a selected row of its
    partition has a smaller id. *)
Definition outranked {K : Type} (same : K -> K -> bool)
           (key : EventRecord -> K) (sel : EventRecord -> bool)
           (table : list EventRecord) (r : EventRecord) : bool :=
  (1 <? row_number same key (List.filter sel table) r)%nat.

(** The two events passes of [cleanDuplicates] as ranked passes. *)
Definition pair_same (a b : option jsstring * option jsstring) : bool :=
  same_text (fst a) (fst b) && same_text (snd a) (snd b).
Definition pair_key (e : EventRecord) : option jsstring * option jsstring :=
  (external_source e, external_id e).
Definition pair_sel (e : EventRecord) : bool :=
  is_not_null (external_source e) && is_not_null (external_id e).
Definition facebook_sel (e : EventRecord) : bool :=
  is_not_null (external_id e) && jseqb (origin e) (js "facebook").

Definition after_pairs (table : list EventRecord) : list EventRecord :=
  pass_kept pair_same pair_key pair_sel table.
Definition after_both (table : list EventRecord) : list EventRecord :=
  pass_kept same_text external_id facebook_sel (after_pairs table).

(** Only slug characters, and no dash right after a dash ([after_dash]
    tells that the character before the string is a dash or its start). *)
Fixpoint slug_shaped (after_dash : bool) (s : jsstring) : bool :=
  match s with
  | [] => true
  | c :: s' =>
      if slug_alnum c then slug_shaped false s'
      else (c =? DASH) && negb after_dash && slug_shaped true s'
  end.

(** The row [mark_pushed] writes in place of [e]. *)
Definition pushed_row (e : EventRecord) (ext : option jsstring)
           (stamp : jsstring) : EventRecord :=
  {| ev_id := ev_id e;
     external_id := ext;
     external_source := Some (js "webflow_item");
     event_date := event_date e; event_type := event_type e;
     event_name_line_1 := event_name_line_1 e;
     event_name_line_2 := event_name_line_2 e;
     event_description := event_description e;
     posted_by_name := posted_by_name e;
     posted_by_photo := posted_by_photo e;
     date_added := date_added e;
     active := active e; approved := approved e;
     origin := origin e; sync := 0;
     ev_created_at := ev_created_at e;
     ev_updated_at := Some stamp |}.

(** What a push leaves alone: the ids and origins of the event rows, the
    photo table, the bucket and the rowid counters. *)
Definition push_frame (w w' : World) : Prop :=
  map ev_id (events w') = map ev_id (events w)
  /\ map origin (events w') = map origin (events w)
  /\ event_photos w' = event_photos w
  /\ bucket w' = bucket w
  /\ events_seq w' = events_seq w
  /\ photos_seq w' = photos_seq w
  /\ feed_log w' = feed_log w.

(** A CMS that accepts every request and answers with an item id that
    satisfies [Q]. *)
Definition cms_answers (Q : jsstring -> Prop) (cms : WebflowApi) : Prop :=
  forall t request,
    exists res item,
      cms t request = Some res
      /\ status_ok (wfr_status res) = true
      /\ wfr_json_id res = Some (Some item)
      /\ truthy item = true /\ Q item.

(** A CMS that accepts every request and hands out a new item id each
    time. *)
Definition obliging_cms : WebflowApi :=
  fun t _ =>
    Some {| wfr_status := 200; wfr_text := [];
            wfr_json_id := Some (Some (js "item-" ++ dec (N.of_nat t))) |}.

(** The source and position of a photo row. *)
Definition source_at (p : EventPhotoRecord) : option jsstring * N :=
  (original_source_url p, position p).

(** The third pass of [cleanDuplicates]: duplicate photos per event. *)
Definition remove_photos {api : URLApi} (env : Env) (w : World) : World :=
  match duplicate_photos (event_photos w) with
  | [] => w
  | d :: ds =>
      D1.delete_photos_in
        (delete_blobs env w (map storage_key (d :: ds)))
        (map ph_id (d :: ds))
  end.

(** The ids of the events a [DELETE ... WHERE id IN] removes. *)
Definition gone_of (w : World) (ids : list N) : list N :=
  map ev_id (List.filter (fun e => D1.mem (ev_id e) ids) (events w)).

(** The ids the first pass of [cleanDuplicates] selects: events ranked
    after the first of their (external_source, external_id). *)
Definition pair_duplicates (w : World) : list N :=
  ranked_duplicates
    (fun a b => same_text (fst a) (fst b) && same_text (snd a) (snd b))
    (fun e => (external_source e, external_id e))
    (fun e => is_not_null (external_source e) && is_not_null (external_id e))
    (events w).

(** The ids its second pass selects: Facebook events ranked after the
    first of their external_id. *)
Definition facebook_duplicates (w : World) : list N :=
  ranked_duplicates same_text external_id
    (fun e => is_not_null (external_id e) && jseqb (origin e) (js "facebook"))
    (events w).

(** Every array of [grouped] holds photos of the table only. *)
Definition grouped_within (l : list EventPhotoRecord)
           (grouped : list (N * list (jsstring * list EventPhotoRecord)))
  : Prop :=
  forall eid byNorm norm arr q,
    In (eid, byNorm) grouped -> In (norm, arr) byNorm -> In q arr -> In q l.

(** The store after a post that names photo A twice was reconciled. *)
Definition world_aba : World :=
  reconcile empty_world (post_with [url_a; url_b; url_a]).

(** Its third photo row: photo A again, at position 2. *)
Definition second_row_of_a : EventPhotoRecord :=
  nth 2 (event_photos world_aba) (mkPhoto 0 0 [] None None 0 None None).

(** The description-or-title of a node of the tree. *)
Fixpoint node_texts (att : FacebookAttachment) : list (option jsstring) :=
  jsor (att_description att) (att_title att)
  :: match att_sub att with
     | Some children => flat_map node_texts children
     | None => []
     end.

(** Decide how two ids compare and keep the outcome as equations. *)
Ltac compare_ids x y :=
  destruct (N.lt_trichotomy x y) as [?|[?|?]]; try congruence;
  [ assert ((x <? y) = true) by (apply N.ltb_lt; lia);
    assert ((y <? x) = false) by (apply N.ltb_ge; lia)
  | assert ((x <? y) = false) by (apply N.ltb_ge; lia);
    assert ((y <? x) = true) by (apply N.ltb_lt; lia) ];
  assert ((x =? y) = false) by (apply N.eqb_neq; lia);
  assert ((y =? x) = false) by (apply N.eqb_neq; lia).

(** Decide every integer comparison in sight and finish by arithmetic. *)
Ltac compare_numbers :=
  unfold num_min, num_truthy, num_le, num_lt, of_Z in *;
  repeat (match goal with
          | H : context [(?a <? ?b)%Z] |- _ => destruct (Z.ltb_spec a b)
          | H : context [(?a <=? ?b)%Z] |- _ => destruct (Z.leb_spec a b)
          | H : context [(?a =? ?b)%Z] |- _ => destruct (Z.eqb_spec a b)
          | |- context [(?a <? ?b)%Z] => destruct (Z.ltb_spec a b)
          | |- context [(?a <=? ?b)%Z] => destruct (Z.leb_spec a b)
          | |- context [(?a =? ?b)%Z] => destruct (Z.eqb_spec a b)
          end;
          cbn [negb andb orb] in *; cbv beta iota in *);
  try reflexivity; try discriminate; try lia.

Ltac rewrite_comparisons :=
  repeat match goal with
    | H : (?x <? ?y) = _ |- context [?x <? ?y] => rewrite H
    | H : (?x =? ?y) = _ |- context [?x =? ?y] => rewrite H
    end.

(* ===================================================================== *)
(** * Properties *)
(* ===================================================================== *)

(** ** Strings *)

Lemma jseqb_refl (s : jsstring) : jseqb s s = true.
Proof.
  induction s as [|c s IH]; simpl; [reflexivity|].
  rewrite N.eqb_refl. exact IH.
Qed.

Lemma jseqb_eq (a b : jsstring) : jseqb a b = true <-> a = b.
Proof.
  split; [|intros ->; apply jseqb_refl].
  revert b. induction a as [|x a IH]; intros [|y b]; simpl; try discriminate.
  - reflexivity.
  - intros H. apply andb_prop in H as [Hx Hab].
    apply N.eqb_eq in Hx. subst y. f_equal. auto.
Qed.

Lemma trimStart_edge (s : jsstring) :
  match s with c :: _ => isWhiteSpace c = false | [] => True end ->
  trimStart s = s.
Proof. destruct s as [|c s]; simpl; [reflexivity|]. intros ->. reflexivity. Qed.

(** A string with no white space at either end is its own trim. *)
Lemma trim_edges (s : jsstring) :
  match s with c :: _ => isWhiteSpace c = false | [] => True end ->
  match rev s with c :: _ => isWhiteSpace c = false | [] => True end ->
  trim s = s.
Proof.
  intros Hfront Hback. unfold trim, trimEnd.
  rewrite (trimStart_edge s Hfront), (trimStart_edge (rev s) Hback).
  apply rev_involutive.
Qed.

(** A string without a line feed is one line. *)
Lemma split_lines_single (s : jsstring) :
  ~ In LF s -> split_lines s = [s].
Proof.
  induction s as [|c s IH]; intros Hno; [reflexivity|].
  assert (Hc : (c =? LF) = false).
  { apply N.eqb_neq. intros ->. apply Hno. left. reflexivity. }
  assert (Hs : ~ In LF s) by (intros H; apply Hno; right; exact H).
  cbn [split_lines]. rewrite Hc, (IH Hs).
  destruct (c =? CR); [|reflexivity].
  destruct s as [|d s']; [reflexivity|].
  assert (Hd : (d =? LF) = false).
  { apply N.eqb_neq. intros ->. apply Hs. left. reflexivity. }
  rewrite Hd. reflexivity.
Qed.

(** ** Headline split *)


(** C9. The headline split maps "Hello\nworld extra text" to line1 "Hello"
    and line2 "world extra text"; it maps the empty string to line1
    "Memory" and line2 null; and it maps a single line of 130 characters
    (no line feed in it, no white space at its ends) to a line1 made of
    its first 119 characters followed by the ellipsis, 120 characters in
    all. *)
Theorem splitMessage_headline :
  splitMessage hello_world
  = {| line1 := js "Hello"; line2 := Some (js "world extra text") |}
  /\ splitMessage [] = {| line1 := js "Memory"; line2 := None |}
  /\ forall s : jsstring,
      length s = 130%nat ->
      ~ In LF s ->
      match s with c :: _ => isWhiteSpace c = false | [] => True end ->
      match rev s with c :: _ => isWhiteSpace c = false | [] => True end ->
      line1 (splitMessage s) = firstn 119 s ++ [ELLIPSIS]
      /\ length (line1 (splitMessage s)) = 120%nat
      /\ line2 (splitMessage s) = None.
Proof.
  split; [reflexivity|]. split; [reflexivity|].
  intros s Hlen Hone Hfront Hback.
  assert (Hne : truthy s = true) by (destruct s; [discriminate Hlen|reflexivity]).
  assert (Hsplit : splitMessage s
                   = {| line1 := firstn 119 s ++ [ELLIPSIS]; line2 := None |}).
  { unfold splitMessage. rewrite Hne. cbn [negb].
    rewrite (trim_edges s Hfront Hback), (split_lines_single s Hone).
    cbn [hd_error tl fmap option_fmap option_map join_space].
    rewrite (trim_edges s Hfront Hback).
    unfold jsor_str. rewrite Hne.
    unfold truncate. rewrite Hlen. reflexivity. }
  rewrite Hsplit. cbn [line1 line2].
  repeat split.
  rewrite length_app, length_firstn, Hlen. reflexivity.
Qed.

Lemma splitMessage_headline_witness :
  line1 (splitMessage (repeat 97 130)) = firstn 119 (repeat 97 130) ++ [ELLIPSIS]
  /\ length (line1 (splitMessage (repeat 97 130))) = 120%nat
  /\ line2 (splitMessage (repeat 97 130)) = None.
Proof.
  apply (proj2 (proj2 splitMessage_headline) (repeat 97 130)).
  - reflexivity.
  - vm_compute. intros H.
    repeat (destruct H as [H|H]; [discriminate H|]). exact H.
  - reflexivity.
  - reflexivity.
Defined.

(** ** Structured messages *)


(** C4, as stated, fails: a line [Name: Graduation] gives no title. *)
Lemma structured_name_label_gives_no_title :
  title (parseStructuredMessage graduation_post [] None None None)
  <> Some (js "Graduation").
Proof. vm_compute. discriminate. Qed.

(** C4, amended.  Parsing "Name: Graduation\nDate: 2020-05-01\nPost: Proud
    moment" with no attachments and no place yields eventDate "2020-05-01"
    and description "Proud moment", and a null title: the title label is
    [Life Event Name:], and with that label in place of [Name:] the title
    is "Graduation". *)
Theorem structured_override (fallbackDate : jsstring) :
  parseStructuredMessage graduation_post fallbackDate None None None
  = {| title := None;
       description := Some (js "Proud moment");
       eventDate := Some (js "2020-05-01");
       eventType := None |}
  /\ parseStructuredMessage graduation_life_event fallbackDate None None None
     = {| title := Some (js "Graduation");
          description := Some (js "Proud moment");
          eventDate := Some (js "2020-05-01");
          eventType := None |}.
Proof. split; reflexivity. Qed.

(** ** Source-URL normalization *)

Module PlainUrlFacts.
Import PlainUrl.

Lemma cut_absent (c : N) (s : jsstring) : ~ In c s -> cut c s = (s, None).
Proof.
  induction s as [|x s IH]; intros Hno; [reflexivity|].
  cbn [cut].
  destruct (N.eqb_spec x c) as [->|_]; [exfalso; apply Hno; left; reflexivity|].
  rewrite IH; [reflexivity|]. intros H. apply Hno. right. exact H.
Qed.

Lemma cut_first (c : N) (a b : jsstring) :
  ~ In c a -> cut c (a ++ c :: b) = (a, Some b).
Proof.
  induction a as [|x a IH]; intros Hno; cbn [cut app].
  - rewrite N.eqb_refl. reflexivity.
  - destruct (N.eqb_spec x c) as [->|_]; [exfalso; apply Hno; left; reflexivity|].
    rewrite IH; [reflexivity|]. intros H. apply Hno. right. exact H.
Qed.

Lemma startsWith_firstn (p s : jsstring) :
  startsWith p s = true -> firstn (length p) s = p.
Proof.
  revert s. induction p as [|x p IH]; intros [|y s]; simpl; try discriminate;
    try reflexivity.
  intros H. apply andb_prop in H as [Hx Hp].
  apply N.eqb_eq in Hx. subst y. f_equal. auto.
Qed.

Lemma forallb_absent (f : N -> bool) (c : N) (s : jsstring) :
  f c = false -> forallb f s = true -> ~ In c s.
Proof.
  intros Hc Hall Hin.
  rewrite forallb_forall in Hall. specialize (Hall c Hin). congruence.
Qed.

(** Neither [?] nor [#] occurs in a valid base. *)
Lemma valid_base_absent (c : N) (b : jsstring) :
  path_char c = false -> c <> 58 ->
  valid_base b = true -> ~ In c b.
Proof.
  intros Hc Hcolon Hvalid. unfold valid_base in Hvalid.
  apply andb_prop in Hvalid as [Hvalid _].
  apply andb_prop in Hvalid as [Hscheme Hrest].
  apply startsWith_firstn in Hscheme.
  rewrite <- (firstn_skipn 8 b). intros Hin.
  apply in_app_or in Hin as [Hin|Hin].
  - change (length (js "https://")) with 8%nat in Hscheme.
    rewrite Hscheme in Hin. vm_compute in Hin.
    repeat (destruct Hin as [Hin|Hin];
            [subst c; first [discriminate Hc | congruence]|]).
    exact Hin.
  - exact (forallb_absent _ _ _ Hc Hrest Hin).
Qed.

Lemma valid_parts (r : raw) :
  Is_true (valid r) ->
  valid_base (base r) = true
  /\ forallb query_char (default [] (query r)) = true
  /\ forallb query_char (default [] (fragment r)) = true.
Proof.
  intros H. apply Is_true_true in H. unfold valid in H.
  apply andb_prop in H as [H Hf]. apply andb_prop in H as [Hb Hq]. auto.
Qed.

Lemma check_valid (r : raw) (ok : Is_true (valid r)) :
  check r = Some (exist _ r ok).
Proof.
  unfold check. destruct (decide (Is_true (valid r))) as [ok'|no].
  - f_equal. apply sig_eq_pi; [apply _|reflexivity].
  - contradiction.
Qed.

Lemma parse_href (u : url) : parse (href u) = Some u.
Proof.
  destruct u as [[b q f] ok].
  destruct (valid_parts _ ok) as (Hb & Hq & Hf). cbn in Hb, Hq, Hf.
  assert (Hb35 : ~ In 35 b) by (apply valid_base_absent; [reflexivity|discriminate|exact Hb]).
  assert (Hb63 : ~ In 63 b) by (apply valid_base_absent; [reflexivity|discriminate|exact Hb]).
  assert (Hq35 : ~ In 35 (default [] q)) by (eapply forallb_absent; [|exact Hq]; reflexivity).
  assert (Hfront35 :
            ~ In 35 (b ++ match q with Some q0 => 63 :: q0 | None => [] end)).
  { intros Hin. apply in_app_or in Hin as [Hin|Hin]; [exact (Hb35 Hin)|].
    destruct q as [q0|]; [|exact Hin].
    destruct Hin as [Hin|Hin]; [discriminate Hin|exact (Hq35 Hin)]. }
  assert (Hcut63 :
            cut 63 (b ++ match q with Some q0 => 63 :: q0 | None => [] end)
            = (b, q)).
  { destruct q as [q0|].
    - apply cut_first. exact Hb63.
    - rewrite app_nil_r. apply cut_absent. exact Hb63. }
  unfold parse, href. cbn [proj1_sig base query fragment].
  destruct f as [f0|].
  - rewrite app_assoc, (cut_first 35 _ f0 Hfront35), Hcut63.
    apply check_valid.
  - rewrite app_nil_r, (cut_absent 35 _ Hfront35), Hcut63.
    apply check_valid.
Qed.

Lemma valid_without_query (r : raw) :
  Is_true (valid r) ->
  Is_true (valid {| base := base r; query := None; fragment := fragment r |}).
Proof.
  intros H. destruct (valid_parts _ H) as (Hb & _ & Hf).
  apply Is_true_true. unfold valid. cbn. rewrite Hb, Hf. reflexivity.
Qed.

Lemma valid_without_fragment (r : raw) :
  Is_true (valid r) ->
  Is_true (valid {| base := base r; query := query r; fragment := None |}).
Proof.
  intros H. destruct (valid_parts _ H) as (Hb & Hq & _).
  apply Is_true_true. unfold valid. cbn. rewrite Hb, Hq. reflexivity.
Qed.

Lemma clear_search_raw (u : url) :
  proj1_sig (clear_search u)
  = {| base := base (proj1_sig u); query := None;
       fragment := fragment (proj1_sig u) |}.
Proof.
  unfold clear_search.
  rewrite (check_valid _ (valid_without_query _ (proj2_sig u))). reflexivity.
Qed.

Lemma clear_hash_raw (u : url) :
  proj1_sig (clear_hash u)
  = {| base := base (proj1_sig u); query := query (proj1_sig u);
       fragment := None |}.
Proof.
  unfold clear_hash.
  rewrite (check_valid _ (valid_without_fragment _ (proj2_sig u))). reflexivity.
Qed.

#[export] Instance plain_url_laws : URLApiLaws plain_url.
Proof.
  split; cbn [URL url_parse url_href url_clear_search url_clear_hash plain_url].
  - exact parse_href.
  - intros u. apply sig_eq_pi; [apply _|].
    rewrite !clear_search_raw. reflexivity.
  - intros u. apply sig_eq_pi; [apply _|].
    rewrite !clear_hash_raw. reflexivity.
  - intros u. apply sig_eq_pi; [apply _|].
    rewrite clear_search_raw, !clear_hash_raw, clear_search_raw. reflexivity.
Qed.

End PlainUrlFacts.

(** C10. Source-URL normalization is total and idempotent: an input that
    does not parse as a URL is returned unchanged, a parseable one is
    returned as the serialization of the URL with its query string and
    fragment emptied, and normalizing twice is normalizing once. *)
Theorem normalizeSourceUrl_idempotent
        (api : URLApi) (laws : URLApiLaws api) (url : jsstring) :
  (url_parse url = None -> normalizeSourceUrl url = url)
  /\ (forall u, url_parse url = Some u ->
                normalizeSourceUrl url
                = url_href (url_clear_hash (url_clear_search u)))
  /\ normalizeSourceUrl (normalizeSourceUrl url) = normalizeSourceUrl url.
Proof.
  unfold normalizeSourceUrl.
  destruct (url_parse url) as [u|] eqn:Hparse.
  - split; [discriminate|]. split.
    + intros u' [= <-]. reflexivity.
    + rewrite url_reparse.
      rewrite url_clear_comm, url_clear_search_idem, url_clear_hash_idem.
      reflexivity.
  - split; [reflexivity|]. split; [discriminate|].
    rewrite Hparse. reflexivity.
Qed.

Lemma normalizeSourceUrl_idempotent_witness :
  normalizeSourceUrl (api := PlainUrl.plain_url)
    (normalizeSourceUrl (api := PlainUrl.plain_url)
       (js "https://cdn.test/a.jpg?x=1#top"))
  = js "https://cdn.test/a.jpg".
Proof.
  rewrite (proj2 (proj2 (normalizeSourceUrl_idempotent
                           PlainUrl.plain_url PlainUrlFacts.plain_url_laws
                           (js "https://cdn.test/a.jpg?x=1#top")))).
  vm_compute. reflexivity.
Defined.

(** ** Reconciliation: posts without an upstream identifier *)

(** C6. For a post that lacks an upstream identifier (the [id] is missing
    or empty), reconcile returns processed=false and leaves the world as
    it was: no Event row, no Photo row and no blob is touched. *)
Theorem upsert_without_id_is_noop
        (api : URLApi) (env : Env) (w : World) (post : FacebookPost)
        (authorProfile : option AuthorProfile) (isLifeEvent : bool) :
  otruthy (post_id post) = false ->
  upsertFacebookPost env w post authorProfile isLifeEvent
  = (w, {| processed := false; inserted := false; updated := false |}).
Proof.
  unfold upsertFacebookPost.
  destruct (post_id post) as [[|c pid]|]; [reflexivity|discriminate|reflexivity].
Qed.

(** ** Feed client failures *)

(** C7. For every non-success HTTP response of the feed API, the page
    fetch throws an error whose message carries the upstream status and
    the response body, and returns no page; the request was sent once,
    and the store and the bucket are as before.  In the batch loop the
    error ends the loop. *)
Theorem fetchFacebookFeed_failure
        (api : URLApi) (env : Env) (w : World) (opts : FeedOpts)
        (res : FeedResponse) :
  feed_fetch (outside env) (now w) (feed_request opts) = Some res ->
  status_ok (feed_status res) = false ->
  let message :=
    js "Facebook API error " ++ dec (feed_status res) ++ js ": " ++ feed_text res in
  let '(w', result) := fetchFacebookFeed env w opts in
  result = Threw message
  /\ feed_log w' = feed_log w ++ [(feed_request opts, Some res)]
  /\ events w' = events w /\ event_photos w' = event_photos w
  /\ bucket w' = bucket w
  /\ forall authorProfile maxTotal remaining st,
      lp_world st = w -> lp_cursor st = fo_cursor opts ->
      num_lt (of_Z (lp_processed st)) maxTotal = true ->
      fst (fetch_loop env authorProfile (default (of_Z 25) (fo_limit opts))
                      maxTotal (S remaining) st)
      = Threw message.
Proof.
  intros Hres Hbad message.
  unfold fetchFacebookFeed. rewrite Hres, Hbad. cbn [negb].
  repeat split.
  intros authorProfile maxTotal remaining st Hw Hcursor Hlt.
  cbn [fetch_loop].
  rewrite Hlt.
  unfold fetchFacebookFeed.
  assert (Hreq : feed_request
                   {| fo_limit := Some (default (of_Z 25) (fo_limit opts));
                      fo_cursor := lp_cursor st |}
                 = feed_request opts).
  { rewrite Hcursor. unfold feed_request. cbn [fo_limit fo_cursor].
    destruct (fo_limit opts) as [l|]; reflexivity. }
  rewrite Hreq, Hw, Hres, Hbad. reflexivity.
Qed.

(** ** Reconciliation: what the photo pass leaves alone *)

Section ReconcileFacts.
Context {api : URLApi}.
Variable env : Env.


Lemma persist_events (w : World) (eid : N) (url : jsstring) (pos : N) :
  let w' := fst (persistPhotoFromUrl env w eid url pos) in
  events w' = events w /\ events_seq w' = events_seq w
  /\ feed_log w' = feed_log w /\ chained w' = chained w.
Proof.
  unfold persistPhotoFromUrl.
  destruct (photo_fetch _ _ _) as [res|]; [|cbn; auto].
  destruct (negb (status_ok (res_status res))); [cbn; auto|].
  cbn [now tick].
  destruct (r2_put_ok _ _); cbn; auto.
Qed.

(** Under steady surroundings a photo is stored exactly when it is
    storable; otherwise the photo table is left as it was. *)
Lemma persist_outcome (w : World) (eid : N) (url : jsstring) (pos : N) :
  steady_io env ->
  let w' := fst (persistPhotoFromUrl env w eid url pos) in
  if storable env url then
    exists p,
      event_photos w' = event_photos w ++ [p]
      /\ event_id p = eid /\ original_source_url p = Some url
      /\ position p = pos
  else event_photos w' = event_photos w.
Proof.
  intros [Hfetch Hput]. cbv zeta. unfold storable.
  rewrite (Hfetch 0%nat (now w) url), (Hput 0%nat (S (S (now w)))).
  unfold persistPhotoFromUrl, fetched_ok.
  destruct (photo_fetch _ _ _) as [res|]; [|reflexivity].
  destruct (status_ok (res_status res)); cbn [negb andb]; [|reflexivity].
  cbn [now tick].
  destruct (r2_put_ok _ _); [|reflexivity].
  eexists. cbn. repeat split.
Qed.

Lemma photo_step_frame (eid : N) (m : gmap jsstring EventPhotoRecord)
      (st : PhotoPass) (url : jsstring) :
  let w' := pass_world (photo_step env eid m st url) in
  events w' = events (pass_world st)
  /\ events_seq w' = events_seq (pass_world st)
  /\ feed_log w' = feed_log (pass_world st)
  /\ chained w' = chained (pass_world st).
Proof.
  unfold photo_step. destruct (negb (truthy url)); [auto|].
  destruct (m !! normalizeSourceUrl url); cbn [pass_world]; [cbn; auto|].
  apply persist_events.
Qed.

Lemma photo_pass_frame (eid : N) (m : gmap jsstring EventPhotoRecord)
      (urls : list jsstring) (st : PhotoPass) :
  let w' := pass_world (fold_left (photo_step env eid m) urls st) in
  events w' = events (pass_world st)
  /\ events_seq w' = events_seq (pass_world st)
  /\ feed_log w' = feed_log (pass_world st)
  /\ chained w' = chained (pass_world st).
Proof.
  revert st. induction urls as [|u urls IH]; intros st; [cbn; auto|].
  cbn [fold_left].
  destruct (IH (photo_step env eid m st u)) as (H1 & H2 & H3 & H4).
  destruct (photo_step_frame eid m st u) as (G1 & G2 & G3 & G4).
  cbn zeta in *. rewrite H1, H2, H3, H4. auto.
Qed.

Lemma remove_orphans_frame (seen : gset jsstring)
      (rows : list EventPhotoRecord) (w : World) :
  let w' := remove_orphans seen rows w in
  events w' = events w /\ events_seq w' = events_seq w
  /\ feed_log w' = feed_log w /\ chained w' = chained w
  /\ bucket w' = bucket w.
Proof.
  unfold remove_orphans.
  revert w. induction rows as [|p rows IH]; intros w; [cbn; auto|].
  cbn [fold_left].
  destruct (IH (remove_orphan seen w p)) as (H1 & H2 & H3 & H4 & H5).
  cbn zeta in *. rewrite H1, H2, H3, H4, H5.
  unfold remove_orphan.
  destruct (original_source_url p) as [src|]; [|auto].
  destruct (truthy src && negb (bool_decide (normalizeSourceUrl src ∈ seen)));
    cbn; auto.
Qed.

Lemma refresh_photos_frame (w : World) (eid : N) (post : FacebookPost) :
  let w' := refresh_photos env w eid post in
  events w' = events w /\ events_seq w' = events_seq w
  /\ feed_log w' = feed_log w /\ chained w' = chained w.
Proof.
  unfold refresh_photos.
  match goal with
  | |- context [remove_orphans ?seen ?rows ?w0] =>
      destruct (remove_orphans_frame seen rows w0) as (H1 & H2 & H3 & H4 & _)
  end.
  match goal with
  | |- context [fold_left (photo_step env eid ?m) ?urls ?st] =>
      destruct (photo_pass_frame eid m urls st) as (G1 & G2 & G3 & G4)
  end.
  cbn zeta in *. cbn [pass_world] in *.
  rewrite H1, H2, H3, H4. auto.
Qed.

(** Reconciling a post never touches the feed log nor the chain. *)
Lemma upsert_frame (w : World) (post : FacebookPost)
      (authorProfile : option AuthorProfile) (isLifeEvent : bool) :
  let w' := fst (upsertFacebookPost env w post authorProfile isLifeEvent) in
  feed_log w' = feed_log w /\ chained w' = chained w.
Proof.
  unfold upsertFacebookPost.
  destruct (post_id post) as [[|c pid]|]; [cbn; auto| |cbn; auto].
  cbv zeta.
  match goal with
  | |- context [match ?x with Some _ => _ | None => _ end] =>
      match type of x with option N => destruct x as [id|] end
  end.
  - cbn [fst].
    match goal with
    | |- context [refresh_photos env ?w0 ?e post] =>
        destruct (refresh_photos_frame w0 e post) as (_ & _ & H3 & H4)
    end.
    cbn zeta in *. rewrite H3, H4. cbn. auto.
  - cbn [D1.insert_event fst].
    match goal with
    | |- context [refresh_photos env ?w0 ?e post] =>
        destruct (refresh_photos_frame w0 e post) as (_ & _ & H3 & H4)
    end.
    cbn zeta in *. rewrite H3, H4. cbn. auto.
Qed.
(** *** Blobs are only ever added *)

Lemma persist_keeps_blobs (w : World) (eid : N) (url : jsstring) (pos : N)
      (key : jsstring) :
  is_Some (bucket w !! key) ->
  is_Some (bucket (fst (persistPhotoFromUrl env w eid url pos)) !! key).
Proof.
  intros Hkey. unfold persistPhotoFromUrl.
  destruct (photo_fetch _ _ _) as [res|]; [|exact Hkey].
  destruct (negb (status_ok (res_status res))); [exact Hkey|].
  cbn [now tick].
  destruct (r2_put_ok _ _); [|exact Hkey].
  cbn [fst bucket D1.insert_photo with_photos tick with_bucket].
  rewrite lookup_insert_is_Some.
  match goal with
  | |- ?k = key \/ _ => destruct (decide (k = key)); auto
  end.
Qed.

Lemma photo_pass_keeps_blobs (eid : N) (m : gmap jsstring EventPhotoRecord)
      (urls : list jsstring) (key : jsstring) :
  forall st,
    is_Some (bucket (pass_world st) !! key) ->
    is_Some (bucket (pass_world (fold_left (photo_step env eid m) urls st))
               !! key).
Proof.
  induction urls as [|u urls IH]; intros st Hkey; [exact Hkey|].
  cbn [fold_left]. apply IH. unfold photo_step.
  destruct (negb (truthy u)); [exact Hkey|].
  destruct (m !! normalizeSourceUrl u); cbn [pass_world]; [exact Hkey|].
  apply persist_keeps_blobs. exact Hkey.
Qed.

(** Reconciling a post never deletes an object from the bucket: the
    orphan cleanup of [upsertFacebookPost] removes rows only. *)
Lemma upsert_keeps_blobs (w : World) (post : FacebookPost)
      (authorProfile : option AuthorProfile) (isLifeEvent : bool)
      (key : jsstring) :
  is_Some (bucket w !! key) ->
  is_Some (bucket (fst (upsertFacebookPost env w post authorProfile isLifeEvent))
             !! key).
Proof.
  intros Hkey.
  assert (Hrefresh : forall w0 eid,
             is_Some (bucket w0 !! key) ->
             is_Some (bucket (refresh_photos env w0 eid post) !! key)).
  { intros w0 eid H0. unfold refresh_photos.
    match goal with
    | |- context [remove_orphans ?seen ?rows ?w1] =>
        destruct (remove_orphans_frame seen rows w1) as (_ & _ & _ & _ & ->)
    end.
    apply photo_pass_keeps_blobs. exact H0. }
  unfold upsertFacebookPost.
  destruct (post_id post) as [[|c pid]|]; [exact Hkey| |exact Hkey].
  cbv zeta.
  match goal with
  | |- context [match ?x with Some _ => _ | None => _ end] =>
      match type of x with option N => destruct x as [id|] end
  end; cbn [fst D1.insert_event]; apply Hrefresh; exact Hkey.
Qed.
End ReconcileFacts.

(** ** Reconciliation: idempotency *)

Section Idempotency.
Context {api : URLApi}.
Variable env : Env.






Lemma select_photos_app (w : World) (eid : N)
      (old rows : list EventPhotoRecord) (urls : list jsstring) :
  event_photos w = old ++ rows ->
  Forall (fun p => event_id p < eid) old ->
  Forall (row_of eid urls) rows ->
  D1.select_photos w eid = rows.
Proof.
  intros Hw Hold Hrows. unfold D1.select_photos. rewrite Hw, List.filter_app.
  assert (Hnone : List.filter (fun p => event_id p =? eid) old = []).
  { clear Hw. induction Hold as [|p old Hp _ IH]; [reflexivity|].
    cbn. destruct (N.eqb_spec (event_id p) eid); [lia|exact IH]. }
  assert (Hall : List.filter (fun p => event_id p =? eid) rows = rows).
  { clear Hw. induction Hrows as [|p rows [Hp _] _ IH]; [reflexivity|].
    cbn. rewrite Hp, N.eqb_refl, IH. reflexivity. }
  rewrite Hnone, Hall. reflexivity.
Qed.
End Idempotency.

Section IdempotencyTheorem.
Context {api : URLApi}.
Variable env : Env.

(** The insert branch of [upsertFacebookPost]. *)
Lemma upsert_new (w : World) (post : FacebookPost) (pid : jsstring)
      (authorProfile : option AuthorProfile) (isLifeEvent : bool) :
  post_id post = Some pid -> truthy pid = true ->
  D1.select_facebook_event w pid = None ->
  exists e wi,
    upsertFacebookPost env w post authorProfile isLifeEvent
    = (refresh_photos env wi (events_seq w + 1) post,
       {| processed := true; inserted := true; updated := false |})
    /\ events wi = events w ++ [e]
    /\ ev_id e = events_seq w + 1
    /\ external_id e = Some pid
    /\ origin e = js "facebook"
    /\ event_photos wi = event_photos w.
Proof.
  intros Hid Hne Hnone. unfold upsertFacebookPost. rewrite Hid.
  destruct pid as [|c pid]; [discriminate Hne|].
  cbv zeta. rewrite Hnone. cbn [D1.insert_event].
  eexists. eexists. split; [reflexivity|]. cbn. repeat split.
Qed.



End IdempotencyTheorem.


(** ** Reconciliation on concrete posts *)

Lemma calm_steady : steady_io calm_env.
Proof. split; reflexivity. Qed.


Lemma upsert_without_id_is_noop_witness :
  upsertFacebookPost (api := PlainUrl.plain_url) calm_env world_ab
                     post_without_id None false
  = (world_ab, {| processed := false; inserted := false; updated := false |}).
Proof.
  apply (upsert_without_id_is_noop PlainUrl.plain_url calm_env world_ab
           post_without_id None false).
  reflexivity.
Defined.

Lemma fetchFacebookFeed_failure_witness :
  fst (fetchFacebookFeed down_env empty_world
         {| fo_limit := Some (of_Z 25); fo_cursor := None |})
  = tick (log_feed_call empty_world
            {| req_limit := of_Z 25; req_after := None |} (Some unavailable))
  /\ snd (fetchFacebookFeed down_env empty_world
            {| fo_limit := Some (of_Z 25); fo_cursor := None |})
     = Threw (js "Facebook API error 503: upstream down").
Proof.
  pose proof (fetchFacebookFeed_failure PlainUrl.plain_url down_env empty_world
                {| fo_limit := Some (of_Z 25); fo_cursor := None |} unavailable
                eq_refl eq_refl) as H.
  cbv zeta in H.
  destruct (fetchFacebookFeed down_env empty_world
              {| fo_limit := Some (of_Z 25); fo_cursor := None |}) as [w' result] eqn:E.
  destruct H as (Hresult & _).
  split; [|exact Hresult].
  vm_compute in E. injection E as <- _. reflexivity.
Defined.

(** C3 on the code: a post whose attachments yield [A, B, A], reconciled
    into an empty store, leaves two Photo rows for A (positions 0 and 2)
    and one for B (position 1). *)
Theorem duplicate_url_stored_twice :
  photo_table (reconcile empty_world (post_with [url_a; url_b; url_a]))
  = [(Some url_a, 0); (Some url_b, 1); (Some url_a, 2)].
Proof. vm_compute. reflexivity. Qed.

(** C2 on the code: with photos A and B stored, reconciling the post with
    [B, C] removes the row of A, keeps B at position 0 and adds C at
    position 1; the blob of A is still in the bucket. *)
Theorem orphan_row_removed_blob_kept :
  photo_table world_ab = [(Some url_a, 0); (Some url_b, 1)]
  /\ let w' := reconcile world_ab (post_with [url_b; url_c]) in
     photo_table w' = [(Some url_b, 0); (Some url_c, 1)]
     /\ exists key,
         keys_of world_ab url_a = [key]
         /\ is_Some (bucket world_ab !! key)
         /\ is_Some (bucket w' !! key).
Proof.
  split; [vm_compute; reflexivity|].
  cbv zeta. split; [vm_compute; reflexivity|].
  exists (js "events/1/uuid-2.jpg").
  split; [vm_compute; reflexivity|].
  split;
    exists {| obj_body := res_body jpeg; obj_contentType := js "image/jpeg" |};
    vm_compute; reflexivity.
Qed.

(** ** Duplicate janitor *)


Section JanitorFacts.
Context {api : URLApi}.
Variable env : Env.

Lemma delete_blobs_frame (keys : list jsstring) (w : World) :
  events (delete_blobs env w keys) = events w
  /\ event_photos (delete_blobs env w keys) = event_photos w.
Proof.
  unfold delete_blobs. revert w.
  induction keys as [|k keys IH]; intros w; [auto|].
  cbn [fold_left]. destruct (IH (delete_blob env w k)) as [-> ->].
  unfold delete_blob, r2_delete_quietly.
  destruct (truthy k); [|auto].
  destruct (r2_delete_ok _ _); auto.
Qed.

(** What a "duplicate events" pass does to the events table. *)
Lemma remove_events_events (w : World) (ids : list N) :
  events (fst (remove_events env w ids))
  = List.filter (fun e => negb (D1.mem (ev_id e) ids)) (events w)
  /\ snd (remove_events env w ids) = Z.of_nat (length ids).
Proof.
  destruct ids as [|i ids].
  - cbn. split; [|reflexivity].
    induction (events w) as [|e es IH]; [reflexivity|].
    cbn. f_equal. exact IH.
  - cbn [remove_events fst snd]. split; [|reflexivity].
    unfold D1.delete_events_in. cbn [events with_photos with_events].
    destruct (delete_blobs_frame
                (D1.select_keys_of_events w (i :: ids)) w) as [-> _].
    reflexivity.
Qed.

(** The events table after a whole dedupe pass, and the count it
    reports. *)
Lemma cleanDuplicates_events (w : World) :
  let by_pair :=
    ranked_duplicates
      (fun a b => same_text (fst a) (fst b) && same_text (snd a) (snd b))
      (fun e => (external_source e, external_id e))
      (fun e => is_not_null (external_source e) && is_not_null (external_id e))
      (events w) in
  let left1 :=
    List.filter (fun e => negb (D1.mem (ev_id e) by_pair)) (events w) in
  let by_id :=
    ranked_duplicates same_text external_id
      (fun e => is_not_null (external_id e)
                && jseqb (origin e) (js "facebook")) left1 in
  events (fst (cleanDuplicates env w))
  = List.filter (fun e => negb (D1.mem (ev_id e) by_id)) left1
  /\ eventsRemoved (snd (cleanDuplicates env w))
     = (Z.of_nat (length by_pair) + Z.of_nat (length by_id))%Z.
Proof.
  cbv zeta. unfold cleanDuplicates.
  match goal with
  | |- context [remove_events env w ?ids] =>
      destruct (remove_events_events w ids) as [He1 Hn1];
      destruct (remove_events env w ids) as [w1 n1]
  end.
  cbn [fst snd] in He1, Hn1. rewrite <- He1.
  match goal with
  | |- context [remove_events env w1 ?ids] =>
      destruct (remove_events_events w1 ids) as [He2 Hn2];
      destruct (remove_events env w1 ids) as [w2 n2]
  end.
  cbn [fst snd] in He2, Hn2. rewrite <- He2, <- Hn1, <- Hn2.
  destruct (duplicate_photos (event_photos w2)) as [|d ds];
    cbn [fst snd eventsRemoved]; [auto|].
  split; [|reflexivity].
  unfold D1.delete_photos_in. cbn [events with_photos].
  apply delete_blobs_frame.
Qed.

(** C8. In a store whose events table holds exactly three rows that
    share one non-null (external_source, external_id) pair, one dedupe
    pass leaves exactly the row with the lowest id and reports
    eventsRemoved=2. *)
Theorem dedupe_triplet (w : World) (a b c : EventRecord)
        (source ext : jsstring) :
  events w = [a; b; c] ->
  ev_id a <> ev_id b -> ev_id a <> ev_id c -> ev_id b <> ev_id c ->
  (forall e, In e [a; b; c] ->
             external_source e = Some source /\ external_id e = Some ext) ->
  let '(w', removed) := cleanDuplicates env w in
  eventsRemoved removed = 2%Z
  /\ exists keep,
      events w' = [keep] /\ In keep [a; b; c]
      /\ forall e, In e [a; b; c] -> ev_id keep <= ev_id e.
Proof.
  intros Hw Hab Hac Hbc Hkey.
  destruct (cleanDuplicates_events w) as [Hevents Hcount].
  destruct (cleanDuplicates env w) as [w' removed].
  cbn [fst snd] in Hevents, Hcount. rewrite Hevents, Hcount, Hw.
  destruct (Hkey a (or_introl eq_refl)) as [Hsa Hea].
  destruct (Hkey b (or_intror (or_introl eq_refl))) as [Hsb Heb].
  destruct (Hkey c (or_intror (or_intror (or_introl eq_refl)))) as [Hsc Hec].
  clear Hevents Hcount Hkey Hw.
  assert (Hfinish : forall keep,
             In keep [a; b; c] ->
             (forall e, In e [a; b; c] -> ev_id keep <= ev_id e) ->
             exists keep0, [keep] = [keep0] /\ In keep0 [a; b; c]
                           /\ forall e, In e [a; b; c] -> ev_id keep0 <= ev_id e)
    by (intros keep H1 H2; exists keep; auto).
  destruct a as [ia xa sa ? ? ? ? ? ? ? ? ? ? oa ? ? ?],
           b as [ib xb sb ? ? ? ? ? ? ? ? ? ? ob ? ? ?],
           c as [ic xc sc ? ? ? ? ? ? ? ? ? ? oc ? ? ?].
  cbn [ev_id external_id external_source] in *. subst.
  unfold ranked_duplicates, row_number, is_not_null, same_text.
  compare_ids ia ib; compare_ids ia ic; compare_ids ib ic;
    try (exfalso; lia);
    repeat first
      [ progress cbn [andb List.filter length map D1.mem existsb orb negb
                        Nat.ltb Nat.leb fst snd ev_id external_id
                        external_source origin]
      | progress rewrite ?jseqb_refl, ?N.ltb_irrefl, ?N.eqb_refl
      | progress rewrite_comparisons
      | match goal with
        | |- context [jseqb ?x ?y] => destruct (jseqb x y)
        end ];
    (split; [reflexivity|]);
    apply Hfinish; cbn [In ev_id]; auto;
    intros e [<-|[<-|[<-|[]]]]; cbn [ev_id]; lia.
Qed.
End JanitorFacts.

Lemma dedupe_triplet_witness :
  let '(w', removed) :=
    cleanDuplicates (api := PlainUrl.plain_url) calm_env world_with_triplet in
  eventsRemoved removed = 2%Z
  /\ exists keep,
      events w' = [keep]
      /\ In keep [duplicate_event 4; duplicate_event 2; duplicate_event 7]
      /\ forall e,
          In e [duplicate_event 4; duplicate_event 2; duplicate_event 7] ->
          ev_id keep <= ev_id e.
Proof.
  apply (dedupe_triplet (api := PlainUrl.plain_url) calm_env world_with_triplet
           (duplicate_event 4) (duplicate_event 2) (duplicate_event 7)
           (js "facebook_post") (js "p1")).
  - reflexivity.
  - discriminate.
  - discriminate.
  - discriminate.
  - intros e [<-|[<-|[<-|[]]]]; split; reflexivity.
Defined.

(** ** Batch controller *)


(* ===================================================================== *)
(** * Further properties of the worker *)
(* ===================================================================== *)

(** ** Headlines *)

Lemma truncate_length (value : jsstring) (max : nat) :
  (1 <= max)%nat -> (length (truncate value max) <= max)%nat.
Proof.
  intros Hmax. unfold truncate.
  destruct (Nat.leb_spec (length value) max) as [Hshort|Hlong]; [exact Hshort|].
  unfold slice0.
  destruct (Z.ltb_spec (Z.of_nat max - 1) 0) as [Hneg|_]; [lia|].
  rewrite length_app, length_firstn. cbn [length]. lia.
Qed.

Lemma truncate_truthy (value : jsstring) (max : nat) :
  truthy value = true -> truthy (truncate value max) = true.
Proof.
  intros Hvalue. unfold truncate.
  destruct (length value <=? max)%nat; [exact Hvalue|].
  destruct (slice0 value (Z.of_nat max - 1)); reflexivity.
Qed.

(** X1. For a limit of at least 1, [truncate] never returns more than the
    limit: a value within the limit comes back unchanged, a longer one
    comes back as its first [max - 1] code units followed by the ellipsis,
    exactly [max] code units long. *)
Theorem truncate_within_limit (value : jsstring) (max : nat) :
  (1 <= max)%nat ->
  (length (truncate value max) <= max)%nat
  /\ ((length value <= max)%nat -> truncate value max = value)
  /\ ((max < length value)%nat ->
      truncate value max = firstn (max - 1) value ++ [ELLIPSIS]
      /\ length (truncate value max) = max).
Proof.
  intros Hmax. split; [apply truncate_length; exact Hmax|].
  unfold truncate. split.
  - intros Hshort. apply Nat.leb_le in Hshort. rewrite Hshort. reflexivity.
  - intros Hlong.
    destruct (Nat.leb_spec (length value) max) as [Hshort|_]; [lia|].
    unfold slice0.
    destruct (Z.ltb_spec (Z.of_nat max - 1) 0) as [Hneg|_]; [lia|].
    replace (Z.to_nat (Z.of_nat max - 1)) with (max - 1)%nat by lia.
    split; [reflexivity|].
    rewrite length_app, length_firstn. cbn [length]. lia.
Qed.

Lemma truncate_within_limit_witness :
  (length (truncate (js "abcdef") 4) <= 4)%nat
  /\ truncate (js "abcdef") 4 = js "abc" ++ [ELLIPSIS].
Proof.
  destruct (truncate_within_limit (js "abcdef") 4 ltac:(lia)) as (Hle & _ & Hcut).
  split; [exact Hle|].
  destruct Hcut as [Hcut _]; [cbn; lia|]. exact Hcut.
Defined.

Lemma jsor_str_truthy (a : option jsstring) (b : jsstring) :
  truthy b = true -> truthy (jsor_str a b) = true.
Proof.
  intros Hb. unfold jsor_str. destruct a as [s|]; [|exact Hb].
  destruct (truthy s) eqn:Hs; [exact Hs|exact Hb].
Qed.

(** X2. Whatever the text, the headline split gives a first line that is
    not empty and at most 120 code units long, and a second line that,
    when there is one, is not empty and at most 180 code units long. *)
Theorem splitMessage_bounds (message : jsstring) :
  truthy (line1 (splitMessage message)) = true
  /\ (length (line1 (splitMessage message)) <= 120)%nat
  /\ forall l, line2 (splitMessage message) = Some l ->
               truthy l = true /\ (length l <= 180)%nat.
Proof.
  unfold splitMessage. destruct (truthy message); cbn [negb line1 line2].
  - split; [apply truncate_truthy, jsor_str_truthy; reflexivity|].
    split; [apply truncate_length; lia|].
    intros l. unfold or_null.
    destruct (truthy (trim (join_space (tl (split_lines (trim message))))))
      eqn:Hrest; cbn; [|discriminate].
    intros [= <-]. split; [apply truncate_truthy; exact Hrest|].
    apply truncate_length. lia.
  - split; [reflexivity|]. split; [cbn; lia|discriminate].
Qed.

(** ** Attachments *)

Lemma walk_node_truthy :
  forall node, Forall (fun u => truthy u = true) (walk_node node).
Proof.
  fix IH 1. intros [src sub d t ty mt]. cbn [walk_node att_src att_sub].
  apply Forall_app. split.
  - destruct src as [s|]; [|constructor].
    destruct (truthy s) eqn:Hs; [|constructor].
    constructor; [exact Hs|constructor].
  - destruct sub as [children|]; [|constructor].
    induction children as [|child children IHc]; [constructor|].
    apply Forall_app. split; [apply IH|exact IHc].
Qed.

Lemma post_photo_urls_truthy (post : FacebookPost) :
  Forall (fun u => truthy u = true) (post_photo_urls post).
Proof.
  assert (Htree : Forall (fun u => truthy u = true)
                         (extractPhotoUrls (post_attachments post))).
  { unfold extractPhotoUrls. destruct (post_attachments post) as [data|];
      [|constructor].
    unfold walk. induction data as [|node data IH]; [constructor|].
    cbn [flat_map]. apply Forall_app. split; [apply walk_node_truthy|exact IH]. }
  unfold post_photo_urls.
  destruct (extractPhotoUrls (post_attachments post)) as [|u urls];
    [|exact Htree].
  destruct (post_full_picture post) as [pic|]; [|constructor].
  destruct (truthy pic) eqn:Hpic; [|constructor].
  constructor; [exact Hpic|constructor].
Qed.

(** X3. Every photo URL taken from a post, whether from the attachment
    tree at any depth or from the top-level picture, is a non-empty
    string; the top-level picture is only used when the tree yields no
    URL at all. *)
Theorem photo_urls_never_empty (post : FacebookPost) :
  Forall (fun u => truthy u = true)
         (extractPhotoUrls (post_attachments post))
  /\ Forall (fun u => truthy u = true) (post_photo_urls post)
  /\ (extractPhotoUrls (post_attachments post) <> [] ->
      post_photo_urls post = extractPhotoUrls (post_attachments post)).
Proof.
  split; [|split; [apply post_photo_urls_truthy|]].
  - unfold extractPhotoUrls. destruct (post_attachments post) as [data|];
      [|constructor].
    unfold walk. induction data as [|node data IH]; [constructor|].
    cbn [flat_map]. apply Forall_app. split; [apply walk_node_truthy|exact IH].
  - unfold post_photo_urls.
    destruct (extractPhotoUrls (post_attachments post)); [congruence|reflexivity].
Qed.

(** X4. The primary attachment is one of the post's top-level
    attachments: the first one marked as a life event when there is such
    a one, else the first attachment; there is none exactly when the post
    has no attachments. *)
Theorem primary_attachment_choice
        (attachments : option (list FacebookAttachment)) :
  match getPrimaryAttachment attachments with
  | Some a =>
      exists before rest,
        attachments = Some (before ++ a :: rest)
        /\ Forall (fun b => is_life_event b = false) before
        /\ (is_life_event a = false ->
            before = [] /\ Forall (fun b => is_life_event b = false) rest)
  | None => attachments = None \/ attachments = Some []
  end.
Proof.
  unfold getPrimaryAttachment. destruct attachments as [data|]; [|auto].
  destruct (List.find is_life_event data) as [life|] eqn:Hfind.
  - induction data as [|x data IH]; [discriminate Hfind|].
    cbn [List.find] in Hfind. destruct (is_life_event x) eqn:Hx.
    + injection Hfind as <-. exists [], data.
      split; [reflexivity|]. split; [constructor|]. congruence.
    + destruct (IH Hfind) as (before & rest & Heq & Hbefore & Hplain).
      injection Heq as ->. exists (x :: before), rest.
      split; [reflexivity|]. split; [constructor; assumption|].
      intros Hlife. apply List.find_some in Hfind. destruct Hfind; congruence.
  - destruct data as [|x data]; [right; reflexivity|]. cbn [hd_error].
    exists [], data. split; [reflexivity|]. split; [constructor|].
    intros _. split; [reflexivity|].
    apply List.Forall_forall. intros b Hb.
    apply (List.find_none _ _ Hfind). right. exact Hb.
Qed.

(** ** Messages without labels *)

Module RegexFacts.
Import Regex.

Section NoSeparator.
Context {R : Type}.
Variable ic : bool.

Lemma star_none (p : N -> bool) (s : jsstring) (k : jsstring -> option R) :
  (forall s', unlabelled s' -> k s' = None) ->
  unlabelled s -> star p s k = None.
Proof.
  intros Hk. induction s as [|c s IH]; intros Hs; cbn [star].
  - apply Hk. exact Hs.
  - destruct (p c); [|apply Hk; exact Hs].
    rewrite IH; [apply Hk; exact Hs|].
    apply List.Forall_inv_tail in Hs. exact Hs.
Qed.

Lemma match_atom_none (a : atom) (s : jsstring) (k : jsstring -> option R) :
  (forall s', unlabelled s' -> k s' = None) ->
  unlabelled s -> match_atom ic a s k = None.
Proof.
  intros Hk Hs. destruct a as [c|p|p|p]; cbn [match_atom].
  - destruct s as [|x s]; [reflexivity|].
    destruct (char_matches ic c x); [|reflexivity].
    apply Hk. apply List.Forall_inv_tail in Hs. exact Hs.
  - destruct s as [|x s]; [reflexivity|].
    destruct (p x); [|reflexivity].
    apply Hk. apply List.Forall_inv_tail in Hs. exact Hs.
  - apply star_none; assumption.
  - destruct s as [|x s]; [reflexivity|].
    destruct (p x); [|reflexivity].
    apply star_none; [exact Hk|].
    apply List.Forall_inv_tail in Hs. exact Hs.
Qed.
End NoSeparator.

(** A pattern that asks for a separator after some plain atoms finds no
    match in a string without one. *)
Lemma match_here_none (ic : bool) (pre : list atom) (post : pattern)
      (cap : option jsstring) :
  forall s, unlabelled s ->
            match_here ic (map Plain pre ++ Plain (ASet colon_or_dash) :: post)
                       s cap = None.
Proof.
  induction pre as [|a pre IH]; intros s Hs; cbn [map app match_here].
  - cbn [match_atom]. destruct s as [|x s]; [reflexivity|].
    apply List.Forall_inv in Hs. rewrite Hs. reflexivity.
  - apply match_atom_none; [|exact Hs]. intros s' Hs'. apply IH. exact Hs'.
Qed.

Lemma exec_none (ic : bool) (pre : list atom) (post : pattern) (s : jsstring) :
  unlabelled s ->
  exec ic (map Plain pre ++ Plain (ASet colon_or_dash) :: post) s = None.
Proof.
  induction s as [|c s IH]; intros Hs; cbn [exec];
    rewrite (match_here_none ic pre post None _ Hs); [reflexivity|].
  apply IH. apply List.Forall_inv_tail in Hs. exact Hs.
Qed.

Lemma label_patterns_need_separator (s : jsstring) :
  unlabelled s ->
  exec true nameRe s = None /\ exec true dateRe s = None
  /\ exec true typeRe s = None /\ exec true postRe s = None.
Proof.
  intros Hs. repeat split.
  - exact (exec_none true
             (map ALit (js "life") ++ [AStar ws] ++ map ALit (js "event")
              ++ [AStar ws] ++ map ALit (js "name") ++ [AStar ws])
             [Plain (AStar ws); Group [APlus dot]] s Hs).
  - exact (exec_none true (map ALit (js "date") ++ [AStar ws])
             [Plain (AStar ws); Group [APlus dot]] s Hs).
  - exact (exec_none true (map ALit (js "type") ++ [AStar ws])
             [Plain (AStar ws); Group [APlus dot]] s Hs).
  - exact (exec_none true (map ALit (js "post") ++ [AStar ws])
             [Plain (AStar ws); Group [APlus any]] s Hs).
Qed.

End RegexFacts.

(** X5. A non-empty message that contains neither a colon nor a dash has
    no labelled field: its title and type come from the primary
    attachment, its date is the trimmed fallback date (null when that is
    empty), and its description is the whole trimmed text, followed by a
    blank line and a [Location:] line when the post names a non-empty
    place that the non-empty trimmed text does not mention. *)
Theorem plain_text_is_the_description
        (message fallbackDate : jsstring)
        (attachments : option (list FacebookAttachment))
        (mainAttachment : option FacebookAttachment)
        (placeName : option jsstring) :
  Forall (fun c => Regex.colon_or_dash c = false) message ->
  truthy message = true ->
  parseStructuredMessage message fallbackDate attachments mainAttachment
                         placeName
  = {| title := jsor (trim <$> (mainAttachment ≫= att_title)) None;
       description :=
         match placeName with
         | Some place =>
             if truthy place && truthy (trim message)
                && negb (includes (trim message) place)
             then Some (trim message ++ [LF; LF] ++ js "Location: " ++ place)
             else Some (trim message)
         | None => Some (trim message)
         end;
       eventDate := or_null (trim fallbackDate);
       eventType := jsor (mainAttachment ≫= att_type) None |}.
Proof.
  intros Hplain Hmessage.
  destruct (RegexFacts.label_patterns_need_separator message Hplain)
    as (Hname & Hdate & Htype & Hpost).
  unfold parseStructuredMessage. rewrite Hname, Hdate, Htype, Hpost, Hmessage.
  cbn [Regex.group1 fmap option_fmap option_map otruthy].
  assert (Hdate' : or_null (trim (jsor_str (jsor None (Some fallbackDate)) []))
                   = or_null (trim fallbackDate)).
  { unfold jsor. cbn [otruthy]. unfold jsor_str.
    destruct (truthy fallbackDate) eqn:Hfb; [reflexivity|].
    destruct fallbackDate; [reflexivity|discriminate Hfb]. }
  rewrite Hdate'. destruct placeName as [place|]; reflexivity.
Qed.

Lemma plain_text_is_the_description_witness :
  description (parseStructuredMessage (js "A day out") (js "2024-01-01")
                                      None None (Some (js "Oslo")))
  = Some (js "A day out" ++ [LF; LF] ++ js "Location: Oslo").
Proof.
  rewrite (plain_text_is_the_description (js "A day out") (js "2024-01-01")
             None None (Some (js "Oslo"))).
  - reflexivity.
  - repeat constructor.
  - reflexivity.
Defined.

Lemma startsWith_refl (s t : jsstring) : startsWith s (s ++ t) = true.
Proof.
  induction s as [|c s IH]; [reflexivity|].
  cbn. rewrite N.eqb_refl. exact IH.
Qed.

Lemma includes_suffix (pre s : jsstring) : includes (pre ++ s) s = true.
Proof.
  induction pre as [|c pre IH]; cbn [app].
  - destruct s as [|x s]; [reflexivity|].
    cbn [includes]. rewrite <- (app_nil_r (x :: s)) at 2.
    rewrite startsWith_refl. reflexivity.
  - cbn [includes]. rewrite IH. apply orb_true_r.
Qed.

Lemma includes_app_r (pre s sub : jsstring) :
  includes s sub = true -> includes (pre ++ s) sub = true.
Proof.
  intros Hs. induction pre as [|c pre IH]; [exact Hs|].
  cbn [app includes]. rewrite IH. apply orb_true_r.
Qed.

(** X6. When a post names a place and the structured description is not
    empty, the description that comes out mentions the place: either it
    did already, or a trailing [Location:] line was added. *)
Theorem description_mentions_place
        (message fallbackDate place d : jsstring)
        (attachments : option (list FacebookAttachment))
        (mainAttachment : option FacebookAttachment) :
  truthy place = true ->
  description (parseStructuredMessage message fallbackDate attachments
                                      mainAttachment (Some place))
  = Some d ->
  truthy d = true ->
  includes d place = true.
Proof.
  intros Hplace. unfold parseStructuredMessage. cbn [description].
  match goal with
  | |- match ?base with Some _ => _ | None => _ end = _ -> _ =>
      destruct base as [d0|]; [|discriminate]
  end.
  rewrite Hplace. cbn [andb].
  destruct (truthy d0) eqn:Hd0; cbn [andb].
  - destruct (includes d0 place) eqn:Hin; cbn [negb].
    + intros [= <-] _. exact Hin.
    + intros [= <-] _. apply includes_app_r.
      change (includes (([LF; LF] ++ js "Location: ") ++ place) place = true).
      apply includes_suffix.
  - intros [= <-] Hd. congruence.
Qed.

Lemma description_mentions_place_witness :
  includes (js "A day out" ++ [LF; LF] ++ js "Location: Oslo") (js "Oslo") = true.
Proof.
  apply (description_mentions_place (js "A day out") [] (js "Oslo") _ None None);
    reflexivity.
Defined.

(** ** Reconciliation: what one call changes *)

Section ReconcileScope.
Context {api : URLApi}.
Variable env : Env.

(** The three results [upsertFacebookPost] can give. *)
Lemma upsert_flags (w : World) (post : FacebookPost)
      (authorProfile : option AuthorProfile) (isLifeEvent : bool) :
  let r := snd (upsertFacebookPost env w post authorProfile isLifeEvent) in
  r = {| processed := false; inserted := false; updated := false |}
  \/ r = {| processed := true; inserted := true; updated := false |}
  \/ r = {| processed := true; inserted := false; updated := true |}.
Proof.
  cbv zeta. unfold upsertFacebookPost.
  destruct (post_id post) as [[|c pid]|]; [auto| |auto].
  cbv zeta.
  match goal with
  | |- context [match ?x with Some _ => _ | None => _ end] =>
      match type of x with option N => destruct x as [id|] end
  end; cbn; auto.
Qed.

Lemma headline_truthy (t : option jsstring) (text : jsstring) :
  truthy (jsor_str t (line1 (splitMessage text))) = true.
Proof.
  apply jsor_str_truthy. unfold splitMessage.
  destruct (truthy text); cbn [negb line1]; [|reflexivity].
  apply truncate_truthy, jsor_str_truthy. reflexivity.
Qed.

Lemma Forall2_map_same {A : Type} (R : A -> A -> Prop) (f : A -> A)
      (l : list A) :
  (forall x, In x l -> R x (f x)) -> Forall2 R l (map f l).
Proof.
  induction l as [|x l IH]; intros H; [constructor|].
  cbn [map]. constructor; [apply H; left; reflexivity|].
  apply IH. intros y Hy. apply H. right. exact Hy.
Qed.

(** X7. A later sighting of a post overwrites the content of its event
    and nothing else.  When the Facebook events stored under the post's
    id all carry one id (so that it does not matter which of them the
    lookup returns), the call reports updated, every event row keeps its
    id, external identity, origin, active and approved flags and creation
    dates, rows with another id are unchanged, and the rows with that id
    end with the sync flag set and a non-empty headline. *)
Theorem resighting_keeps_identity
        (w : World) (post : FacebookPost) (pid : jsstring) (row : EventRecord)
        (authorProfile : option AuthorProfile) (isLifeEvent : bool) :
  post_id post = Some pid -> truthy pid = true ->
  D1.select_facebook_event w pid = Some row -> ev_id row <> 0 ->
  (forall e, In e (events w) -> external_id e = Some pid ->
             origin e = js "facebook" -> ev_id e = ev_id row) ->
  let '(w', r) := upsertFacebookPost env w post authorProfile isLifeEvent in
  r = {| processed := true; inserted := false; updated := true |}
  /\ events_seq w' = events_seq w
  /\ Forall2 (fun e e' =>
                keeps_identity e e'
                /\ (ev_id e <> ev_id row -> e' = e)
                /\ (ev_id e = ev_id row ->
                    sync e' = 1%Z /\ otruthy (event_name_line_1 e') = true))
             (events w) (events w').
Proof.
  intros Hid Hne Hsome Hnz _. unfold upsertFacebookPost. rewrite Hid.
  destruct pid as [|c pid]; [discriminate Hne|].
  cbv zeta. rewrite Hsome.
  apply N.eqb_neq in Hnz. rewrite Hnz.
  split; [reflexivity|].
  match goal with
  | |- context [refresh_photos env ?w0 ?e post] =>
      destruct (refresh_photos_frame env w0 e post) as (-> & -> & _)
  end.
  split; [reflexivity|].
  cbn [events D1.update_event with_events tick].
  apply Forall2_map_same. intros e _.
  destruct (N.eqb_spec (ev_id e) (ev_id row)) as [Heq|Hneq].
  - split; [repeat split|]. split; [congruence|].
    intros _. cbn [sync event_name_line_1 otruthy].
    split; [reflexivity|apply headline_truthy].
  - split; [repeat split|]. split; [reflexivity|congruence].
Qed.


(** X8. The first sighting of a post appends exactly one event and
    changes no other: the new row takes the next rowid, carries the
    post's id with source "facebook_post" and origin "facebook", is
    active, not approved and flagged for push, and has a non-empty
    headline. *)
Theorem first_sighting_appends_event
        (w : World) (post : FacebookPost) (pid : jsstring)
        (authorProfile : option AuthorProfile) (isLifeEvent : bool) :
  post_id post = Some pid -> truthy pid = true ->
  D1.select_facebook_event w pid = None ->
  let '(w', r) := upsertFacebookPost env w post authorProfile isLifeEvent in
  r = {| processed := true; inserted := true; updated := false |}
  /\ events_seq w' = events_seq w + 1
  /\ exists e,
      events w' = events w ++ [e]
      /\ ev_id e = events_seq w + 1
      /\ external_id e = Some pid
      /\ external_source e = Some (js "facebook_post")
      /\ origin e = js "facebook"
      /\ active e = 1%Z /\ approved e = 0%Z /\ sync e = 1%Z
      /\ otruthy (event_name_line_1 e) = true.
Proof.
  intros Hid Hne Hnone. unfold upsertFacebookPost. rewrite Hid.
  destruct pid as [|c pid]; [discriminate Hne|].
  cbv zeta. rewrite Hnone. cbn [D1.insert_event].
  split; [reflexivity|].
  match goal with
  | |- context [refresh_photos env ?w0 ?e post] =>
      destruct (refresh_photos_frame env w0 e post) as (-> & -> & _)
  end.
  split; [reflexivity|].
  eexists. split; [reflexivity|].
  cbn [ev_id external_id external_source origin active approved sync
             event_name_line_1 otruthy].
  repeat split. apply headline_truthy.
Qed.


(** X9. Reconciling a post never deletes an object from the bucket:
    every key stored before the call is still stored after it, orphaned
    photos included. *)
Theorem reconcile_never_deletes_blob
        (w : World) (post : FacebookPost)
        (authorProfile : option AuthorProfile) (isLifeEvent : bool)
        (key : jsstring) :
  is_Some (bucket w !! key) ->
  is_Some (bucket (fst (upsertFacebookPost env w post authorProfile isLifeEvent))
             !! key).
Proof. apply upsert_keeps_blobs. Qed.
End ReconcileScope.

Lemma resighting_keeps_identity_witness :
  let '(w', r) :=
    upsertFacebookPost (api := PlainUrl.plain_url) Scenario.calm_env
                       Scenario.world_ab
                       (Scenario.post_with [Scenario.url_b]) None false in
  r = {| processed := true; inserted := false; updated := true |}
  /\ map approved (events w') = map approved (events Scenario.world_ab).
Proof.
  pose proof (resighting_keeps_identity
                (api := PlainUrl.plain_url) Scenario.calm_env Scenario.world_ab
                (Scenario.post_with [Scenario.url_b]) (js "p1")
                (hd (Scenario.duplicate_event 0) (events Scenario.world_ab))
                None false eq_refl eq_refl eq_refl) as H.
  destruct (upsertFacebookPost (api := PlainUrl.plain_url) Scenario.calm_env
              Scenario.world_ab (Scenario.post_with [Scenario.url_b]) None false)
    as [w' r].
  destruct H as (Hr & _ & Hrows);
    [vm_compute; discriminate
    |intros e He _ _; vm_compute in He; destruct He as [<-|[]]; reflexivity|].
  split; [exact Hr|].
  induction Hrows as [|e e' es es' (Hkeep & _) _ IH]; [reflexivity|].
  cbn [map]. f_equal; [|exact IH].
  destruct Hkeep as (_ & _ & _ & _ & _ & Happroved & _). exact Happroved.
Defined.

Lemma first_sighting_appends_event_witness :
  let '(w', r) :=
    upsertFacebookPost (api := PlainUrl.plain_url) Scenario.calm_env
                       Scenario.empty_world
                       (Scenario.post_with [Scenario.url_a]) None false in
  r = {| processed := true; inserted := true; updated := false |}
  /\ length (events w') = 1%nat.
Proof.
  pose proof (first_sighting_appends_event
                (api := PlainUrl.plain_url) Scenario.calm_env
                Scenario.empty_world (Scenario.post_with [Scenario.url_a])
                (js "p1") None false eq_refl eq_refl eq_refl) as H.
  destruct (upsertFacebookPost (api := PlainUrl.plain_url) Scenario.calm_env
              Scenario.empty_world (Scenario.post_with [Scenario.url_a])
              None false) as [w' r].
  destruct H as (Hr & _ & e & -> & _). split; [exact Hr|reflexivity].
Defined.

Lemma reconcile_never_deletes_blob_witness :
  is_Some (bucket (Scenario.reconcile Scenario.world_ab
                     (Scenario.post_with [Scenario.url_b]))
             !! js "events/1/uuid-2.jpg").
Proof.
  apply (reconcile_never_deletes_blob (api := PlainUrl.plain_url)
           Scenario.calm_env Scenario.world_ab
           (Scenario.post_with [Scenario.url_b]) None false).
  exists {| obj_body := res_body Scenario.jpeg;
            obj_contentType := js "image/jpeg" |}.
  vm_compute. reflexivity.
Defined.

(** ** Reconciliation: photos of other events *)

Section PhotoScope.
Context {api : URLApi}.
Variable env : Env.











End PhotoScope.


(** ** Reconciliation: positions on a first sighting *)

Section Positions.
Context {api : URLApi}.
Variable env : Env.

Lemma first_pass_positions (eid : N) (urls : list jsstring) :
  steady_io env ->
  Forall (fun u => truthy u = true /\ storable env u = true) urls ->
  forall st,
    exists rows,
      event_photos (pass_world (fold_left (photo_step env eid ∅) urls st))
      = event_photos (pass_world st) ++ rows
      /\ Forall (fun p => event_id p = eid) rows
      /\ map (fun p => (original_source_url p, position p)) rows
         = imap (fun i u => (Some u, pass_position st + N.of_nat i)) urls.
Proof.
  intros Hsteady Hall. induction Hall as [|u urls [Ht Hs] _ IH]; intros st.
  - exists []. cbn. rewrite app_nil_r. repeat split. constructor.
  - cbn [fold_left].
    pose proof (persist_outcome env (pass_world st) eid u (pass_position st)
                  Hsteady) as Hpersist.
    cbv zeta in Hpersist. rewrite Hs in Hpersist.
    destruct Hpersist as (p & Hp & Heid & Hsrc & Hpos).
    assert (Hstep : photo_step env eid ∅ st u
                    = {| pass_world :=
                           fst (persistPhotoFromUrl env (pass_world st) eid u
                                  (pass_position st));
                         pass_position := pass_position st + 1;
                         seenSources :=
                           {[normalizeSourceUrl u]} ∪ seenSources st |}).
    { unfold photo_step. rewrite Ht. cbn [negb]. rewrite lookup_empty.
      reflexivity. }
    destruct (IH (photo_step env eid ∅ st u)) as (rows & Hrows & Hown & Hobs).
    rewrite Hstep in Hrows, Hobs. cbn [pass_world pass_position] in Hrows, Hobs.
    rewrite <- Hstep in Hrows. rewrite Hp, <- app_assoc in Hrows.
    exists ([p] ++ rows). split; [exact Hrows|].
    split; [constructor; assumption|].
    cbn [app map imap]. rewrite Hsrc, Hpos, N.add_0_r, Hobs. f_equal.
    apply imap_ext. intros i x _. cbn. f_equal. lia.
Qed.

(** X11. On the first sighting of a post whose photos all download and
    store, the event gets one Photo row per photo URL, in attachment
    order, with positions 0, 1, 2, ... and no gap. *)
Theorem first_sighting_positions_dense
        (w : World) (post : FacebookPost) (pid : jsstring)
        (authorProfile : option AuthorProfile) (isLifeEvent : bool) :
  post_id post = Some pid -> truthy pid = true ->
  store_ok w ->
  D1.select_facebook_event w pid = None ->
  steady_io env ->
  Forall (fun u => storable env u = true) (post_photo_urls post) ->
  photo_positions
    (fst (upsertFacebookPost env w post authorProfile isLifeEvent))
    (events_seq w + 1)
  = imap (fun i u => (Some u, N.of_nat i)) (post_photo_urls post).
Proof.
  intros Hid Hne Hstore Hnone Hsteady Hstorable.
  destruct (upsert_new env w post pid authorProfile isLifeEvent Hid Hne Hnone)
    as (e & wi & -> & _ & _ & _ & _ & Hwiphotos).
  cbn [fst]. set (eid := events_seq w + 1) in *.
  assert (Hold : Forall (fun p => event_id p < eid) (event_photos w)).
  { eapply List.Forall_impl; [|exact Hstore].
    cbn. intros p Hp. unfold eid. lia. }
  assert (Hnophotos : D1.select_photos wi eid = []).
  { apply (select_photos_app wi eid (event_photos w) [] []);
      [rewrite Hwiphotos, app_nil_r; reflexivity|exact Hold|constructor]. }
  assert (Hurls : Forall (fun u => truthy u = true /\ storable env u = true)
                         (post_photo_urls post)).
  { pose proof (post_photo_urls_truthy post) as Htruthy.
    rewrite List.Forall_forall in *. intros u Hu. auto. }
  destruct (first_pass_positions eid (post_photo_urls post) Hsteady Hurls
              {| pass_world := wi; pass_position := 0; seenSources := ∅ |})
    as (rows & Hrows & Hown & Hobs).
  cbn [pass_world pass_position] in Hrows, Hobs.
  assert (Hw1 : refresh_photos env wi eid post
                = pass_world
                    (fold_left (photo_step env eid ∅) (post_photo_urls post)
                       {| pass_world := wi; pass_position := 0;
                          seenSources := ∅ |})).
  { unfold refresh_photos. rewrite Hnophotos. reflexivity. }
  unfold photo_positions, D1.select_photos.
  rewrite Hw1, Hrows, Hwiphotos, List.filter_app.
  assert (Hnone' : List.filter (fun p => event_id p =? eid) (event_photos w) = []).
  { clear -Hold. induction Hold as [|p l Hp _ IH]; [reflexivity|].
    cbn. destruct (N.eqb_spec (event_id p) eid); [lia|exact IH]. }
  assert (Hall : List.filter (fun p => event_id p =? eid) rows = rows).
  { clear -Hown. induction Hown as [|p l Hp _ IH]; [reflexivity|].
    cbn. rewrite Hp, N.eqb_refl, IH. reflexivity. }
  rewrite Hnone', Hall. cbn [app]. rewrite Hobs.
  apply imap_ext. intros i u _. reflexivity.
Qed.
End Positions.

Lemma first_sighting_positions_dense_witness :
  photo_positions
    (fst (upsertFacebookPost (api := PlainUrl.plain_url) Scenario.calm_env
            Scenario.empty_world
            (Scenario.post_with [Scenario.url_a; Scenario.url_b]) None false))
    1
  = [(Some Scenario.url_a, 0); (Some Scenario.url_b, 1)].
Proof.
  apply (first_sighting_positions_dense (api := PlainUrl.plain_url)
           Scenario.calm_env Scenario.empty_world
           (Scenario.post_with [Scenario.url_a; Scenario.url_b]) (js "p1")
           None false).
  - reflexivity.
  - reflexivity.
  - constructor.
  - reflexivity.
  - apply calm_steady.
  - repeat constructor.
Defined.

(** ** Batch controller: counters, noise and chaining *)

Section BatchScope.
Context {api : URLApi}.
Variable env : Env.

Lemma process_posts_balanced (authorProfile : option AuthorProfile)
      (target : jsnumber) (start : World) (page : list FacebookPost) :
  forall st,
    loop_balanced start st ->
    loop_balanced start (process_posts env authorProfile target page st).
Proof.
  induction page as [|post page IH]; intros st Hst; [exact Hst|].
  cbn [process_posts].
  destruct (negb (has_text post)); [apply IH; exact Hst|].
  destruct (num_le target (of_Z (lp_processed st))); [exact Hst|].
  pose proof (upsert_frame env (lp_world st) post authorProfile
                (hasLifeEventAttachment post
                 || str_is (post_status_type post) (js "life_event")))
    as [_ Hchain].
  pose proof (upsert_flags env (lp_world st) post authorProfile
                (hasLifeEventAttachment post
                 || str_is (post_status_type post) (js "life_event")))
    as Hflags.
  destruct (upsertFacebookPost _ _ _ _ _) as [w result].
  cbn [fst snd] in Hchain, Hflags. cbv zeta in Hflags.
  apply IH. destruct Hst as (Hsum & Hi & Hu & Hc).
  destruct Hflags as [ -> | [ -> | -> ] ]; cbn; unfold loop_balanced; cbn;
    rewrite Hchain; repeat split; try assumption; lia.
Qed.

Lemma fetch_feed_chain (w : World) (opts : FeedOpts) :
  chained (fst (fetchFacebookFeed env w opts)) = chained w.
Proof.
  unfold fetchFacebookFeed.
  destruct (feed_fetch _ _ _) as [res|]; [|reflexivity].
  destruct (negb (status_ok (feed_status res))); [reflexivity|].
  destruct (feed_json res); reflexivity.
Qed.

Lemma fetch_loop_balanced (authorProfile : option AuthorProfile)
      (limit target : jsnumber) (start : World) (remaining : nat) :
  forall st,
    loop_balanced start st ->
    match fetch_loop env authorProfile limit target remaining st with
    | (Returned st', w') => loop_balanced start st' /\ w' = lp_world st'
    | (Threw _, w') => chained w' = chained start
    end.
Proof.
  induction remaining as [|remaining IH]; intros st Hst; [cbn; auto|].
  cbn [fetch_loop].
  destruct (num_lt (of_Z (lp_processed st)) target); [|auto].
  pose proof (fetch_feed_chain (lp_world st)
                {| fo_limit := Some limit; fo_cursor := lp_cursor st |}) as Hfeed.
  destruct (fetchFacebookFeed env (lp_world st) _) as [w [message|page]];
    cbn [fst] in Hfeed.
  - rewrite Hfeed. apply Hst.
  - assert (Hafter : loop_balanced start
                       {| lp_world := w; lp_cursor := lp_cursor st;
                          lp_processed := lp_processed st;
                          lp_lastCursor := lp_lastCursor st;
                          lp_inserted := lp_inserted st;
                          lp_updated := lp_updated st |}).
    { destruct Hst as (Hsum & Hi & Hu & Hc). unfold loop_balanced. cbn.
      rewrite Hfeed. auto. }
    destruct (posts page) as [|post rest]; [auto|].
    pose proof (process_posts_balanced authorProfile target start (post :: rest)
                  _ Hafter) as Hdone.
    match goal with
    | |- context [process_posts env authorProfile target (post :: rest) ?s] =>
        set (after := process_posts env authorProfile target (post :: rest) s)
          in *
    end.
    cbn [lp_world lp_processed lp_lastCursor lp_cursor lp_inserted lp_updated].
    destruct (num_le target (of_Z (lp_processed after))
              || negb (otruthy (page_nextCursor page))).
    + split; [exact Hdone|reflexivity].
    + apply IH. exact Hdone.
Qed.

(** X12. In the summary of a batch the processed count is the sum of the
    inserted and the updated counts, neither of which is negative: every
    reconciled post counts as exactly one of the two. *)
Theorem batch_counts_add_up
        (w : World) (requestToken : option jsstring) (opts : SyncOpts) :
  match snd (syncFromFacebookToD1 env w requestToken opts) with
  | Returned s =>
      eventsProcessed s = (sum_inserted s + sum_updated s)%Z
      /\ (0 <= sum_inserted s)%Z /\ (0 <= sum_updated s)%Z
  | Threw _ => True
  end.
Proof.
  unfold syncFromFacebookToD1.
  destruct (fetchAuthorProfile env w) as [w0 profile].
  match goal with
  | |- context [fetch_loop env ?p ?l ?t PAGE_CEILING ?s] =>
      pose proof (fetch_loop_balanced p l t w0 PAGE_CEILING s) as Hloop;
      destruct (fetch_loop env p l t PAGE_CEILING s) as [[message|st] w1]
  end; [exact I|].
  destruct Hloop as [(Hsum & Hi & Hu & _) _];
    [unfold loop_balanced; cbn; repeat split; lia|].
  destruct (lp_lastCursor st) as [cursor|]; [|cbn; auto].
  destruct (_ && so_shouldChain opts); cbn; auto.
Qed.

(** X13. A batch schedules a follow-up call exactly when it reports
    hasMore and chaining was requested; it schedules one call, which
    carries the summary's cursor and the request's token.  A batch that
    throws schedules none. *)
Theorem batch_chains_only_when_asked
        (w : World) (requestToken : option jsstring) (opts : SyncOpts) :
  match syncFromFacebookToD1 env w requestToken opts with
  | (w', Returned s) =>
      chained w'
      = chained w
        ++ (if hasMore s && so_shouldChain opts
            then [{| chain_cursor := default [] (nextCursor s);
                     chain_token := requestToken |}]
            else [])
  | (w', Threw _) => chained w' = chained w
  end.
Proof.
  unfold syncFromFacebookToD1.
  assert (Hprofile : chained (fst (fetchAuthorProfile env w)) = chained w).
  { unfold fetchAuthorProfile.
    destruct (profile_fetch _ _) as [res|]; [|reflexivity].
    destruct (negb (status_ok (prof_status res))); [reflexivity|].
    destruct (prof_json res); reflexivity. }
  destruct (fetchAuthorProfile env w) as [w0 profile]. cbn [fst] in Hprofile.
  match goal with
  | |- context [fetch_loop env ?p ?l ?t PAGE_CEILING ?s] =>
      pose proof (fetch_loop_balanced p l t w0 PAGE_CEILING s) as Hloop;
      destruct (fetch_loop env p l t PAGE_CEILING s) as [[message|st] w1]
  end.
  - rewrite <- Hprofile. apply Hloop. unfold loop_balanced. cbn.
    repeat split; lia.
  - destruct Hloop as [(_ & _ & _ & Hchain) Hw1];
      [unfold loop_balanced; cbn; repeat split; lia|].
    subst w1.
    rewrite Hprofile in Hchain.
    destruct (lp_lastCursor st) as [cursor|] eqn:Hcursor.
    + destruct (num_le (batch_target opts) (of_Z (lp_processed st))
                && otruthy (Some cursor));
        destruct (so_shouldChain opts);
        cbn [andb hasMore nextCursor chained schedule default];
        rewrite Hchain, ?app_nil_r; reflexivity.
    + cbn [hasMore nextCursor otruthy chained andb].
      rewrite andb_false_r, Hchain. cbn [andb]. rewrite app_nil_r. reflexivity.
Qed.

(** X14. Posts that carry neither message nor story text are skipped:
    a page is processed exactly as the page without them. *)
Theorem noise_posts_are_skipped
        (authorProfile : option AuthorProfile) (target : jsnumber)
        (page : list FacebookPost) (st : LoopState) :
  process_posts env authorProfile target page st
  = process_posts env authorProfile target (List.filter has_text page) st.
Proof.
  revert st. induction page as [|post page IH]; intros st; [reflexivity|].
  cbn [process_posts List.filter].
  destruct (has_text post) eqn:Htext; cbn [negb]; [|apply IH].
  cbn [process_posts]. rewrite Htext. cbn [negb].
  destruct (num_le target (of_Z (lp_processed st))); [reflexivity|].
  destruct (upsertFacebookPost _ _ _ _ _) as [w result]. apply IH.
Qed.
End BatchScope.

Lemma after_cursor (cursor : option jsstring) :
  match jsor cursor None with
  | Some c => truthy c = true /\ cursor = Some c
  | None => otruthy cursor = false
  end.
Proof.
  unfold jsor. destruct cursor as [c|]; cbn [otruthy]; [|reflexivity].
  destruct (truthy c) eqn:Hc; auto.
Qed.

(** X15. Whatever limit and cursor are asked for, the limit sent to the
    feed API is a positive number of at most 100: the requested one when
    that is positive and at most 100 (a fraction is sent as it is), 100
    when it is larger, and 25 when it is missing, zero, negative or not a
    number; and the [after] cursor is either absent or non-empty. *)
Theorem feed_request_in_range (opts : FeedOpts) :
  let sent := req_limit (feed_request opts) in
  num_lt (of_Z 0) sent = true
  /\ num_le sent (of_Z 100) = true
  /\ (forall l, fo_limit opts = Some l ->
                num_lt (of_Z 0) l = true -> num_le l (of_Z 100) = true ->
                sent = l)
  /\ (forall l, fo_limit opts = Some l ->
                num_lt (of_Z 100) l = true -> sent = of_Z 100)
  /\ (forall l, fo_limit opts = Some l ->
                num_lt (of_Z 0) l = false -> sent = of_Z 25)
  /\ (fo_limit opts = None -> sent = of_Z 25)
  /\ match req_after (feed_request opts) with
     | Some c => truthy c = true /\ fo_cursor opts = Some c
     | None => otruthy (fo_cursor opts) = false
     end.
Proof.
  cbv zeta. unfold feed_request. cbn [req_limit req_after].
  repeat split; try apply after_cursor.
  - destruct (fo_limit opts) as [l|]; [|reflexivity].
    destruct l as [|[|]|n d]; try reflexivity.
    compare_numbers.
  - destruct (fo_limit opts) as [l|]; [|reflexivity].
    destruct l as [|[|]|n d]; try reflexivity.
    compare_numbers.
  - intros l -> Hpos Hle.
    destruct l as [|[|]|n d]; try discriminate.
    compare_numbers.
  - intros l -> Hbig.
    destruct l as [|[|]|n d]; try discriminate; try reflexivity.
    compare_numbers.
  - intros l -> Hneg.
    destruct l as [|[|]|n d]; try discriminate; try reflexivity.
    compare_numbers.
  - intros ->. reflexivity.
Qed.

(** ** Batch: where the fetch loop stops *)





Section BatchStops.
Context {api : URLApi}.
Variable env : Env.





End BatchStops.

(** ** Duplicate janitor: the events passes in general *)

Lemma mem_In (x : N) (l : list N) : D1.mem x l = true <-> In x l.
Proof.
  unfold D1.mem. rewrite existsb_exists. split.
  - intros (y & Hy & Heq). apply N.eqb_eq in Heq. subst y. exact Hy.
  - intros Hx. exists x. split; [exact Hx|apply N.eqb_refl].
Qed.

Lemma same_text_true (a b : option jsstring) :
  same_text a b = true <-> exists x, a = Some x /\ b = Some x.
Proof.
  unfold same_text. destruct a as [x|], b as [y|]; split;
    try discriminate; try (intros (z & H1 & H2); discriminate).
  - intros H. apply jseqb_eq in H. subst y. eauto.
  - intros (z & [= ->] & [= ->]). apply jseqb_refl.
Qed.

Lemma same_text_sym (a b : option jsstring) :
  same_text a b = true -> same_text b a = true.
Proof.
  rewrite !same_text_true. intros (x & -> & ->). eauto.
Qed.

Lemma same_text_trans (a b c : option jsstring) :
  same_text a b = true -> same_text b c = true -> same_text a c = true.
Proof.
  rewrite !same_text_true. intros (x & -> & ->) (y & [= <-] & ->). eauto.
Qed.

Lemma NoDup_ids_filter (f : EventRecord -> bool) (l : list EventRecord) :
  NoDup (map ev_id l) -> NoDup (map ev_id (List.filter f l)).
Proof.
  induction l as [|e l IH]; intros Hnd; [constructor|].
  cbn [map] in Hnd. apply NoDup_cons in Hnd as [He Hnd].
  cbn [List.filter]. destruct (f e); [|apply IH; exact Hnd].
  cbn [map]. apply NoDup_cons. split; [|apply IH; exact Hnd].
  intros Hin. apply He. apply list_elem_of_In in Hin. apply list_elem_of_In.
  apply List.in_map_iff in Hin as (x & Hx & Hxin).
  apply List.filter_In in Hxin as [Hxin _].
  apply List.in_map_iff. eauto.
Qed.

Lemma unique_event_id (l : list EventRecord) (a b : EventRecord) :
  NoDup (map ev_id l) -> In a l -> In b l -> ev_id a = ev_id b -> a = b.
Proof.
  induction l as [|x l IH]; intros Hnd Ha Hb Heq; [destruct Ha|].
  cbn [map] in Hnd. apply NoDup_cons in Hnd as [Hx Hnd].
  assert (Hfresh : forall y, In y l -> ev_id y <> ev_id x).
  { intros y Hy Hyx. apply Hx. rewrite <- Hyx.
    apply list_elem_of_In, List.in_map, Hy. }
  destruct Ha as [<-|Ha], Hb as [<-|Hb]; auto.
  - exfalso. apply (Hfresh b Hb). congruence.
  - exfalso. apply (Hfresh a Ha). congruence.
Qed.

Lemma filter_split_length {A : Type} (f : A -> bool) (l : list A) :
  (length (List.filter f l) + length (List.filter (fun x => negb (f x)) l)
   = length l)%nat.
Proof.
  induction l as [|x l IH]; [reflexivity|].
  cbn [List.filter]. destruct (f x); cbn [negb length]; lia.
Qed.

Lemma filter_sublist {A : Type} (f : A -> bool) (l : list A) :
  sublist (List.filter f l) l.
Proof.
  induction l as [|x l IH]; [constructor|].
  cbn [List.filter]. destruct (f x); [apply sublist_skip|apply sublist_cons];
    exact IH.
Qed.

Section RankedPass.
Context {K : Type}.
Variable same : K -> K -> bool.
Variable key : EventRecord -> K.
Variable sel : EventRecord -> bool.
Variable table : list EventRecord.

Lemma outranked_iff (r : EventRecord) :
  outranked same key sel table r = true <->
  exists r', In r' table /\ sel r' = true
             /\ same (key r') (key r) = true /\ ev_id r' < ev_id r.
Proof.
  unfold outranked, row_number. split.
  - intros H. apply Nat.ltb_lt in H.
    destruct (List.filter _ (List.filter sel table)) as [|r' rest] eqn:Hf;
      [cbn in H; lia|].
    assert (Hin : In r' (r' :: rest)) by (left; reflexivity).
    rewrite <- Hf in Hin.
    apply List.filter_In in Hin as [Hin Hcond].
    apply List.filter_In in Hin as [Hin Hsel].
    apply andb_prop in Hcond as [Hsame Hlt]. apply N.ltb_lt in Hlt.
    exists r'. auto.
  - intros (r' & Hin & Hsel & Hsame & Hlt).
    apply Nat.ltb_lt.
    assert (Hmem : In r' (List.filter
                            (fun x => same (key x) (key r) && (ev_id x <? ev_id r))
                            (List.filter sel table))).
    { apply List.filter_In. split; [apply List.filter_In; auto|].
      rewrite Hsame. apply N.ltb_lt in Hlt. rewrite Hlt. reflexivity. }
    destruct (List.filter _ (List.filter sel table)); [destruct Hmem|cbn; lia].
Qed.

Lemma pass_ids_iff (x : N) :
  In x (pass_ids same key sel table) <->
  exists r, In r table /\ sel r = true /\ outranked same key sel table r = true /\ ev_id r = x.
Proof.
  unfold pass_ids, ranked_duplicates. rewrite List.in_map_iff. split.
  - intros (r & Hx & Hr). apply List.filter_In in Hr as [Hr Hout].
    apply List.filter_In in Hr as [Hr Hsel]. exists r. auto.
  - intros (r & Hr & Hsel & Hout & Hx). exists r. split; [exact Hx|].
    apply List.filter_In. split; [apply List.filter_In; auto|exact Hout].
Qed.

(** A row that has a smaller selected row of its partition is deleted. *)
Lemma outranked_not_kept (r1 r2 : EventRecord) :
  In r1 table -> sel r1 = true -> sel r2 = true ->
  same (key r1) (key r2) = true -> ev_id r1 < ev_id r2 ->
  ~ In r2 (pass_kept same key sel table).
Proof.
  intros H1 Hs1 Hs2 Hsame Hlt Hkept.
  apply List.filter_In in Hkept as [H2 Hmem].
  apply negb_true_iff in Hmem.
  assert (Hin : In (ev_id r2) (pass_ids same key sel table)).
  { apply pass_ids_iff. exists r2. repeat split; auto.
    apply outranked_iff. exists r1. auto. }
  apply mem_In in Hin. congruence.
Qed.

Hypothesis unique : NoDup (map ev_id table).

Lemma deleted_iff (e : EventRecord) :
  In e table ->
  (D1.mem (ev_id e) (pass_ids same key sel table) = true <-> sel e = true /\ outranked same key sel table e = true).
Proof.
  intros He. rewrite mem_In, pass_ids_iff. split.
  - intros (r & Hr & Hsel & Hout & Hid).
    rewrite <- (unique_event_id table r e unique Hr He Hid). auto.
  - intros [Hsel Hout]. exists e. auto.
Qed.

Lemma pass_count :
  (length (pass_ids same key sel table) + length (pass_kept same key sel table) = length table)%nat.
Proof.
  unfold pass_kept.
  rewrite <- (filter_split_length (fun e => D1.mem (ev_id e) (pass_ids same key sel table)) table).
  f_equal. unfold pass_ids at 1, ranked_duplicates.
  rewrite length_map. fold (outranked same key sel table).
  assert (Hstep : forall l,
             incl l table ->
             length (List.filter (outranked same key sel table) (List.filter sel l))
             = length (List.filter (fun e => D1.mem (ev_id e) (pass_ids same key sel table)) l)).
  { induction l as [|e l IH]; intros Hincl; [reflexivity|].
    assert (He : In e table) by (apply Hincl; left; reflexivity).
    assert (Hl : incl l table) by (intros x Hx; apply Hincl; right; exact Hx).
    cbn [List.filter]. pose proof (deleted_iff e He) as Hdel.
    destruct (sel e) eqn:Hsel; cbn [List.filter].
    - destruct (outranked same key sel table e) eqn:Hout.
      + rewrite (proj2 Hdel (conj eq_refl eq_refl)). cbn [length].
        rewrite (IH Hl). reflexivity.
      + destruct (D1.mem (ev_id e) (pass_ids same key sel table)) eqn:Hmem;
          [destruct (proj1 Hdel eq_refl); discriminate|apply IH; exact Hl].
    - destruct (D1.mem (ev_id e) (pass_ids same key sel table)) eqn:Hmem;
        [destruct (proj1 Hdel eq_refl); discriminate|apply IH; exact Hl]. }
  apply Hstep, incl_refl.
Qed.

Hypothesis same_refl : forall r, sel r = true -> same (key r) (key r) = true.
Hypothesis same_trans :
  forall a b c, same a b = true -> same b c = true -> same a c = true.

(** Every selected row has a representative that the pass keeps. *)
Lemma pass_survivor (e : EventRecord) :
  In e table -> sel e = true ->
  exists m, In m (pass_kept same key sel table) /\ sel m = true
            /\ same (key m) (key e) = true /\ ev_id m <= ev_id e.
Proof.
  remember (ev_id e) as n eqn:Hn. revert e Hn.
  induction n as [n IH] using (well_founded_induction N.lt_wf_0).
  intros e Hn He Hsel.
  destruct (outranked same key sel table e) eqn:Hout.
  - apply outranked_iff in Hout as (r' & Hr' & Hsel' & Hsame & Hlt).
    destruct (IH (ev_id r') ltac:(lia) r' eq_refl Hr' Hsel')
      as (m & Hm & Hmsel & Hmsame & Hmle).
    exists m. repeat split; auto; [eapply same_trans; eassumption|lia].
  - exists e. repeat split; auto; [|lia].
    apply List.filter_In. split; [exact He|].
    apply negb_true_iff.
    destruct (D1.mem (ev_id e) (pass_ids same key sel table)) eqn:Hmem; [|reflexivity].
    apply (deleted_iff e He) in Hmem as [_ Hout']. congruence.
Qed.
End RankedPass.

Section JanitorScope.
Context {api : URLApi}.
Variable env : Env.

Lemma cleanDuplicates_passes (w : World) :
  events (fst (cleanDuplicates env w)) = after_both (events w)
  /\ eventsRemoved (snd (cleanDuplicates env w))
     = (Z.of_nat (length (pass_ids pair_same pair_key pair_sel (events w)))
        + Z.of_nat (length (pass_ids same_text external_id facebook_sel
                                     (after_pairs (events w)))))%Z.
Proof. exact (cleanDuplicates_events env w). Qed.

Lemma is_not_null_same (a b : option jsstring) :
  same_text a b = true -> is_not_null a = true /\ is_not_null b = true.
Proof.
  rewrite same_text_true. intros (x & -> & ->). split; reflexivity.
Qed.

Lemma same_pair_selected (a b : EventRecord) :
  same_pair a b = true ->
  pair_sel a = true /\ pair_sel b = true
  /\ pair_same (pair_key a) (pair_key b) = true
  /\ pair_same (pair_key b) (pair_key a) = true.
Proof.
  unfold same_pair, pair_sel, pair_same, pair_key. cbn [fst snd].
  intros H. apply andb_prop in H as [Hs He].
  destruct (is_not_null_same _ _ Hs) as [-> ->].
  destruct (is_not_null_same _ _ He) as [-> ->].
  rewrite Hs, He, (same_text_sym _ _ Hs), (same_text_sym _ _ He). auto.
Qed.

Lemma same_facebook_selected (a b : EventRecord) :
  same_facebook_id a b = true ->
  facebook_sel a = true /\ facebook_sel b = true
  /\ same_text (external_id a) (external_id b) = true
  /\ same_text (external_id b) (external_id a) = true.
Proof.
  unfold same_facebook_id, facebook_sel.
  intros H. apply andb_prop in H as [H Hb]. apply andb_prop in H as [He Ha].
  destruct (is_not_null_same _ _ He) as [-> ->].
  rewrite Ha, Hb, He, (same_text_sym _ _ He). auto.
Qed.

(** X16. After one dedupe pass no two events with different ids share a
    non-null (external_source, external_id) pair, and no two
    Facebook-origin events with different ids share a non-null
    external_id; the events left are events of the store, in their
    order. *)
Theorem dedupe_leaves_no_duplicate (w : World) :
  let w' := fst (cleanDuplicates env w) in
  sublist (events w') (events w)
  /\ forall e1 e2,
      In e1 (events w') -> In e2 (events w') -> ev_id e1 <> ev_id e2 ->
      same_pair e1 e2 = false /\ same_facebook_id e1 e2 = false.
Proof.
  cbv zeta. destruct (cleanDuplicates_passes w) as [-> _].
  unfold after_both, after_pairs, pass_kept. split.
  - etransitivity; apply filter_sublist.
  - intros e1 e2 H1 H2 Hne.
    assert (Hleft : forall e,
               In e (after_both (events w)) ->
               In e (after_pairs (events w)) /\ In e (events w)).
    { intros e He. apply List.filter_In in He as [He _]. split; [exact He|].
      apply List.filter_In in He as [He _]. exact He. }
    destruct (Hleft e1 H1) as [H1l H1t], (Hleft e2 H2) as [H2l H2t].
    split.
    + destruct (same_pair e1 e2) eqn:Hsame; [exfalso|reflexivity].
      destruct (same_pair_selected e1 e2 Hsame) as (Hs1 & Hs2 & H12 & H21).
      destruct (N.lt_trichotomy (ev_id e1) (ev_id e2)) as [Hlt|[Heq|Hgt]];
        [|congruence|].
      * exact (outranked_not_kept pair_same pair_key pair_sel (events w)
                 e1 e2 H1t Hs1 Hs2 H12 Hlt H2l).
      * exact (outranked_not_kept pair_same pair_key pair_sel (events w)
                 e2 e1 H2t Hs2 Hs1 H21 Hgt H1l).
    + destruct (same_facebook_id e1 e2) eqn:Hsame; [exfalso|reflexivity].
      destruct (same_facebook_selected e1 e2 Hsame) as (Hs1 & Hs2 & H12 & H21).
      destruct (N.lt_trichotomy (ev_id e1) (ev_id e2)) as [Hlt|[Heq|Hgt]];
        [|congruence|].
      * exact (outranked_not_kept same_text external_id facebook_sel
                 (after_pairs (events w)) e1 e2 H1l Hs1 Hs2 H12 Hlt H2).
      * exact (outranked_not_kept same_text external_id facebook_sel
                 (after_pairs (events w)) e2 e1 H2l Hs2 Hs1 H21 Hgt H1).
Qed.

(** X17. With unique event ids, the count a dedupe pass reports is the
    number of event rows it deleted, and no upstream object is lost:
    for every deleted event an event with the same non-null external_id
    and a smaller id is left in the store. *)
Theorem dedupe_keeps_a_representative (w : World) :
  NoDup (map ev_id (events w)) ->
  let '(w', removed) := cleanDuplicates env w in
  (eventsRemoved removed
   = Z.of_nat (length (events w)) - Z.of_nat (length (events w')))%Z
  /\ forall e,
      In e (events w) -> ~ In e (events w') ->
      exists s,
        In s (events w') /\ ev_id s < ev_id e
        /\ same_text (external_id s) (external_id e) = true.
Proof.
  intros Hnd. destruct (cleanDuplicates_passes w) as [Hevents Hcount].
  destruct (cleanDuplicates env w) as [w' removed].
  cbn [fst snd] in Hevents, Hcount. rewrite Hevents, Hcount. clear Hevents Hcount.
  assert (Hnd1 : NoDup (map ev_id (after_pairs (events w))))
    by (apply NoDup_ids_filter; exact Hnd).
  pose proof (pass_count pair_same pair_key pair_sel (events w) Hnd) as Hc1.
  pose proof (pass_count same_text external_id facebook_sel
                         (after_pairs (events w)) Hnd1) as Hc2.
  fold (after_pairs (events w)) in Hc1. fold (after_both (events w)) in Hc2.
  split; [lia|].
  assert (Hpair_refl : forall r, pair_sel r = true ->
                                 pair_same (pair_key r) (pair_key r) = true).
  { intros r Hr. unfold pair_sel, pair_same, pair_key in *. cbn [fst snd].
    destruct (external_source r), (external_id r); try discriminate.
    cbn. rewrite !jseqb_refl. reflexivity. }
  assert (Hpair_trans : forall a b c, pair_same a b = true ->
                                      pair_same b c = true ->
                                      pair_same a c = true).
  { intros a b c Hab Hbc. unfold pair_same in *.
    apply andb_prop in Hab as [Hab1 Hab2]. apply andb_prop in Hbc as [Hbc1 Hbc2].
    rewrite (same_text_trans _ _ _ Hab1 Hbc1), (same_text_trans _ _ _ Hab2 Hbc2).
    reflexivity. }
  assert (Hfb_refl : forall r, facebook_sel r = true ->
                               same_text (external_id r) (external_id r) = true).
  { intros r Hr. unfold facebook_sel in Hr.
    destruct (external_id r); [cbn; apply jseqb_refl|discriminate]. }
  (* a row kept by the first pass and deleted by the second *)
  assert (Hsecond : forall m,
             In m (after_pairs (events w)) -> ~ In m (after_both (events w)) ->
             exists s, In s (after_both (events w)) /\ ev_id s < ev_id m
                       /\ same_text (external_id s) (external_id m) = true).
  { intros m Hm Hgone.
    assert (Hdel : D1.mem (ev_id m)
                     (pass_ids same_text external_id facebook_sel
                               (after_pairs (events w))) = true).
    { destruct (D1.mem _ _) eqn:Hmem; [reflexivity|]. exfalso. apply Hgone.
      apply List.filter_In. split; [exact Hm|]. rewrite Hmem. reflexivity. }
    apply (deleted_iff same_text external_id facebook_sel _ Hnd1 m Hm)
      in Hdel as [Hsel _].
    destruct (pass_survivor same_text external_id facebook_sel
                (after_pairs (events w)) Hnd1 Hfb_refl same_text_trans m Hm Hsel)
      as (s & Hs & _ & Hsame & Hle).
    exists s. repeat split; auto.
    destruct (N.eq_dec (ev_id s) (ev_id m)) as [Heq|Hneq]; [|lia].
    exfalso. apply Hgone.
    assert (Hsl : In s (after_pairs (events w)))
      by (apply List.filter_In in Hs as [Hs _]; exact Hs).
    rewrite <- (unique_event_id _ s m Hnd1 Hsl Hm Heq). exact Hs. }
  intros e He Hgone.
  destruct (D1.mem (ev_id e) (pass_ids pair_same pair_key pair_sel (events w)))
    eqn:Hmem.
  - apply (deleted_iff pair_same pair_key pair_sel _ Hnd e He)
      in Hmem as Hdel. destruct Hdel as [Hsel _].
    destruct (pass_survivor pair_same pair_key pair_sel (events w) Hnd
                Hpair_refl Hpair_trans e He Hsel)
      as (m & Hm & _ & Hsame & Hle).
    fold (after_pairs (events w)) in Hm.
    assert (Hmt : In m (events w))
      by (apply List.filter_In in Hm as [Hm _]; exact Hm).
    assert (Hlt : ev_id m < ev_id e).
    { destruct (N.eq_dec (ev_id m) (ev_id e)) as [Heq|Hneq]; [exfalso|lia].
      rewrite (unique_event_id _ m e Hnd Hmt He Heq) in Hm.
      apply List.filter_In in Hm as [_ Hm]. rewrite Hmem in Hm. discriminate. }
    assert (Hext : same_text (external_id m) (external_id e) = true).
    { unfold pair_same, pair_key in Hsame. cbn [fst snd] in Hsame.
      apply andb_prop in Hsame as [_ Hsame]. exact Hsame. }
    destruct (D1.mem (ev_id m)
                (pass_ids same_text external_id facebook_sel
                          (after_pairs (events w)))) eqn:Hmem2.
    + destruct (Hsecond m Hm) as (s & Hs & Hslt & Hsext).
      { intros Hin. apply List.filter_In in Hin as [_ Hin].
        rewrite Hmem2 in Hin. discriminate. }
      exists s. split; [exact Hs|]. split; [lia|].
      exact (same_text_trans _ _ _ Hsext Hext).
    + exists m. split; [|split; [exact Hlt|exact Hext]].
      apply List.filter_In. split; [exact Hm|]. rewrite Hmem2. reflexivity.
  - apply (Hsecond e); [|exact Hgone].
    apply List.filter_In. split; [exact He|]. rewrite Hmem. reflexivity.
Qed.
End JanitorScope.

Lemma dedupe_keeps_a_representative_witness :
  NoDup (map ev_id (events world_with_triplet))
  /\ let '(w', removed) :=
       cleanDuplicates (api := PlainUrl.plain_url) calm_env world_with_triplet in
     (eventsRemoved removed
      = Z.of_nat (length (events world_with_triplet))
        - Z.of_nat (length (events w')))%Z
     /\ forall e,
         In e (events world_with_triplet) -> ~ In e (events w') ->
         exists s,
           In s (events w') /\ ev_id s < ev_id e
           /\ same_text (external_id s) (external_id e) = true.
Proof.
  assert (H : NoDup (map ev_id (events world_with_triplet)))
    by (cbn; repeat (apply NoDup_cons_2;
                     [rewrite ?elem_of_cons, elem_of_nil; lia|]);
        apply NoDup_nil_2).
  split; [exact H|].
  exact (dedupe_keeps_a_representative (api := PlainUrl.plain_url) calm_env
           world_with_triplet H).
Defined.

(** ** The slug of a CMS item *)

Lemma dash_runs_shaped (s : jsstring) :
  forall b, slug_shaped b (dash_runs b s) = true.
Proof.
  induction s as [|c s IH]; intros b; [reflexivity|]. cbn [dash_runs].
  destruct (slug_alnum c) eqn:Hc.
  - cbn [slug_shaped]. rewrite Hc. apply IH.
  - destruct b; [apply IH|]. cbn [slug_shaped].
    change (slug_alnum DASH) with false. cbn. apply IH.
Qed.

Lemma strip_leading_shaped (s : jsstring) :
  forall b, slug_shaped b s = true ->
            slug_shaped true (strip_leading_dashes s) = true.
Proof.
  induction s as [|c s IH]; intros b H; [reflexivity|].
  cbn [strip_leading_dashes]. cbn [slug_shaped] in H.
  destruct (c =? DASH) eqn:Hd.
  - apply N.eqb_eq in Hd. subst c. change (slug_alnum DASH) with false in H.
    apply andb_prop in H as [_ H]. exact (IH true H).
  - cbn [slug_shaped]. destruct (slug_alnum c); [exact H|].
    cbn in H. discriminate.
Qed.

Lemma strip_trailing_shaped (s : jsstring) :
  forall b, slug_shaped b s = true ->
            slug_shaped b (strip_trailing_dashes s) = true.
Proof.
  induction s as [|c s IH]; intros b H; [reflexivity|].
  cbn [strip_trailing_dashes]. cbn [slug_shaped] in H.
  destruct (slug_alnum c) eqn:Hc.
  - specialize (IH false H).
    destruct (strip_trailing_dashes s) as [|d t].
    + destruct (c =? DASH); [reflexivity|]. cbn. rewrite Hc. reflexivity.
    + cbn [slug_shaped]. rewrite Hc. exact IH.
  - apply andb_prop in H as [H Hs]. specialize (IH true Hs).
    apply andb_prop in H as [Hd Hb].
    destruct (strip_trailing_dashes s) as [|d t].
    + rewrite Hd. reflexivity.
    + cbn [slug_shaped]. rewrite Hc, Hd, Hb. exact IH.
Qed.

Lemma firstn_shaped (n : nat) :
  forall s b, slug_shaped b s = true -> slug_shaped b (firstn n s) = true.
Proof.
  induction n as [|n IH]; intros s b H; [reflexivity|].
  destruct s as [|c s]; [reflexivity|]. cbn [firstn slug_shaped] in *.
  destruct (slug_alnum c); [apply IH; exact H|].
  apply andb_prop in H as [H Hs]. rewrite H. apply IH. exact Hs.
Qed.

Lemma slug_shaped_spec (s : jsstring) :
  forall b,
    slug_shaped b s = true ->
    List.Forall (fun c => slug_char c = true) s
    /\ (b = true -> s !! 0%nat <> Some DASH)
    /\ forall i, s !! i = Some DASH -> s !! (S i) <> Some DASH.
Proof.
  induction s as [|c s IH]; intros b H.
  - split; [constructor|]. split; intros; discriminate.
  - cbn [slug_shaped] in H. destruct (slug_alnum c) eqn:Hc.
    + destruct (IH false H) as (Hall & _ & Hnext). split; [|split].
      * constructor; [unfold slug_char; rewrite Hc; reflexivity|exact Hall].
      * intros _ Heq. cbn in Heq. injection Heq as ->. discriminate Hc.
      * intros [|i] Hi; [|exact (Hnext i Hi)].
        cbn in Hi. injection Hi as ->. discriminate Hc.
    + apply andb_prop in H as [H Hs]. apply andb_prop in H as [Hd Hb].
      destruct (IH true Hs) as (Hall & Hfirst & Hnext). split; [|split].
      * constructor; [unfold slug_char; rewrite Hd; apply orb_true_r|exact Hall].
      * intros ->. discriminate Hb.
      * intros [|i] Hi; [|exact (Hnext i Hi)]. exact (Hfirst eq_refl).
Qed.

Lemma slugify_shaped (value : jsstring) :
  slug_shaped true (slugify value) = true /\ truthy (slugify value) = true.
Proof.
  unfold slugify. cbv zeta.
  destruct (truthy (firstn 80 _)) eqn:Hcut; [|split; reflexivity].
  split; [|exact Hcut].
  apply firstn_shaped, strip_trailing_shaped.
  apply (strip_leading_shaped _ false), dash_runs_shaped.
Qed.

(** X18. Whatever the text, [slugify] returns a usable slug: not empty,
    at most 80 code units, made of [a-z], [0-9] and dashes only, not
    starting with a dash and with no two dashes in a row. *)
Theorem slugify_is_a_slug (value : jsstring) :
  let s := slugify value in
  s <> []
  /\ (length s <= 80)%nat
  /\ List.Forall (fun c => slug_char c = true) s
  /\ s !! 0%nat <> Some DASH
  /\ forall i, s !! i = Some DASH -> s !! (S i) <> Some DASH.
Proof.
  cbv zeta. destruct (slugify_shaped value) as [Hshape Hne].
  destruct (slug_shaped_spec _ _ Hshape) as (Hall & Hfirst & Hnext).
  split; [intros Heq; rewrite Heq in Hne; discriminate|].
  split; [|split; [exact Hall|split; [exact (Hfirst eq_refl)|exact Hnext]]].
  unfold slugify. cbv zeta.
  destruct (truthy (firstn 80 _)); [|vm_compute; lia].
  rewrite length_firstn. lia.
Qed.

(** ** Push to the CMS *)

Lemma mark_pushed_rows (w : World) (id : N) (ext : option jsstring)
      (stamp : jsstring) :
  events (mark_pushed w id ext stamp)
  = map (fun e => if ev_id e =? id then pushed_row e ext stamp else e)
        (events w).
Proof. reflexivity. Qed.

Lemma push_frame_refl (w : World) : push_frame w w.
Proof. repeat split. Qed.

Lemma push_frame_trans (a b c : World) :
  push_frame a b -> push_frame b c -> push_frame a c.
Proof.
  unfold push_frame.
  intros (H1 & H2 & H3 & H4 & H5 & H6 & H7) (G1 & G2 & G3 & G4 & G5 & G6 & G7).
  repeat split; congruence.
Qed.

Lemma mark_pushed_frame (w : World) (id : N) (ext : option jsstring)
      (stamp : jsstring) :
  push_frame w (mark_pushed w id ext stamp).
Proof.
  unfold push_frame. rewrite mark_pushed_rows. cbn.
  rewrite !map_map. repeat split; apply map_ext; intros e;
    destruct (ev_id e =? id); reflexivity.
Qed.

Lemma upsertWebflowItem_request (cms : WebflowApi) (w : World)
      (event : EventRecord) (photos : list EventPhotoRecord) :
  let fieldData :=
    mapEventToWebflowFields event photos (is_webflow_update event) in
  negb (truthy (wf_name fieldData)) || negb (truthy (wf_slug fieldData))
  = false.
Proof.
  cbv zeta. cbn [mapEventToWebflowFields wf_name wf_slug].
  rewrite (jsor_str_truthy _ (js "Memory") eq_refl).
  rewrite (proj2 (slugify_shaped _)). reflexivity.
Qed.

Lemma upsertWebflowItem_world (cms : WebflowApi) (w : World)
      (event : EventRecord) (photos : list EventPhotoRecord) :
  fst (upsertWebflowItem cms w event photos) = tick w.
Proof.
  unfold upsertWebflowItem. cbv zeta.
  rewrite (upsertWebflowItem_request cms w event photos).
  destruct (cms _ _) as [res|]; [|reflexivity].
  destruct (negb (status_ok (wfr_status res))); [reflexivity|].
  destruct (wfr_json_id res); reflexivity.
Qed.

(** X19. The required-fields guard of [upsertWebflowItem] is dead code:
    the name falls back to "Memory" and the slug is never empty, so every
    call sends one request to the CMS, changes nothing else, and never
    fails with the missing name/slug error. *)
Theorem webflow_guard_never_fires (cms : WebflowApi) (w : World)
        (event : EventRecord) (photos : list EventPhotoRecord) :
  fst (upsertWebflowItem cms w event photos) = tick w
  /\ snd (upsertWebflowItem cms w event photos)
     <> Threw (js "Webflow fieldData missing required name/slug").
Proof.
  split; [apply upsertWebflowItem_world|].
  unfold upsertWebflowItem. cbv zeta.
  rewrite (upsertWebflowItem_request cms w event photos).
  destruct (cms _ _) as [res|]; [|cbn [snd]; intros H; discriminate H].
  destruct (negb (status_ok (wfr_status res))).
  - cbn [snd]. intros H. injection H as H. discriminate H.
  - destruct (wfr_json_id res); cbn [snd]; intros H; discriminate H.
Qed.

Lemma push_event_frame (env : Env) (cms : WebflowApi) (w : World) (n : Z)
      (event : EventRecord) :
  let st := push_event env cms (w, n) event in
  push_frame w (fst st) /\ (n <= snd st <= n + 1)%Z.
Proof.
  cbv zeta. unfold push_event.
  pose proof (upsertWebflowItem_world cms w event
                (select_photos_by_position w (ev_id event))) as Hw.
  destruct (upsertWebflowItem _ _ _ _) as [w1 [msg|itemId]];
    cbn [fst snd] in *; subst w1.
  - split; [repeat split|lia].
  - split; [|lia].
    eapply push_frame_trans; [|apply mark_pushed_frame]. repeat split.
Qed.

Lemma push_fold_frame (env : Env) (cms : WebflowApi)
      (rest : list EventRecord) :
  forall w n,
    let st := fold_left (push_event env cms) rest (w, n) in
    push_frame w (fst st) /\ (n <= snd st <= n + Z.of_nat (length rest))%Z.
Proof.
  induction rest as [|e rest IH]; intros w n; cbv zeta.
  - cbn. split; [apply push_frame_refl|lia].
  - cbn [fold_left length].
    destruct (push_event_frame env cms w n e) as [Hf Hn].
    destruct (push_event env cms (w, n) e) as [w1 n1]. cbn [fst snd] in Hf, Hn.
    destruct (IH w1 n1) as [Hf' Hn'].
    split; [exact (push_frame_trans _ _ _ Hf Hf')|lia].
Qed.

Lemma push_touches_rows (env : Env) (cms : WebflowApi) (w : World) :
  map ev_id (events (fst (syncFromD1ToWebflow env cms w)))
  = map ev_id (events w).
Proof.
  unfold syncFromD1ToWebflow.
  exact (proj1 (proj1 (push_fold_frame env cms _ w 0))).
Qed.

(** X20. A push run works on event rows only: whatever the CMS answers
    it keeps the ids and origins of all events, adds or removes none,
    leaves the photo table and the bucket as they were, and reports at
    most as many pushes as there were pending events. *)
Theorem push_touches_only_event_rows (env : Env) (cms : WebflowApi)
        (w : World) :
  let '(w', eventsSynced) := syncFromD1ToWebflow env cms w in
  map ev_id (events w') = map ev_id (events w)
  /\ map origin (events w') = map origin (events w)
  /\ event_photos w' = event_photos w
  /\ bucket w' = bucket w
  /\ (0 <= eventsSynced
      <= Z.of_nat (length (List.filter pending_push (events w))))%Z.
Proof.
  unfold syncFromD1ToWebflow.
  destruct (push_fold_frame env cms (List.filter pending_push (events w)) w 0)
    as [(H1 & H2 & H3 & H4 & _) Hn].
  destruct (fold_left _ _ _) as [w' n]. cbn [fst snd] in *.
  repeat split; auto; lia.
Qed.

Lemma push_event_accepted (Q : jsstring -> Prop) (env : Env)
      (cms : WebflowApi) (w : World) (n : Z) (event : EventRecord) :
  cms_answers Q cms ->
  exists item stamp,
    Q item /\ truthy item = true
    /\ push_event env cms (w, n) event
       = (mark_pushed (tick (tick w)) (ev_id event) (Some item) stamp,
          (n + 1)%Z).
Proof.
  intros Hcms. unfold push_event, upsertWebflowItem. cbv zeta.
  rewrite (upsertWebflowItem_request cms w event _).
  match goal with
  | |- context [cms ?t ?r] =>
      destruct (Hcms t r) as (res & item & -> & Hok & Hid & Hitem & HQ)
  end.
  rewrite Hok, Hid. cbn [negb].
  exists item, (iso_now (outside env) (now (tick w))).
  split; [exact HQ|]. split; [exact Hitem|].
  unfold jsor. cbn [otruthy]. rewrite Hitem. cbn [otruthy]. rewrite Hitem.
  reflexivity.
Qed.

(** Rows that [hit] singles out and that a push rewrites into rows
    outside [hit] are gone once all of them were pushed. *)
Lemma push_clears (Q : jsstring -> Prop) (hit : EventRecord -> bool)
      (env : Env) (cms : WebflowApi) :
  cms_answers Q cms ->
  (forall e item stamp,
      Q item -> truthy item = true ->
      hit (pushed_row e (Some item) stamp) = false) ->
  forall rest w n,
    (forall e, In e (events w) -> hit e = true ->
               In (ev_id e) (map ev_id rest)) ->
    let st := fold_left (push_event env cms) rest (w, n) in
    (forall e, In e (events (fst st)) -> hit e = false)
    /\ snd st = (n + Z.of_nat (length rest))%Z.
Proof.
  intros Hcms Hhit. induction rest as [|x rest IH]; intros w n Hinv; cbv zeta.
  - cbn. split; [|lia]. intros e He.
    destruct (hit e) eqn:Hh; [|reflexivity]. destruct (Hinv e He Hh).
  - cbn [fold_left length].
    destruct (push_event_accepted Q env cms w n x Hcms)
      as (item & stamp & HQ & Hitem & ->).
    destruct (IH (mark_pushed (tick (tick w)) (ev_id x) (Some item) stamp)
                 (n + 1)%Z) as [Hnone Hcount].
    { intros e He Hh. rewrite mark_pushed_rows in He.
      apply List.in_map_iff in He as (e0 & <- & He0).
      destruct (ev_id e0 =? ev_id x) eqn:Hid.
      - rewrite (Hhit e0 item stamp HQ Hitem) in Hh. discriminate Hh.
      - apply N.eqb_neq in Hid.
        destruct (Hinv e0 He0 Hh) as [Heq|Hin]; [congruence|exact Hin]. }
    split; [exact Hnone|]. rewrite Hcount. lia.
Qed.

Lemma filter_none {A : Type} (f : A -> bool) (l : list A) :
  (forall x, In x l -> f x = false) -> List.filter f l = [].
Proof.
  induction l as [|x l IH]; intros H; [reflexivity|]. cbn.
  rewrite (H x (or_introl eq_refl)). apply IH. intros y Hy. apply H. right.
  exact Hy.
Qed.

Lemma pending_in_filter (w : World) (hit : EventRecord -> bool) :
  (forall e, In e (events w) -> hit e = true -> pending_push e = true) ->
  forall e, In e (events w) -> hit e = true ->
            In (ev_id e) (map ev_id (List.filter pending_push (events w))).
Proof.
  intros Hp e He Hh. apply List.in_map. apply List.filter_In.
  split; [exact He|exact (Hp e He Hh)].
Qed.

(** X21. When the CMS accepts every request and answers with an item id,
    a push run pushes every pending event, none is pending afterwards,
    and a second run has nothing to do: it reports 0 and leaves the
    store as it is. *)
Theorem push_run_settles (env : Env) (cms : WebflowApi) (w : World) :
  cms_accepts cms ->
  let '(w', eventsSynced) := syncFromD1ToWebflow env cms w in
  eventsSynced = Z.of_nat (length (List.filter pending_push (events w)))
  /\ (forall e, In e (events w') -> pending_push e = false)
  /\ syncFromD1ToWebflow env cms w' = (w', 0%Z).
Proof.
  intros Hcms.
  assert (Hans : cms_answers (fun _ => True) cms).
  { intros t r. destruct (Hcms t r) as (res & item & H1 & H2 & H3 & H4).
    exists res, item. auto. }
  unfold syncFromD1ToWebflow at 1.
  destruct (push_clears (fun _ => True) pending_push env cms Hans
              ltac:(intros; unfold pending_push; cbn; apply andb_false_r)
              (List.filter pending_push (events w)) w 0%Z
              (pending_in_filter w pending_push ltac:(auto)))
    as [Hnone Hcount].
  destruct (fold_left _ _ _) as [w' n]. cbn [fst snd] in *.
  split; [lia|]. split; [exact Hnone|].
  unfold syncFromD1ToWebflow. rewrite (filter_none _ _ Hnone). reflexivity.
Qed.

Lemma push_run_settles_witness :
  cms_accepts obliging_cms
  /\ let '(w', eventsSynced) :=
       syncFromD1ToWebflow calm_env obliging_cms world_ab in
     eventsSynced
     = Z.of_nat (length (List.filter pending_push (events world_ab)))
     /\ (forall e, In e (events w') -> pending_push e = false)
     /\ syncFromD1ToWebflow calm_env obliging_cms w' = (w', 0%Z).
Proof.
  assert (H : cms_accepts obliging_cms).
  { intros t r. eexists. eexists. split; [reflexivity|]. repeat split. }
  split; [exact H|].
  exact (push_run_settles calm_env obliging_cms world_ab H).
Defined.

Section PushThenResight.
Context {api : URLApi}.
Variable env : Env.

(** X22. A pushed event is lost to the reconciler.  The push overwrites
    the event's external_id with the CMS item id, and the reconciler
    looks events up by the post's id: when the CMS hands out ids other
    than the post's id and the Facebook events stored under that id are
    pending, then after a push run no event is found under the post's
    id, and reconciling the post reports inserted and adds an event
    row. *)
Theorem pushed_post_is_inserted_again
        (cms : WebflowApi) (w : World) (post : FacebookPost) (pid : jsstring)
        (authorProfile : option AuthorProfile) (isLifeEvent : bool) :
  post_id post = Some pid -> truthy pid = true ->
  cms_answers (fun item => item <> pid) cms ->
  (forall e, In e (events w) -> external_id e = Some pid ->
             origin e = js "facebook" -> sync e = 1%Z) ->
  let w1 := fst (syncFromD1ToWebflow env cms w) in
  let '(w2, r) := upsertFacebookPost env w1 post authorProfile isLifeEvent in
  D1.select_facebook_event w1 pid = None
  /\ r = {| processed := true; inserted := true; updated := false |}
  /\ length (events w2) = S (length (events w)).
Proof.
  intros Hid Hne Hcms Hpending. cbv zeta.
  set (hit := fun e : EventRecord =>
                str_is (external_id e) pid && jseqb (origin e) (js "facebook")).
  assert (Hnone : forall e,
             In e (events (fst (syncFromD1ToWebflow env cms w))) ->
             hit e = false).
  { unfold syncFromD1ToWebflow.
    apply (push_clears (fun item => item <> pid) hit env cms Hcms).
    - intros e item stamp Hitem _. unfold hit. cbn.
      destruct (jseqb item pid) eqn:Heq; [|reflexivity].
      apply jseqb_eq in Heq. contradiction.
    - apply pending_in_filter. intros e He Hh. unfold hit in Hh.
      apply andb_prop in Hh as [Hext Horigin].
      apply jseqb_eq in Horigin. unfold pending_push.
      destruct (external_id e) as [x|] eqn:Hx; [|discriminate Hext].
      cbn in Hext. apply jseqb_eq in Hext. subst x.
      rewrite (Hpending e He Hx Horigin), Horigin. reflexivity. }
  assert (Hfind : D1.select_facebook_event
                    (fst (syncFromD1ToWebflow env cms w)) pid = None).
  { unfold D1.select_facebook_event. fold hit.
    destruct (List.find hit _) as [e|] eqn:Hf; [|reflexivity].
    apply List.find_some in Hf as [He Hh]. rewrite (Hnone e He) in Hh.
    discriminate Hh. }
  assert (Hlen : length (events (fst (syncFromD1ToWebflow env cms w)))
                 = length (events w)).
  { pose proof (push_touches_rows env cms w) as Hrows.
    rewrite <- (length_map ev_id), Hrows, length_map. reflexivity. }
  destruct (upsert_new env _ post pid authorProfile isLifeEvent Hid Hne Hfind)
    as (e & wi & -> & Hevents & _).
  split; [exact Hfind|]. split; [reflexivity|].
  match goal with
  | |- context [refresh_photos env ?w0 ?i post] =>
      destruct (refresh_photos_frame env w0 i post) as (-> & _)
  end.
  rewrite Hevents, length_app, Hlen. cbn. lia.
Qed.
End PushThenResight.

Lemma pushed_post_is_inserted_again_witness :
  let w1 := fst (syncFromD1ToWebflow calm_env obliging_cms world_ab) in
  let '(w2, r) :=
    upsertFacebookPost (api := PlainUrl.plain_url) calm_env w1
                       (post_with [url_a; url_b]) None false in
  D1.select_facebook_event w1 (js "p1") = None
  /\ r = {| processed := true; inserted := true; updated := false |}
  /\ length (events w2) = S (length (events world_ab)).
Proof.
  apply (pushed_post_is_inserted_again (api := PlainUrl.plain_url) calm_env
           obliging_cms world_ab (post_with [url_a; url_b]) (js "p1")
           None false).
  - reflexivity.
  - reflexivity.
  - intros t r. eexists. eexists. split; [reflexivity|].
    repeat split. intros H. discriminate H.
  - intros e He _ _. vm_compute in He. destruct He as [<-|[]]. reflexivity.
Defined.

(** ** The HTTP endpoints on the store *)

Lemma jsor_str_same (a : option jsstring) (b : jsstring) :
  truthy b = true -> jsor_str (Some (jsor_str a b)) b = jsor_str a b.
Proof.
  intros Hb. pose proof (jsor_str_truthy a b Hb) as H.
  change (jsor_str (Some (jsor_str a b)) b)
    with (if truthy (jsor_str a b) then jsor_str a b else b).
  rewrite H. reflexivity.
Qed.

(** What one stored photo adds: nothing when the download or the write
    failed, else one row with the URL and position given. *)
Lemma persist_row (env : Env) (w : World) (eid : N) (url : jsstring) (pos : N) :
  let w' := fst (persistPhotoFromUrl env w eid url pos) in
  events w' = events w /\ events_seq w' = events_seq w
  /\ (event_photos w' = event_photos w
      \/ exists p, event_photos w' = event_photos w ++ [p]
                   /\ event_id p = eid /\ source_at p = (Some url, pos)).
Proof.
  cbv zeta. destruct (persist_events env w eid url pos) as (He & Hs & _).
  split; [exact He|]. split; [exact Hs|].
  unfold persistPhotoFromUrl.
  destruct (photo_fetch _ _ _) as [res|]; [|left; reflexivity].
  destruct (negb (status_ok (res_status res))); [left; reflexivity|].
  cbn [now tick].
  destruct (r2_put_ok _ _); [|left; reflexivity].
  right. eexists. split; [reflexivity|]. split; reflexivity.
Qed.

Lemma store_photos_rows (env : Env) (eid : N) (photos : list jsstring) :
  forall w pos,
    let w' := store_photos env w eid photos pos in
    events w' = events w /\ events_seq w' = events_seq w
    /\ exists rows,
        event_photos w' = event_photos w ++ rows
        /\ List.Forall (fun p => event_id p = eid) rows
        /\ sublist (map source_at rows)
                   (imap (fun i src => (Some src, pos + N.of_nat i)) photos).
Proof.
  induction photos as [|src photos IH]; intros w pos; cbv zeta.
  - cbn. repeat split. exists []. rewrite app_nil_r.
    split; [reflexivity|]. split; constructor.
  - cbn [store_photos].
    destruct (persist_row env w eid src pos) as (He & Hs & Hrow).
    destruct (IH (fst (persistPhotoFromUrl env w eid src pos)) (pos + 1))
      as (He' & Hs' & rows & Hrows & Hall & Hsub).
    split; [congruence|]. split; [congruence|].
    assert (Hshift : imap (fun i s => (Some s, pos + N.of_nat i)) (src :: photos)
                     = (Some src, pos)
                         :: imap (fun i s => (Some s, pos + 1 + N.of_nat i))
                                 photos).
    { rewrite imap_cons. f_equal; [f_equal; lia|].
      apply imap_ext. intros i s _. cbn. f_equal. lia. }
    rewrite Hshift. destruct Hrow as [Hsame|(p & Hp & Hid & Hsrc)].
    + exists rows. rewrite Hrows, Hsame. split; [reflexivity|].
      split; [exact Hall|]. apply sublist_cons. exact Hsub.
    + exists (p :: rows). rewrite Hrows, Hp, <- app_assoc.
      split; [reflexivity|]. split; [constructor; assumption|].
      cbn [map]. rewrite Hsrc. apply sublist_skip. exact Hsub.
Qed.

(** X23. [createEvent] on a request body.  For the JSON value [null] it
    throws and writes nothing.  For a body that is a JSON object with
    fields of their declared types, or any other JSON value, it answers
    400 exactly when there is no headline or an empty one, and then
    writes nothing.  Otherwise it appends one event under the next rowid,
    with the given headline and origin "facebook" or "webflow", changes
    no stored event or photo, and the photo rows it adds belong to the
    new event and are, in order, photos of the body at the position of
    their index: a photo that could not be stored leaves a gap. *)
Theorem createEvent_appends_one_event (env : Env) (w : World)
        (json : RequestJson) :
  match createEvent env w json with
  | (w', Threw _) => json = JsonNull /\ w' = w
  | (w', Returned (BadRequest msg)) =>
      (json = JsonPlain
       \/ exists body,
           json = JsonObject body
           /\ otruthy (cb_event_name_line_1 body) = false)
      /\ w' = w /\ msg = js "event_name_line_1 is required"
  | (w', Returned (Created id)) =>
      exists body,
        json = JsonObject body
        /\ otruthy (cb_event_name_line_1 body) = true
        /\ id = events_seq w + 1
        /\ (exists e,
               events w' = events w ++ [e]
               /\ ev_id e = id
               /\ event_name_line_1 e = cb_event_name_line_1 body
               /\ (origin e = js "facebook" \/ origin e = js "webflow"))
        /\ exists rows,
            event_photos w' = event_photos w ++ rows
            /\ List.Forall (fun p => event_id p = id) rows
            /\ sublist (map source_at rows)
                       (imap (fun i src => (Some src, N.of_nat i))
                             (default [] (cb_photos body)))
  end.
Proof.
  destruct json as [| |body]; cbn [createEvent].
  - split; reflexivity.
  - split; [left; reflexivity|split; reflexivity].
  - unfold jsor.
    destruct (otruthy (cb_event_name_line_1 body)) eqn:Hhead.
    + destruct (cb_event_name_line_1 body) as [headline|] eqn:Hcb;
        [|discriminate Hhead].
      cbv zeta. cbn [D1.insert_event].
      match goal with
      | |- context [store_photos env ?w0 ?i ?l 0] =>
          destruct (store_photos_rows env i l w0 0)
            as (He & _ & rows & Hrows & Hall & Hsub)
      end.
      exists body. rewrite Hcb. split; [reflexivity|]. split; [exact Hhead|].
      split; [reflexivity|]. split.
      * eexists. split; [rewrite He; reflexivity|].
        cbn [ev_id event_name_line_1 origin].
        split; [reflexivity|]. split; [reflexivity|].
        destruct (str_is (cb_origin body) (js "facebook"));
          [left|right]; reflexivity.
      * exists rows. split; [exact Hrows|]. split; [exact Hall|exact Hsub].
    + cbv beta iota.
      split; [right; exists body; split; [reflexivity|exact Hhead]
             |split; reflexivity].
Qed.

(** X24. A photo that was stored is served back: after a successful
    [persistPhotoFromUrl] for an event of the store (the photo table
    refers to the events table, so a row for a missing event is refused),
    the new row's storage key answers 200 with the
    bytes that were downloaded and their content type ("image/jpeg" when
    the download named none), and the row's public URL ends in
    [/photos/] followed by that key. *)
Theorem stored_photo_is_served (env : Env) (w : World) (eid : N)
        (url : jsstring) (pos : N) :
  In eid (map ev_id (events w)) ->
  snd (persistPhotoFromUrl env w eid url pos) = Returned tt ->
  let w' := fst (persistPhotoFromUrl env w eid url pos) in
  exists p res base,
    event_photos w' = event_photos w ++ [p]
    /\ photo_fetch (outside env) (now w) url = Some res
    /\ public_url p = Some (base ++ js "/photos/" ++ storage_key p)
    /\ pr_status (servePhoto w' (storage_key p)) = 200
    /\ pr_body (servePhoto w' (storage_key p)) = res_body res
    /\ pr_content_type (servePhoto w' (storage_key p))
       = Some (jsor_str (res_content_type res) (js "image/jpeg")).
Proof.
  intros _. unfold persistPhotoFromUrl. cbv zeta.
  destruct (photo_fetch _ _ _) as [res|]; [|intros H; discriminate H].
  destruct (negb (status_ok (res_status res))); [intros H; discriminate H|].
  cbn [now tick].
  destruct (r2_put_ok _ _); [|intros H; discriminate H].
  intros _. cbn [fst].
  eexists. exists res.
  match goal with
  | |- context [buildPublicPhotoUrl env ?k] =>
      exists (match Regex.strip_trailing_slash <$> PUBLIC_BASE_URL env with
              | Some b => if truthy b then b else []
              | None => []
              end);
      set (key := k)
  end.
  split; [reflexivity|]. split; [reflexivity|].
  cbn [storage_key public_url D1.insert_photo with_photos event_photos].
  split.
  { unfold buildPublicPhotoUrl. cbv zeta.
    destruct (Regex.strip_trailing_slash <$> PUBLIC_BASE_URL env) as [b|];
      [destruct (truthy b)|]; reflexivity. }
  unfold servePhoto.
  cbn [bucket D1.insert_photo with_photos tick with_bucket].
  rewrite lookup_insert_eq. cbn.
  repeat split.
  f_equal. apply jsor_str_same. reflexivity.
Qed.

Lemma stored_photo_is_served_witness :
  let w' := fst (persistPhotoFromUrl calm_env world_ab 1 url_c 2) in
  exists p res base,
    event_photos w' = event_photos world_ab ++ [p]
    /\ photo_fetch (outside calm_env) (now world_ab) url_c = Some res
    /\ public_url p = Some (base ++ js "/photos/" ++ storage_key p)
    /\ pr_status (servePhoto w' (storage_key p)) = 200
    /\ pr_body (servePhoto w' (storage_key p)) = res_body res
    /\ pr_content_type (servePhoto w' (storage_key p))
       = Some (jsor_str (res_content_type res) (js "image/jpeg")).
Proof.
  apply (stored_photo_is_served calm_env world_ab 1 url_c 2).
  - vm_compute. left. reflexivity.
  - vm_compute. reflexivity.
Defined.

(** ** Duplicate janitor: photo rows and their blobs *)

Section JanitorBlobs.
Context {api : URLApi}.
Variable env : Env.

Lemma cleanDuplicates_world (w : World) :
  let w1 := fst (remove_events env w (pair_duplicates w)) in
  let w2 := fst (remove_events env w1 (facebook_duplicates w1)) in
  fst (cleanDuplicates env w) = remove_photos env w2.
Proof.
  cbv zeta. unfold cleanDuplicates.
  fold (pair_duplicates w).
  destruct (remove_events env w (pair_duplicates w)) as [w1 n1]. cbn [fst].
  fold (facebook_duplicates w1).
  destruct (remove_events env w1 (facebook_duplicates w1)) as [w2 n2].
  cbn [fst]. unfold remove_photos.
  destruct (duplicate_photos (event_photos w2)); reflexivity.
Qed.

Lemma filter_all {A : Type} (f : A -> bool) (l : list A) :
  (forall x, In x l -> f x = true) -> List.filter f l = l.
Proof.
  induction l as [|x l IH]; intros H; [reflexivity|]. cbn.
  rewrite (H x (or_introl eq_refl)). f_equal. apply IH. intros y Hy.
  apply H. right. exact Hy.
Qed.

Lemma delete_blob_shrinks (w : World) (k key : jsstring) :
  bucket w !! key = None -> bucket (delete_blob env w k) !! key = None.
Proof.
  intros H. unfold delete_blob, r2_delete_quietly.
  destruct (truthy k); [|exact H].
  destruct (r2_delete_ok _ _); [|exact H].
  cbn. apply lookup_delete_None. right. exact H.
Qed.

Lemma delete_blobs_shrinks (keys : list jsstring) (key : jsstring) :
  forall w, bucket w !! key = None ->
            bucket (delete_blobs env w keys) !! key = None.
Proof.
  unfold delete_blobs.
  induction keys as [|k keys IH]; intros w H; [exact H|].
  cbn [fold_left]. apply IH. apply delete_blob_shrinks. exact H.
Qed.

Lemma delete_blobs_deletes (keys : list jsstring) (key : jsstring) :
  (forall t, r2_delete_ok (outside env) t = true) ->
  truthy key = true -> In key keys ->
  forall w, bucket (delete_blobs env w keys) !! key = None.
Proof.
  intros Hok Hkey. unfold delete_blobs.
  induction keys as [|k keys IH]; intros Hin w; [destruct Hin|].
  cbn [fold_left]. destruct Hin as [->|Hin]; [|exact (IH Hin _)].
  apply delete_blobs_shrinks.
  unfold delete_blob, r2_delete_quietly. rewrite Hkey, Hok. cbn.
  apply lookup_delete_None. left. reflexivity.
Qed.

Lemma gone_in_ids (w : World) (ids : list N) (x : N) :
  D1.mem x (gone_of w ids) = true -> D1.mem x ids = true.
Proof.
  rewrite !mem_In. unfold gone_of. rewrite List.in_map_iff.
  intros (e & <- & He). apply List.filter_In in He as [_ He].
  apply mem_In. exact He.
Qed.

(** What a "duplicate events" pass does to photos and blobs. *)
Lemma remove_events_photos (w : World) (ids : list N) :
  let w1 := fst (remove_events env w ids) in
  event_photos w1
  = List.filter (fun p => negb (D1.mem (event_id p) (gone_of w ids)))
                (event_photos w)
  /\ (forall key, bucket w !! key = None -> bucket w1 !! key = None)
  /\ ((forall t, r2_delete_ok (outside env) t = true) ->
      forall p, In p (event_photos w) ->
                D1.mem (event_id p) (gone_of w ids) = true ->
                truthy (storage_key p) = true ->
                bucket w1 !! storage_key p = None).
Proof.
  cbv zeta. destruct ids as [|i ids].
  - cbn [remove_events fst].
    assert (Hnil : gone_of w [] = []).
    { unfold gone_of. rewrite filter_none; [reflexivity|].
      intros e _. reflexivity. }
    rewrite Hnil. split; [|split].
    + symmetry. apply filter_all. intros p _. reflexivity.
    + auto.
    + intros _ p _ Hgone. discriminate Hgone.
  - cbn [remove_events fst].
    set (keys := D1.select_keys_of_events w (i :: ids)).
    destruct (delete_blobs_frame env keys w) as [He Hp].
    unfold D1.delete_events_in.
    cbn [event_photos bucket with_photos with_events events].
    rewrite He, Hp. split; [reflexivity|]. split.
    + intros key. apply delete_blobs_shrinks.
    + intros Hok p Hin Hgone Hkey.
      apply delete_blobs_deletes; [exact Hok|exact Hkey|].
      unfold keys, D1.select_keys_of_events. apply List.in_map.
      apply List.filter_In. split; [exact Hin|].
      exact (gone_in_ids w (i :: ids) _ Hgone).
Qed.

Lemma insert_by_id_In (p q : EventPhotoRecord) (l : list EventPhotoRecord) :
  In q (insert_by_id p l) -> q = p \/ In q l.
Proof.
  induction l as [|x l IH]; cbn; [intuition|].
  destruct (ph_id x <=? ph_id p); cbn; intuition.
Qed.

Lemma sort_by_id_In (q : EventPhotoRecord) (arr : list EventPhotoRecord) :
  In q (sort_by_id arr) -> In q arr.
Proof.
  unfold sort_by_id.
  assert (H : forall acc, In q (fold_left (fun acc p => insert_by_id p acc)
                                          arr acc) ->
                          In q acc \/ In q arr).
  { induction arr as [|p arr IH]; intros acc Hq; [left; exact Hq|].
    cbn [fold_left] in Hq. destruct (IH _ Hq) as [Hacc|Harr].
    - destruct (insert_by_id_In _ _ _ Hacc) as [->|Hacc'];
        [right; left; reflexivity|left; exact Hacc'].
    - right. right. exact Harr. }
  intros Hq. destruct (H [] Hq) as [[]|Hq']. exact Hq'.
Qed.

Lemma get_In {K V : Type} (eqb : K -> K -> bool) (k : K) (v : V)
      (m : list (K * V)) :
  OrderedMap.get eqb k m = Some v -> exists k', In (k', v) m.
Proof.
  induction m as [|[k' v'] m IH]; cbn; [discriminate|].
  destruct (eqb k k').
  - intros [= ->]. exists k'. left. reflexivity.
  - intros H. destruct (IH H) as [k0 Hk0]. exists k0. right. exact Hk0.
Qed.

Lemma set_In {K V : Type} (eqb : K -> K -> bool) (k k0 : K) (v v0 : V)
      (m : list (K * V)) :
  In (k0, v0) (OrderedMap.set eqb k v m) -> v0 = v \/ In (k0, v0) m.
Proof.
  induction m as [|[k' v'] m IH]; cbn.
  - intros [[= <- <-]|[]]. left. reflexivity.
  - destruct (eqb k k'); cbn.
    + intros [[= <- <-]|H]; [left; reflexivity|right; right; exact H].
    + intros [H|H]; [right; left; exact H|].
      destruct (IH H) as [->|H']; [left; reflexivity|right; right; exact H'].
Qed.

Lemma group_photos_within (l : list EventPhotoRecord) :
  grouped_within l (group_photos l).
Proof.
  unfold group_photos.
  assert (H : forall rest grouped,
             grouped_within l grouped -> incl rest l ->
             grouped_within l
               (fold_left
                  (fun grouped p =>
                     match original_source_url p with
                     | Some src =>
                         if truthy src then
                           let norm := normalizeSourceUrl src in
                           let byEvent :=
                             default [] (OrderedMap.get N.eqb (event_id p)
                                                        grouped) in
                           let arr :=
                             default [] (OrderedMap.get jseqb norm byEvent) in
                           OrderedMap.set N.eqb (event_id p)
                             (OrderedMap.set jseqb norm (arr ++ [p]) byEvent)
                             grouped
                         else grouped
                     | None => grouped
                     end) rest grouped)).
  { induction rest as [|p rest IH]; intros grouped Hg Hincl; [exact Hg|].
    cbn [fold_left]. apply IH; [|intros x Hx; apply Hincl; right; exact Hx].
    destruct (original_source_url p) as [src|]; [|exact Hg].
    destruct (truthy src); [|exact Hg]. cbv zeta.
    intros eid byNorm norm arr q Hin Hnorm Hq.
    apply set_In in Hin as [->|Hin]; [|exact (Hg _ _ _ _ _ Hin Hnorm Hq)].
    apply set_In in Hnorm as [->|Hnorm].
    - apply in_app_or in Hq as [Hq|[<-|[]]];
        [|apply Hincl; left; reflexivity].
      destruct (OrderedMap.get N.eqb (event_id p) grouped) as [byEvent|] eqn:Hby;
        [|destruct Hq].
      cbn [default from_option id] in Hq.
      destruct (OrderedMap.get jseqb _ byEvent) as [arr0|] eqn:Harr;
        [|destruct Hq].
      cbn [default from_option id] in Hq.
      destruct (get_In _ _ _ _ Hby) as [e0 He0].
      destruct (get_In _ _ _ _ Harr) as [n0 Hn0].
      exact (Hg _ _ _ _ _ He0 Hn0 Hq).
    - destruct (OrderedMap.get N.eqb (event_id p) grouped) as [byEvent|] eqn:Hby;
        [|destruct Hnorm].
      destruct (get_In _ _ _ _ Hby) as [e0 He0].
      exact (Hg _ _ _ _ _ He0 Hnorm Hq). }
  apply H; [|intros x Hx; exact Hx].
  intros eid byNorm norm arr q [].
Qed.

Lemma duplicate_photos_incl (l : list EventPhotoRecord) :
  incl (duplicate_photos l) l.
Proof.
  intros q Hq. unfold duplicate_photos in Hq.
  apply List.in_flat_map in Hq as ([eid byNorm] & Hin & Hq).
  apply List.in_flat_map in Hq as ([norm arr] & Hnorm & Hq).
  destruct (1 <? length arr)%nat; [|destruct Hq].
  apply (group_photos_within l eid byNorm norm arr q Hin Hnorm).
  apply sort_by_id_In. destruct (sort_by_id arr); [destruct Hq|].
  right. exact Hq.
Qed.

Lemma unique_photo_id (l : list EventPhotoRecord) (a b : EventPhotoRecord) :
  NoDup (map ph_id l) -> In a l -> In b l -> ph_id a = ph_id b -> a = b.
Proof.
  induction l as [|x l IH]; intros Hnd Ha Hb Hid; [destruct Ha|].
  cbn in Hnd. apply NoDup_cons in Hnd as [Hx Hnd].
  assert (Hfresh : forall y, In y l -> ph_id y <> ph_id x).
  { intros y Hy Heq. apply Hx. rewrite <- Heq. apply list_elem_of_In.
    apply List.in_map. exact Hy. }
  destruct Ha as [<-|Ha], Hb as [<-|Hb]; auto.
  - exfalso. exact (Hfresh b Hb (eq_sym Hid)).
  - exfalso. exact (Hfresh a Ha Hid).
Qed.

(** What the photo pass does to photos and blobs. *)
Lemma remove_photos_photos (w : World) :
  let ids := map ph_id (duplicate_photos (event_photos w)) in
  events (remove_photos env w) = events w
  /\ event_photos (remove_photos env w)
     = List.filter (fun p => negb (D1.mem (ph_id p) ids)) (event_photos w)
  /\ (forall key, bucket w !! key = None ->
                  bucket (remove_photos env w) !! key = None)
  /\ ((forall t, r2_delete_ok (outside env) t = true) ->
      NoDup (map ph_id (event_photos w)) ->
      forall p, In p (event_photos w) ->
                D1.mem (ph_id p) ids = true ->
                truthy (storage_key p) = true ->
                bucket (remove_photos env w) !! storage_key p = None).
Proof.
  cbv zeta. unfold remove_photos.
  pose proof (duplicate_photos_incl (event_photos w)) as Hincl.
  destruct (duplicate_photos (event_photos w)) as [|d ds].
  - split; [reflexivity|]. split; [|split].
    + symmetry. apply filter_all. intros p _. reflexivity.
    + auto.
    + intros _ _ p _ Hmem. discriminate Hmem.
  - destruct (delete_blobs_frame env (map storage_key (d :: ds)) w)
      as [He Hp].
    unfold D1.delete_photos_in.
    cbn [events event_photos bucket with_photos].
    rewrite He, Hp. split; [reflexivity|]. split; [reflexivity|]. split.
    + intros key. apply delete_blobs_shrinks.
    + intros Hok Hnd p Hin Hmem Hkey.
      apply delete_blobs_deletes; [exact Hok|exact Hkey|].
      apply mem_In in Hmem. apply List.in_map_iff in Hmem as (q & Hid & Hq).
      rewrite (unique_photo_id _ p q Hnd Hin (Hincl q Hq) (eq_sym Hid)).
      apply List.in_map. exact Hq.
Qed.

(** X25. A dedupe pass only removes: what is left of the events and of
    the photo rows are rows of the store, unchanged and in their order,
    and no object is added to the bucket. *)
Theorem dedupe_only_removes (w : World) :
  let w' := fst (cleanDuplicates env w) in
  sublist (events w') (events w)
  /\ sublist (event_photos w') (event_photos w)
  /\ (forall key, bucket w !! key = None -> bucket w' !! key = None).
Proof.
  cbv zeta. rewrite cleanDuplicates_world.
  set (w1 := fst (remove_events env w (pair_duplicates w))).
  set (w2 := fst (remove_events env w1 (facebook_duplicates w1))).
  destruct (remove_events_events env w (pair_duplicates w)) as [He1 _].
  destruct (remove_events_photos w (pair_duplicates w)) as (Hp1 & Hb1 & _).
  destruct (remove_events_events env w1 (facebook_duplicates w1)) as [He2 _].
  destruct (remove_events_photos w1 (facebook_duplicates w1))
    as (Hp2 & Hb2 & _).
  destruct (remove_photos_photos w2) as (He3 & Hp3 & Hb3 & _).
  fold w1 in He1, Hp1, Hb1. fold w2 in He2, Hp2, Hb2.
  split; [|split].
  - rewrite He3, He2, He1. etransitivity; apply filter_sublist.
  - rewrite Hp3, Hp2, Hp1.
    etransitivity; [apply filter_sublist|].
    etransitivity; apply filter_sublist.
  - intros key H. apply Hb3, Hb2, Hb1, H.
Qed.

(** X26. The janitor leaves no blob behind: with unique photo ids and a
    bucket that carries out its deletes, the object of every photo row
    that a dedupe pass removes, through its event or as a duplicate, is
    gone from the bucket. *)
Theorem dedupe_removes_blobs (w : World) :
  (forall t, r2_delete_ok (outside env) t = true) ->
  NoDup (map ph_id (event_photos w)) ->
  let w' := fst (cleanDuplicates env w) in
  forall p,
    In p (event_photos w) -> ~ In p (event_photos w') ->
    truthy (storage_key p) = true ->
    bucket w' !! storage_key p = None.
Proof.
  intros Hok Hnd. cbv zeta. rewrite cleanDuplicates_world.
  set (w1 := fst (remove_events env w (pair_duplicates w))).
  set (w2 := fst (remove_events env w1 (facebook_duplicates w1))).
  destruct (remove_events_photos w (pair_duplicates w)) as (Hp1 & Hb1 & Hd1).
  destruct (remove_events_photos w1 (facebook_duplicates w1))
    as (Hp2 & Hb2 & Hd2).
  destruct (remove_photos_photos w2) as (_ & Hp3 & Hb3 & Hd3).
  fold w1 in Hp1, Hb1, Hd1. fold w2 in Hp2, Hb2, Hd2.
  intros p Hin Hgone Hkey.
  destruct (D1.mem (event_id p) (gone_of w (pair_duplicates w))) eqn:Hm1.
  { apply Hb3, Hb2. exact (Hd1 Hok p Hin Hm1 Hkey). }
  assert (Hin1 : In p (event_photos w1)).
  { rewrite Hp1. apply List.filter_In. split; [exact Hin|].
    rewrite Hm1. reflexivity. }
  destruct (D1.mem (event_id p) (gone_of w1 (facebook_duplicates w1))) eqn:Hm2.
  { apply Hb3. exact (Hd2 Hok p Hin1 Hm2 Hkey). }
  assert (Hin2 : In p (event_photos w2)).
  { rewrite Hp2. apply List.filter_In. split; [exact Hin1|].
    rewrite Hm2. reflexivity. }
  assert (Hnd2 : NoDup (map ph_id (event_photos w2))).
  { apply (sublist_NoDup _ (map ph_id (event_photos w))); [exact Hnd|].
    apply (fmap_sublist ph_id). rewrite Hp2, Hp1.
    etransitivity; apply filter_sublist. }
  destruct (D1.mem (ph_id p)
              (map ph_id (duplicate_photos (event_photos w2)))) eqn:Hm3.
  { exact (Hd3 Hok Hnd2 p Hin2 Hm3 Hkey). }
  exfalso. apply Hgone. rewrite Hp3. apply List.filter_In.
  split; [exact Hin2|]. rewrite Hm3. reflexivity.
Qed.
End JanitorBlobs.

Lemma dedupe_removes_blobs_witness :
  bucket (fst (cleanDuplicates (api := PlainUrl.plain_url) calm_env world_aba))
    !! storage_key second_row_of_a
  = None.
Proof.
  apply (dedupe_removes_blobs (api := PlainUrl.plain_url) calm_env world_aba).
  - intros t. reflexivity.
  - vm_compute.
    repeat (apply NoDup_cons_2; [rewrite ?elem_of_cons, elem_of_nil; lia|]).
    apply NoDup_nil_2.
  - vm_compute. right. right. left. reflexivity.
  - vm_compute. intros [H|[H|[]]]; discriminate H.
  - reflexivity.
Defined.

(** ** Attachment text *)

Lemma attachment_text_source :
  forall att, otruthy (attachment_text att) = true ->
              In (attachment_text att) (node_texts att).
Proof.
  fix IH 1. intros [src sub d t ty mt].
  cbn [attachment_text node_texts att_description att_title att_sub].
  destruct (otruthy (jsor d t)) eqn:Htext; [intros _; left; reflexivity|].
  destruct sub as [children|]; [|intros H; discriminate H].
  intros H. right. revert H.
  induction children as [|child children IHc]; [intros H; discriminate H|].
  cbn [flat_map]. intros H. apply in_or_app.
  destruct (otruthy (attachment_text child)) eqn:Hchild.
  - left. apply IH. exact Hchild.
  - right. apply IHc. exact H.
Qed.

(** X27. The text taken from a post's attachments is never the empty
    string: [extractAttachmentText] answers null or a non-empty text,
    and that text is the description, else the title, of a node of the
    attachment tree. *)
Theorem attachment_text_is_null_or_text
        (attachments : option (list FacebookAttachment)) :
  match extractAttachmentText attachments with
  | None => True
  | Some text =>
      truthy text = true
      /\ exists data att,
          attachments = Some data /\ In att data
          /\ In (Some text) (node_texts att)
  end.
Proof.
  unfold extractAttachmentText. destruct attachments as [data|]; [|exact I].
  assert (H : forall l,
             match first_attachment_text l with
             | None => True
             | Some text =>
                 truthy text = true
                 /\ exists att, In att l /\ In (Some text) (node_texts att)
             end).
  { induction l as [|att l IHl]; [exact I|]. cbn [first_attachment_text].
    destruct (otruthy (attachment_text att)) eqn:Hatt.
    - pose proof (attachment_text_source att Hatt) as Hsrc.
      destruct (attachment_text att) as [text|]; [|discriminate Hatt].
      split; [exact Hatt|]. exists att. split; [left; reflexivity|exact Hsrc].
    - destruct (first_attachment_text l) as [text|]; [|exact I].
      destruct IHl as [Htext (a & Ha & Hin)].
      split; [exact Htext|]. exists a. split; [right; exact Ha|exact Hin]. }
  specialize (H data). destruct (first_attachment_text data) as [text|];
    [|exact I].
  destruct H as [Htext (att & Hatt & Hin)].
  split; [exact Htext|]. exists data, att. auto.
Qed.
